(** * ProcGalDemo: the rotated-viewport quadtree and its star generator

    A shallow embedding of [galaxy/galaxyquad.py] and
    [procedural_galaxy/myrand.py].

    Number model.  Python [int] is [Z]; the 64-bit wrap-around of the hash
    functions is written out with [Z.land _ MASK64].  Python [float] is
    idealised as a real number [R]: sums, products and quotients are exact,
    [math.cos], [math.sin] and [math.log2] are the mathematical functions,
    and a comparison of two floats is the comparison of the two reals.
    Rounding, infinities and NaN are outside this model. *)

From Stdlib Require Import ZArith List Bool Reals Lra Lia Psatz.
Import ListNotations.

Set Implicit Arguments.
Set Warnings "-register-all".

(** ** Outcomes of calls that can raise or recurse without bound *)

Inductive result (A : Type) : Type :=
| Ok (a : A)
| MathDomainError
| OutOfFuel.

Arguments Ok {A} a.
Arguments MathDomainError {A}.
Arguments OutOfFuel {A}.

Definition bind {A B : Type} (m : result A) (k : A -> result B) : result B :=
  match m with
  | Ok a => k a
  | MathDomainError => MathDomainError
  | OutOfFuel => OutOfFuel
  end.

Notation "x <- m ;; k" := (bind m (fun x => k))
  (at level 61, m at next level, right associativity).

(** ** Float helpers *)

Definition Rltb (x y : R) : bool := if Rlt_dec x y then true else false.
Definition Rleb (x y : R) : bool := if Rle_dec x y then true else false.

(** [math.ceil]: the least integer not below [x]. *)
Definition Rceil (x : R) : Z := (1 - up (- x)%R)%Z.

(** [int(x)] on a float: truncation toward zero. *)
Definition Rtrunc (x : R) : Z :=
  if Rle_dec 0 x then Int_part x else (- Int_part (- x)%R)%Z.

(** [math.log2]; its callers check the domain. *)
Definition log2 (x : R) : R := (ln x / ln 2)%R.

(** [min(xs)] and [max(xs)] of a list of floats.  Python raises
    [ValueError] on an empty list; the only caller passes the coordinates
    of four corners. *)
Definition min_list (xs : list R) : R :=
  match xs with
  | [] => 0%R
  | x :: rest => fold_left Rmin rest x
  end.

Definition max_list (xs : list R) : R :=
  match xs with
  | [] => 0%R
  | x :: rest => fold_left Rmax rest x
  end.

(** [range(n)] and [enumerate(l)]. *)
Definition range (n : Z) : list Z := map Z.of_nat (seq 0 (Z.to_nat n)).

Definition enumerate {A : Type} (l : list A) : list (Z * A) :=
  combine (range (Z.of_nat (length l))) l.

(** ** myrand.py *)

Module myrand.

Local Open Scope Z_scope.

Definition MASK64 : Z := Z.shiftl 1 64 - 1.
Definition TILE_DOMAIN : Z := 0x54494C45.
Definition STAR_DOMAIN : Z := 0x53544152.

Definition splitmix64 (x : Z) : Z :=
  let x := Z.land (x + 0x9E3779B97F4A7C15) MASK64 in
  let z := x in
  let z := Z.land (Z.lxor z (Z.shiftr z 30) * 0xBF58476D1CE4E5B9) MASK64 in
  let z := Z.land (Z.lxor z (Z.shiftr z 27) * 0x94D049BB133111EB) MASK64 in
  Z.land (Z.lxor z (Z.shiftr z 31)) MASK64.

Definition hash64 (vals : list Z) : Z :=
  fold_left (fun h v => splitmix64 (Z.lxor h (Z.land v MASK64)))
            vals 0xA0761D6478BD642F.

(** The 53 bits the double is built from. *)
Definition u01_bits (seed tag : Z) : Z :=
  let x := splitmix64 (Z.lxor seed (Z.land (tag * 0xD6E8FEB86659FD93) MASK64)) in
  Z.land (Z.shiftr x 11) (Z.shiftl 1 53 - 1).

Definition u01 (seed tag : Z) : R :=
  (IZR (u01_bits seed tag) / IZR (Z.shiftl 1 53))%R.

Definition tile_key (world_seed depth x y : Z) : Z :=
  hash64 [TILE_DOMAIN; world_seed; depth; x; y].

Definition star_id (tile_key_ i : Z) : Z :=
  hash64 [STAR_DOMAIN; tile_key_; i].

End myrand.

Definition GLOBAL_SEED : Z := 8675309%Z.

(** ** Star stubs *)

Record StarStub : Type := mkStarStub {
  starID : Z;
  position : R * R;
  brightness : R
}.

Definition star_x (s : StarStub) : R := fst (position s).
Definition star_y (s : StarStub) : R := snd (position s).
Definition star_r (s : StarStub) : R :=
  (star_x s * star_x s + star_y s * star_y s)%R.

(** ** Axis-aligned rectangles *)

Module Rect.

Record t : Type := mk { cx : R; cy : R; hw : R; hh : R }.

Section Derived.
Variable self : t.
Local Open Scope R_scope.

Definition xmin : R := cx self - hw self.
Definition xmax : R := cx self + hw self.
Definition ymin : R := cy self - hh self.
Definition ymax : R := cy self + hh self.
Definition w : R := 2 * hw self.
Definition h : R := 2 * hh self.

Definition corners : list (R * R) :=
  [ (xmin, ymin); (xmin, ymax); (xmax, ymax); (xmax, ymin) ].

(** NW, NE, SW, SE *)
Definition quadrants : list t :=
  let qhw := hw self / 2 in
  let qhh := hh self / 2 in
  [ mk (cx self - qhw) (cy self + qhh) qhw qhh;
    mk (cx self + qhw) (cy self + qhh) qhw qhh;
    mk (cx self - qhw) (cy self - qhh) qhw qhh;
    mk (cx self + qhw) (cy self - qhh) qhw qhh ].

End Derived.

End Rect.

(** ** Oriented viewport rectangle *)

Module OrientedRect.

Record t : Type := mk { cx : R; cy : R; hw : R; hh : R; theta_rad : R }.

Local Open Scope R_scope.

Definition axes (self : t) : (R * R) * (R * R) :=
  let c := cos (theta_rad self) in
  let s := sin (theta_rad self) in
  ((c, s), (- s, c)).

Definition to_local (self : t) (x y : R) : R * R :=
  let dx := x - cx self in
  let dy := y - cy self in
  let c := cos (theta_rad self) in
  let s := sin (theta_rad self) in
  (c * dx + s * dy, - s * dx + c * dy).

Definition to_world (self : t) (lx ly : R) : R * R :=
  let c := cos (theta_rad self) in
  let s := sin (theta_rad self) in
  let dx := c * lx - s * ly in
  let dy := s * lx + c * ly in
  (dx + cx self, dy + cy self).

Definition contains_point (self : t) (x y : R) : bool :=
  let '(u, v) := axes self in
  let dx := x - cx self in
  let dy := y - cy self in
  let lx := dx * fst u + dy * snd u in
  let ly := dx * fst v + dy * snd v in
  Rleb (Rabs lx) (hw self) && Rleb (Rabs ly) (hh self).

Definition contains_aabb (self : t) (aabb : Rect.t) : bool :=
  forallb (fun p => contains_point self (fst p) (snd p)) (Rect.corners aabb).

Definition dot (ax ay bx by_ : R) : R := ax * bx + ay * by_.

Definition proj_aabb (axis : R * R) (r : Rect.t) : R * R :=
  let '(ax, ay) := axis in
  let c := dot (Rect.cx r) (Rect.cy r) ax ay in
  let rad := Rect.hw r * Rabs ax + Rect.hh r * Rabs ay in
  (c - rad, c + rad).

Definition proj_obb (u v axis : R * R) (r : t) : R * R :=
  let '(ax, ay) := axis in
  let c := dot (cx r) (cy r) ax ay in
  let '(ux, uy) := u in
  let '(vx, vy) := v in
  let rad := hw r * Rabs (dot ux uy ax ay) + hh r * Rabs (dot vx vy ax ay) in
  (c - rad, c + rad).

Definition overlap (i1 i2 : R * R) : bool :=
  negb (Rltb (snd i1) (fst i2) || Rltb (snd i2) (fst i1)).

(** The loop over the four axes returns [False] at the first axis without
    overlap, which is what [forallb] computes. *)
Definition intersects_aabb (self : t) (aabb : Rect.t) : bool :=
  let '(u, v) := axes self in
  forallb (fun axis => overlap (proj_aabb axis aabb) (proj_obb u v axis self))
          [ (1, 0); (0, 1); u; v ].

(** The four corners, counter-clockwise: center -/+ du -/+ dv. *)
Definition corners (self : t) : list (R * R) :=
  let '(u, v) := axes self in
  let add (ax ay bx by_ : R) := (ax + bx, ay + by_) in
  let mul (a : R * R) (k : R) := (fst a * k, snd a * k) in
  let du := mul u (hw self) in
  let dv := mul v (hh self) in
  let c0 := add (cx self) (cy self) (- fst du - fst dv) (- snd du - snd dv) in
  let c1 := add (cx self) (cy self) (- fst du + fst dv) (- snd du + snd dv) in
  let c2 := add (cx self) (cy self) (fst du + fst dv) (snd du + snd dv) in
  let c3 := add (cx self) (cy self) (fst du - fst dv) (snd du - snd dv) in
  [c0; c1; c2; c3].

(** Axis-aligned bounding box of the rotated viewport. *)
Definition aabb_bounds (self : t) : Rect.t :=
  let cs := corners self in
  let xs := map fst cs in
  let ys := map snd cs in
  let xmin := min_list xs in
  let xmax := max_list xs in
  let ymin := min_list ys in
  let ymax := max_list ys in
  Rect.mk (0.5 * (xmin + xmax)) (0.5 * (ymin + ymax))
          (0.5 * (xmax - xmin)) (0.5 * (ymax - ymin)).

End OrientedRect.

(** ** Quadtree nodes *)

Module QuadNode.

(** [children] is [None] or the tuple built by [subdivide]; [stars] is the
    cache filled by [generate_stars]. *)
Inductive t : Type := mk {
  rect : Rect.t;
  depth : Z;
  path : list Z;
  children : option (list t);
  stars : option (list StarStub)
}.

Definition set_children (self : t) (c : option (list t)) : t :=
  mk (rect self) (depth self) (path self) c (stars self).

Definition set_stars (self : t) (s : option (list StarStub)) : t :=
  mk (rect self) (depth self) (path self) (children self) s.

Local Open Scope Z_scope.

(** *** Tree management *)

Definition subdivide (self : t) : t :=
  match children self with
  | Some _ => self
  | None =>
      set_children self
        (Some (map (fun ic => mk (snd ic) (depth self + 1)
                                 (path self ++ [fst ic]) None None)
                   (enumerate (Rect.quadrants (rect self)))))
  end.

Definition is_leaf (self : t) : bool :=
  match children self with None => true | Some _ => false end.

Definition node_position_step (xy : Z * Z) (step : Z) : Z * Z :=
  let xb := Z.land step 1 in
  let yb := Z.land (Z.shiftr step 1) 1 in
  (Z.lor (Z.shiftl (fst xy) 1) xb, Z.lor (Z.shiftl (snd xy) 1) yb).

Definition position_of_path (p : list Z) : Z * Z :=
  fold_left node_position_step p (0, 0).

Definition node_position (self : t) : Z * Z := position_of_path (path self).

Definition node_key (self : t) : Z * Z * Z :=
  (depth self, fst (node_position self), snd (node_position self)).

Definition tileID (self : t) : Z :=
  let '(d, x, y) := node_key self in myrand.tile_key GLOBAL_SEED d x y.

Definition morton_code (self : t) : Z :=
  let '(x, y) := node_position self in
  fold_left (fun code i =>
               let code := Z.lor code (Z.shiftl (Z.land (Z.shiftr x i) 1) (2 * i)) in
               Z.lor code (Z.shiftl (Z.land (Z.shiftr y i) 1) (2 * i + 1)))
            (range (depth self)) 0.

(** *** Traversal *)

Definition StopPredicate : Type := t -> OrientedRect.t -> bool.

(** The loop [for child in self.children: child.traverse(...)]: the children
    are traversed left to right and the nodes they record are appended in
    that order. *)
Fixpoint traverse_children (trav : t -> result (t * list t)) (kids : list t)
  : result (list t * list t) :=
  match kids with
  | [] => Ok ([], [])
  | c :: rest =>
      r <- trav c ;;
      rs <- traverse_children trav rest ;;
      Ok (fst r :: fst rs, snd r ++ snd rs)
  end.

(** [self.traverse(viewport, stop=..., visited=..., max_depth=...)] on the
    subtree [self].  The result is the subtree after the call and the nodes
    the call appended to [visited], in order.  [visited] holds references:
    an entry is the node object as the traversal leaves it, so the entry of
    a node that was descended into carries its traversed children.
    [fuel] bounds the recursion depth; Python recurses without bound when
    [max_depth] is [None] and [stop] never answers [True]. *)
Fixpoint traverse_rec (fuel : nat) (viewport : OrientedRect.t)
         (stop : StopPredicate) (max_depth : option Z) (self : t)
  : result (t * list t) :=
  match fuel with
  | O => OutOfFuel
  | S fuel' =>
      if negb (OrientedRect.intersects_aabb viewport (rect self)) then
        Ok (set_children self None, [])
      else
        let should_stop := stop self viewport in
        let should_stop :=
          match max_depth with
          | Some m => if m <=? depth self then true else should_stop
          | None => should_stop
          end in
        if should_stop then
          let self' := set_children self None in Ok (self', [self'])
        else
          let self1 := match children self with
                       | None => subdivide self
                       | Some _ => self
                       end in
          let kids := match children self1 with Some k => k | None => [] end in
          rs <- traverse_children
                  (traverse_rec fuel' viewport stop max_depth) kids ;;
          let self' := set_children self1 (Some (fst rs)) in
          Ok (self', self' :: snd rs)
  end.

(** The [visited] argument is an optional list that the call extends. *)
Definition traverse (fuel : nat) (viewport : OrientedRect.t)
           (stop : StopPredicate) (visited : option (list t))
           (max_depth : option Z) (self : t)
  : result (t * option (list t)) :=
  r <- traverse_rec fuel viewport stop max_depth self ;;
  Ok (fst r, option_map (fun l => l ++ snd r) visited).

(** *** Randomness *)

Local Open Scope R_scope.

Definition n_expected (self : t) : Z := (5 ^ depth self / 4 ^ depth self)%Z.

Definition variation (self : t) : Z :=
  Rtrunc ((myrand.u01 (tileID self) 0xFADECAFE%Z - 0.5)
          * IZR (n_expected self) * 0.3).

Definition star_count (self : t) : Z :=
  Z.max 1 (n_expected self + variation self).

Definition make_star (self : t) (seed i : Z) : StarStub :=
  mkStarStub
    (myrand.star_id seed i)
    (Rect.cx (rect self) + (myrand.u01 seed (2 * i) - 0.5) * Rect.w (rect self),
     Rect.cy (rect self) + (myrand.u01 seed (2 * i + 1) - 0.5) * Rect.h (rect self))
    (myrand.u01 seed i).

Definition stars_local (self : t) : list StarStub :=
  let n := star_count self in
  let seed := tileID self in
  map (make_star self seed) (range n).

(** Returns the node with its cache filled and the list handed back. *)
Definition generate_stars (self : t) : t * list StarStub :=
  match stars self with
  | None => let l := stars_local self in (set_stars self (Some l), l)
  | Some l => (self, l)
  end.

End QuadNode.

(** ** The tree and its level-of-detail policy *)

Module QuadTree.

Record t : Type := mk {
  root : QuadNode.t;
  cells_across : Z;
  min_depth : Z;
  max_depth : Z
}.

Definition set_root (self : t) (r : QuadNode.t) : t :=
  mk r (cells_across self) (min_depth self) (max_depth self).

(** The dataclass defaults are [min_depth = 0] and [max_depth = 20]; the
    caller of [from_center] that omits [cells_across] passes 4. *)
Definition from_center (cx cy hw hh : R) (cells_across : Z) : t :=
  let rect := Rect.mk cx cy hw hh in
  let qnode := QuadNode.mk rect 0 [] None None in
  mk qnode cells_across 0 20.

Local Open Scope R_scope.

Definition ratio (self : t) (viewport : OrientedRect.t) : R :=
  let vmin := Rmin (OrientedRect.hw viewport) (OrientedRect.hh viewport) * 2 in
  let root_size := Rmax (Rect.w (QuadNode.rect (root self)))
                        (Rect.h (QuadNode.rect (root self))) in
  (root_size * IZR (cells_across self)) / Rmax (1 / 10 ^ 9) vmin.

(** [math.log2] raises [ValueError] on a non-positive argument. *)
Definition pseudo_depth (self : t) (viewport : OrientedRect.t) : result R :=
  let r := ratio self viewport in
  if Rlt_dec 0 r then Ok (log2 r) else MathDomainError.

Definition desired_depth (self : t) (viewport : OrientedRect.t) : result Z :=
  pdepth <- pseudo_depth self viewport ;;
  let pdepth_int := Rceil pdepth in
  Ok (Z.max (min_depth self) (Z.min (max_depth self) pdepth_int)).

Definition default_stop_predicate (self : t) (viewport : OrientedRect.t)
  : result QuadNode.StopPredicate :=
  target_depth <- desired_depth self viewport ;;
  Ok (fun (node : QuadNode.t) (_vp : OrientedRect.t) =>
        (target_depth <=? QuadNode.depth node)%Z
        || (max_depth self <=? QuadNode.depth node)%Z).

(** [update] always passes [max_depth], so on a tree grown from a fresh
    root, where a child is one level deeper than its parent, the recursion
    stops after at most [max_depth - depth root + 1] calls: this much fuel
    is never used up there (see [update_never_out_of_fuel]). *)
Definition update_fuel (self : t) : nat :=
  S (Z.to_nat (max_depth self - QuadNode.depth (root self))).

Definition update (self : t) (viewport : OrientedRect.t)
           (stop : option QuadNode.StopPredicate)
  : result (t * list QuadNode.t) :=
  stop <- match stop with
          | None => default_stop_predicate self viewport
          | Some s => Ok s
          end ;;
  r <- QuadNode.traverse (update_fuel self) viewport stop (Some [])
         (Some (max_depth self)) (root self) ;;
  Ok (set_root self (fst r),
      match snd r with Some visited => visited | None => [] end).

End QuadTree.

(** ** Level-of-detail fade used by the star renderer *)

Definition smoothstep (t : R) : R :=
  let t := Rmax 0 (Rmin 1 t) in
  (t * t * (3 - 2 * t))%R.

(** ** Plain axis-aligned tests, written from the specification

    The repository has no AABB-against-AABB test; these two follow the
    words of the specification and serve as the reference that the
    oriented tests are compared with at angle 0. *)

Module Plain.

Definition aabb_overlap (a b : Rect.t) : bool :=
  negb (Rltb (Rect.xmax a) (Rect.xmin b) || Rltb (Rect.xmax b) (Rect.xmin a))
  && negb (Rltb (Rect.ymax a) (Rect.ymin b) || Rltb (Rect.ymax b) (Rect.ymin a)).

Definition point_in_bounds (outer : Rect.t) (p : R * R) : bool :=
  Rleb (Rect.xmin outer) (fst p) && Rleb (fst p) (Rect.xmax outer)
  && Rleb (Rect.ymin outer) (snd p) && Rleb (snd p) (Rect.ymax outer).

Definition aabb_contains (outer inner : Rect.t) : bool :=
  forallb (point_in_bounds outer) (Rect.corners inner).

(** The box an oriented rectangle is when it is not rotated. *)
Definition unrotated (o : OrientedRect.t) : Rect.t :=
  Rect.mk (OrientedRect.cx o) (OrientedRect.cy o)
          (OrientedRect.hw o) (OrientedRect.hh o).

End Plain.

(** ** Vocabulary of the properties *)

(** The closed point set of a box, its interior and its area. *)
Definition in_box (r : Rect.t) (x y : R) : Prop :=
  (Rect.xmin r <= x <= Rect.xmax r /\ Rect.ymin r <= y <= Rect.ymax r)%R.

Definition in_interior (r : Rect.t) (x y : R) : Prop :=
  (Rect.xmin r < x < Rect.xmax r /\ Rect.ymin r < y < Rect.ymax r)%R.

Definition area (r : Rect.t) : R := (Rect.w r * Rect.h r)%R.

(** The rotated rectangle of a viewport as a set of points: the center
    plus [p] times the first axis plus [q] times the second, with [p] and
    [q] within the half-extents.  Its corners are the four points with
    [p = -/+ hw] and [q = -/+ hh]. *)
Definition in_viewport (v : OrientedRect.t) (x y : R) : Prop :=
  exists p q : R,
    (Rabs p <= OrientedRect.hw v)%R /\ (Rabs q <= OrientedRect.hh v)%R
    /\ (x = OrientedRect.cx v + p * cos (OrientedRect.theta_rad v)
                             - q * sin (OrientedRect.theta_rad v))%R
    /\ (y = OrientedRect.cy v + p * sin (OrientedRect.theta_rad v)
                             + q * cos (OrientedRect.theta_rad v))%R.

(** A box and a viewport intersect when some point of the plane lies in
    both. *)
Definition shares_point (v : OrientedRect.t) (r : Rect.t) : Prop :=
  exists x y : R, in_box r x y /\ in_viewport v x y.

(** The box [subdivide] gives the child with quadrant index [i]. *)
Definition child_rect (r : Rect.t) (i : Z) : Rect.t :=
  nth (Z.to_nat i) (Rect.quadrants r) r.

(** The box of the node reached from a box [r] along the quadrant indices
    [p]. *)
Definition rect_of_path (r : Rect.t) (p : list Z) : Rect.t :=
  fold_left child_rect p r.

Definition quadrant_index (i : Z) : Prop := (0 <= i < 4)%Z.


(** ** Tree states *)

(** The root [from_center] builds. *)
Definition fresh_root (r : Rect.t) : QuadNode.t := QuadNode.mk r 0 [] None None.

(** [c] is what [subdivide] makes of quadrant [i] of [n]. *)
Definition is_child_of (n : QuadNode.t) (i : nat) (c : QuadNode.t) : Prop :=
  QuadNode.depth c = (QuadNode.depth n + 1)%Z
  /\ QuadNode.path c = QuadNode.path n ++ [Z.of_nat i]
  /\ QuadNode.rect c = child_rect (QuadNode.rect n) (Z.of_nat i).

(** The children field of [n], when present, holds four nodes, one per
    quadrant. *)
Definition children_ok (n : QuadNode.t) : Prop :=
  forall kids, QuadNode.children n = Some kids ->
    length kids = 4%nat
    /\ forall i c, nth_error kids i = Some c -> is_child_of n i c.

(** The star cache of [n] is empty or holds what [generate_stars] computes. *)
Definition cache_ok (n : QuadNode.t) : Prop :=
  QuadNode.stars n = None \/ QuadNode.stars n = Some (QuadNode.stars_local n).

Definition node_ok (n : QuadNode.t) : Prop := children_ok n /\ cache_ok n.

(** [subnode m n]: the node [m] occurs in the tree below (or at) [n]. *)
Inductive subnode (m : QuadNode.t) : QuadNode.t -> Prop :=
| sub_here : subnode m m
| sub_child n kids c :
    QuadNode.children n = Some kids -> In c kids -> subnode m c ->
    subnode m n.

(** [P] holds at every node of a tree. *)
Inductive all_nodes (P : QuadNode.t -> Prop) : QuadNode.t -> Prop :=
| all_nodes_intro n :
    P n ->
    (forall kids c, QuadNode.children n = Some kids -> In c kids ->
                    all_nodes P c) ->
    all_nodes P n.

(** [n'] has the box and the address of [n]. *)
Definition same_address (n n' : QuadNode.t) : Prop :=
  QuadNode.rect n' = QuadNode.rect n
  /\ QuadNode.depth n' = QuadNode.depth n
  /\ QuadNode.path n' = QuadNode.path n.

Fixpoint replace_nth {A : Type} (i : nat) (x : A) (l : list A) : list A :=
  match l, i with
  | [], _ => []
  | _ :: t, O => x :: t
  | a :: t, S i' => a :: replace_nth i' x t
  end.

(** One operation on a tree: [subdivide], [traverse] or [generate_stars]
    called on the root or, through a reference to it, on any node below. *)
Inductive step : QuadNode.t -> QuadNode.t -> Prop :=
| step_subdivide n : step n (QuadNode.subdivide n)
| step_traverse n fuel viewport stop max_depth n' visited :
    QuadNode.traverse_rec fuel viewport stop max_depth n = Ok (n', visited) ->
    step n n'
| step_generate n : step n (fst (QuadNode.generate_stars n))
| step_child n kids i c c' :
    QuadNode.children n = Some kids -> nth_error kids i = Some c ->
    step c c' ->
    step n (QuadNode.set_children n (Some (replace_nth i c' kids))).

(** The trees that grow from a fresh root with box [r]. *)
Inductive reachable (r : Rect.t) : QuadNode.t -> Prop :=
| reach_fresh : reachable r (fresh_root r)
| reach_step n n' : reachable r n -> step n n' -> reachable r n'.

(** ** The configuration the specification asks for *)

Definition valid_config (t : QuadTree.t) : Prop :=
  (0 < Rect.hw (QuadNode.rect (QuadTree.root t)))%R
  /\ (0 < Rect.hh (QuadNode.rect (QuadTree.root t)))%R
  /\ (0 < QuadTree.cells_across t)%Z
  /\ (0 <= QuadTree.min_depth t <= QuadTree.max_depth t)%Z.

(** ** The star-count law as the specification words it

    [round(5^depth / 4^depth)] read as rounding to the nearest integer
    (the quotient is never half-way between two integers). *)

Module Claimed.

Definition n_expected_rounded (d : Z) : Z :=
  ((2 * 5 ^ d + 4 ^ d) / (2 * 4 ^ d))%Z.

Definition star_count_rounded (self : QuadNode.t) : Z :=
  let ne := n_expected_rounded (QuadNode.depth self) in
  Z.max 1 (ne + Rtrunc ((myrand.u01 (QuadNode.tileID self) 0xFADECAFE%Z - 0.5)
                        * IZR ne * 0.3)%R).

End Claimed.

(** ** Undoing the mixer

    Each stage of [splitmix64] can be undone on 64-bit words: the
    xor-shifts by the shift itself applied twice more, the multiplications
    by the inverses of the odd constants modulo 2^64, the addition by a
    subtraction.  [unsplitmix64] chains the inverse stages; it is not in
    the repository and serves to show that the mixer loses nothing. *)

(** A 64-bit unsigned value. *)
Definition word (x : Z) : Prop := (0 <= x < 2 ^ 64)%Z.

Module Unmix.

Local Open Scope Z_scope.

Definition unxorshift (k w : Z) : Z :=
  Z.lxor (Z.lxor w (Z.shiftr w k)) (Z.shiftr w (k + k)).

Definition unsplitmix64 (y : Z) : Z :=
  let z := unxorshift 31 y in
  let z := (z * 0x319642B2D24D8EC3) mod 2 ^ 64 in
  let z := unxorshift 27 z in
  let z := (z * 0x96DE1B173F119089) mod 2 ^ 64 in
  let z := unxorshift 30 z in
  (z - 0x9E3779B97F4A7C15) mod 2 ^ 64.

End Unmix.

(** ** A path read as a number in base 4 *)

Definition path_base4 (p : list Z) : Z :=
  fold_left (fun acc s => (4 * acc + s)%Z) p 0%Z.
(** * Properties *)

(** ** The model on concrete inputs *)

(** The first outputs of the public splitmix64 generator for the states 0
    and 1. *)
Example splitmix64_0 : myrand.splitmix64 0 = 0xE220A8397B1DCDAF%Z.
Proof. vm_compute. reflexivity. Qed.

Example splitmix64_1 : myrand.splitmix64 1 = 0x910A2DEC89025CC1%Z.
Proof. vm_compute. reflexivity. Qed.

Example hash64_empty : myrand.hash64 [] = 0xA0761D6478BD642F%Z.
Proof. reflexivity. Qed.

(** Path (NE, SW, SE): x collects bit 0 of each step, y bit 1. *)
Example position_of_path_123 :
  QuadNode.position_of_path [1; 2; 3]%Z = (5, 3)%Z.
Proof. reflexivity. Qed.

Example n_expected_depths :
  map (fun d => QuadNode.n_expected (QuadNode.mk (Rect.mk 0 0 1 1) d [] None None))
      [0; 1; 2; 3; 4; 5; 20]%Z
  = [1; 1; 1; 1; 2; 3; 86]%Z.
Proof. vm_compute. reflexivity. Qed.

(** ** Comparisons as booleans *)

Lemma Rltb_true (x y : R) : Rltb x y = true <-> (x < y)%R.
Proof. unfold Rltb; destruct (Rlt_dec x y); split; intros; try easy. Qed.

Lemma Rltb_false (x y : R) : Rltb x y = false <-> (y <= x)%R.
Proof.
  unfold Rltb; destruct (Rlt_dec x y); split; intros; try easy; lra.
Qed.

Lemma Rleb_true (x y : R) : Rleb x y = true <-> (x <= y)%R.
Proof. unfold Rleb; destruct (Rle_dec x y); split; intros; try easy. Qed.

Lemma Rleb_false (x y : R) : Rleb x y = false <-> (y < x)%R.
Proof.
  unfold Rleb; destruct (Rle_dec x y); split; intros; try easy; lra.
Qed.

Lemma overlap_true (a b c d : R) :
  OrientedRect.overlap (a, b) (c, d) = true <-> (c <= b /\ a <= d)%R.
Proof.
  unfold OrientedRect.overlap; simpl.
  rewrite negb_true_iff, orb_false_iff, !Rltb_false. tauto.
Qed.

Lemma Rleb_abs (x c h : R) :
  Rleb (Rabs (x - c)) h = Rleb (c - h) x && Rleb x (c + h).
Proof.
  destruct (Rleb (c - h) x) eqn:E1; destruct (Rleb x (c + h)) eqn:E2; simpl;
    rewrite ?Rleb_true, ?Rleb_false in *;
    unfold Rabs; destruct (Rcase_abs (x - c)); lra.
Qed.

(** ** The separating-axis test at angle 0 *)

Section UnrotatedViewport.

Variable o : OrientedRect.t.
Hypothesis theta0 : OrientedRect.theta_rad o = 0%R.

Local Open Scope R_scope.

Lemma axes_unrotated : OrientedRect.axes o = ((1, 0), (- 0, 1)).
Proof. unfold OrientedRect.axes. rewrite theta0, cos_0, sin_0. reflexivity. Qed.

Lemma proj_aabb_x (a : Rect.t) :
  OrientedRect.proj_aabb (1, 0) a = (Rect.xmin a, Rect.xmax a).
Proof.
  unfold OrientedRect.proj_aabb, OrientedRect.dot, Rect.xmin, Rect.xmax.
  rewrite Rabs_R1, Rabs_R0. f_equal; ring.
Qed.

Lemma proj_aabb_y (a : Rect.t) :
  OrientedRect.proj_aabb (0, 1) a = (Rect.ymin a, Rect.ymax a).
Proof.
  unfold OrientedRect.proj_aabb, OrientedRect.dot, Rect.ymin, Rect.ymax.
  rewrite Rabs_R1, Rabs_R0. f_equal; ring.
Qed.

Lemma proj_obb_x (ax : R) :
  ax = 1 ->
  OrientedRect.proj_obb (1, 0) (- 0, 1) (ax, 0) o
  = (Rect.xmin (Plain.unrotated o), Rect.xmax (Plain.unrotated o)).
Proof.
  intros ->.
  unfold OrientedRect.proj_obb, OrientedRect.dot, Rect.xmin, Rect.xmax; simpl.
  replace (1 * 1 + 0 * 0) with 1 by ring.
  replace (- 0 * 1 + 1 * 0) with 0 by ring.
  rewrite Rabs_R1, Rabs_R0. f_equal; ring.
Qed.

Lemma proj_obb_y (ax : R) :
  ax = 0 ->
  OrientedRect.proj_obb (1, 0) (- 0, 1) (ax, 1) o
  = (Rect.ymin (Plain.unrotated o), Rect.ymax (Plain.unrotated o)).
Proof.
  intros ->.
  unfold OrientedRect.proj_obb, OrientedRect.dot, Rect.ymin, Rect.ymax; simpl.
  replace (1 * 0 + 0 * 1) with 0 by ring.
  replace (- 0 * 0 + 1 * 1) with 1 by ring.
  rewrite Rabs_R1, Rabs_R0. f_equal; ring.
Qed.

Lemma proj_aabb_neg0 (a : Rect.t) :
  OrientedRect.proj_aabb (- 0, 1) a = (Rect.ymin a, Rect.ymax a).
Proof.
  unfold OrientedRect.proj_aabb, OrientedRect.dot, Rect.ymin, Rect.ymax.
  rewrite Ropp_0, Rabs_R1, Rabs_R0. f_equal; ring.
Qed.

Lemma intersects_unrotated (a : Rect.t) :
  OrientedRect.intersects_aabb o a = Plain.aabb_overlap a (Plain.unrotated o).
Proof.
  unfold OrientedRect.intersects_aabb. rewrite axes_unrotated.
  cbn [forallb].
  rewrite proj_aabb_x, proj_aabb_y, proj_aabb_neg0.
  rewrite (proj_obb_x eq_refl), (proj_obb_y eq_refl).
  rewrite (proj_obb_y Ropp_0).
  unfold Plain.aabb_overlap, OrientedRect.overlap; cbn [fst snd].
  set (b1 := negb _). set (b2 := negb _).
  destruct b1, b2; reflexivity.
Qed.

Lemma contains_point_unrotated (x y : R) :
  OrientedRect.contains_point o x y
  = Plain.point_in_bounds (Plain.unrotated o) (x, y).
Proof.
  unfold OrientedRect.contains_point. rewrite axes_unrotated. cbn [fst snd].
  unfold Plain.point_in_bounds, Rect.xmin, Rect.xmax, Rect.ymin, Rect.ymax.
  cbn [fst snd Plain.unrotated Rect.cx Rect.cy Rect.hw Rect.hh].
  replace ((x - OrientedRect.cx o) * 1 + (y - OrientedRect.cy o) * 0)
    with (x - OrientedRect.cx o) by ring.
  replace ((x - OrientedRect.cx o) * - 0 + (y - OrientedRect.cy o) * 1)
    with (y - OrientedRect.cy o) by ring.
  rewrite !Rleb_abs, andb_assoc. reflexivity.
Qed.

Lemma contains_unrotated (a : Rect.t) :
  OrientedRect.contains_aabb o a = Plain.aabb_contains (Plain.unrotated o) a.
Proof.
  unfold OrientedRect.contains_aabb, Plain.aabb_contains, Rect.corners.
  cbn [forallb fst snd]. rewrite !contains_point_unrotated. reflexivity.
Qed.

End UnrotatedViewport.

(** C6.  For an oriented rectangle with rotation angle 0 and any
    axis-aligned box, the four-axis separating-axis test gives the answer
    of the plain interval-overlap test of the two boxes, and the
    all-corners containment test gives the answer of plain box containment
    (every corner of the inner box within the bounds of the outer one). *)
Theorem sat_degenerate_agrees_with_aabb (o : OrientedRect.t) (a : Rect.t) :
  OrientedRect.theta_rad o = 0%R ->
  OrientedRect.intersects_aabb o a = Plain.aabb_overlap a (Plain.unrotated o)
  /\ OrientedRect.contains_aabb o a = Plain.aabb_contains (Plain.unrotated o) a.
Proof.
  intros H. split.
  - apply intersects_unrotated; exact H.
  - apply contains_unrotated; exact H.
Qed.

(** ** Quadrants *)

Lemma quadrant_index_cases (i : Z) :
  quadrant_index i -> i = 0%Z \/ i = 1%Z \/ i = 2%Z \/ i = 3%Z.
Proof. unfold quadrant_index; lia. Qed.

Ltac unfold_rect :=
  unfold in_box, in_interior, area, Rect.xmin, Rect.xmax, Rect.ymin,
    Rect.ymax, Rect.w, Rect.h in *;
  cbn [Rect.cx Rect.cy Rect.hw Rect.hh] in *.

Section QuadrantPartition.

Variable B : Rect.t.
Hypothesis hw_pos : (0 < Rect.hw B)%R.
Hypothesis hh_pos : (0 < Rect.hh B)%R.

Local Open Scope R_scope.

Lemma quadrants_cover (x y : R) :
  in_box B x y <-> exists q, In q (Rect.quadrants B) /\ in_box q x y.
Proof.
  split.
  - intros Hin.
    destruct (Rle_dec x (Rect.cx B)); destruct (Rle_dec (Rect.cy B) y).
    + exists (nth 0 (Rect.quadrants B) B). split; [simpl; tauto|].
      unfold_rect; simpl; lra.
    + exists (nth 2 (Rect.quadrants B) B). split; [simpl; tauto|].
      unfold_rect; simpl; lra.
    + exists (nth 1 (Rect.quadrants B) B). split; [simpl; tauto|].
      unfold_rect; simpl; lra.
    + exists (nth 3 (Rect.quadrants B) B). split; [simpl; tauto|].
      unfold_rect; simpl; lra.
  - intros (q & Hq & Hin). simpl in Hq.
    destruct Hq as [<- | [<- | [<- | [<- | []]]]]; unfold_rect; lra.
Qed.

Lemma quadrants_disjoint (i j : nat) (qi qj : Rect.t) (x y : R) :
  nth_error (Rect.quadrants B) i = Some qi ->
  nth_error (Rect.quadrants B) j = Some qj ->
  i <> j ->
  ~ (in_interior qi x y /\ in_interior qj x y).
Proof.
  intros Hi Hj Hne [Hqi Hqj].
  destruct i as [|[|[|[|i]]]]; simpl in Hi; try (destruct i; discriminate);
  destruct j as [|[|[|[|j]]]]; simpl in Hj; try (destruct j; discriminate);
  try congruence;
  injection Hi as <-; injection Hj as <-; unfold_rect; lra.
Qed.

Lemma quadrants_half (q : Rect.t) :
  In q (Rect.quadrants B) ->
  Rect.hw q = Rect.hw B / 2 /\ Rect.hh q = Rect.hh B / 2.
Proof.
  simpl. intros [<- | [<- | [<- | [<- | []]]]]; simpl; split; reflexivity.
Qed.

Lemma quadrants_area :
  fold_right Rplus 0 (map area (Rect.quadrants B)) = area B.
Proof. simpl. unfold_rect. field. Qed.

End QuadrantPartition.

(** The quadrant with index [i]: bit 0 of [i] picks the sign of the x
    offset, bit 1 the sign of the y offset. *)
Lemma child_rect_bits (r : Rect.t) (i : Z) :
  quadrant_index i ->
  child_rect r i
  = Rect.mk (Rect.cx r + (if Z.testbit i 0 then 1 else -1) * (Rect.hw r / 2))
            (Rect.cy r + (if Z.testbit i 1 then -1 else 1) * (Rect.hh r / 2))
            (Rect.hw r / 2) (Rect.hh r / 2).
Proof.
  intros Hi. destruct (quadrant_index_cases Hi) as [-> | [-> | [-> | ->]]];
    unfold child_rect; simpl; f_equal; ring.
Qed.

Lemma lor_shiftl_bit (x b : Z) :
  (0 <= x)%Z -> (b = 0 \/ b = 1)%Z ->
  Z.lor (Z.shiftl x 1) b = (2 * x + b)%Z.
Proof.
  intros Hx [-> | ->]; destruct x as [|p|p]; try lia; reflexivity.
Qed.

Lemma node_position_step_bits (xy : Z * Z) (i : Z) :
  (0 <= fst xy)%Z -> (0 <= snd xy)%Z -> quadrant_index i ->
  QuadNode.node_position_step xy i
  = ((2 * fst xy + Z.b2z (Z.testbit i 0))%Z,
     (2 * snd xy + Z.b2z (Z.testbit i 1))%Z).
Proof.
  intros Hx Hy Hi. unfold QuadNode.node_position_step.
  destruct (quadrant_index_cases Hi) as [-> | [-> | [-> | ->]]];
    cbn [Z.land Z.shiftr Z.testbit Z.b2z];
    rewrite !lor_shiftl_bit by (auto; cbv; auto); reflexivity.
Qed.

Lemma position_of_path_snoc (p : list Z) (i : Z) :
  QuadNode.position_of_path (p ++ [i])
  = QuadNode.node_position_step (QuadNode.position_of_path p) i.
Proof. unfold QuadNode.position_of_path. rewrite fold_left_app. reflexivity. Qed.

Lemma rect_of_path_snoc (r : Rect.t) (p : list Z) (i : Z) :
  rect_of_path r (p ++ [i]) = child_rect (rect_of_path r p) i.
Proof. unfold rect_of_path. rewrite fold_left_app. reflexivity. Qed.

Lemma position_of_path_nonneg (p : list Z) :
  Forall quadrant_index p ->
  (0 <= fst (QuadNode.position_of_path p)
   /\ 0 <= snd (QuadNode.position_of_path p))%Z.
Proof.
  induction p as [|i p IH] using rev_ind; intros Hp.
  - cbn. lia.
  - apply Forall_app in Hp. destruct Hp as [Hp Hi]. inversion_clear Hi.
    destruct (IH Hp) as [Hx Hy].
    rewrite position_of_path_snoc, node_position_step_bits by assumption.
    cbn [fst snd].
    destruct (Z.testbit i 0), (Z.testbit i 1); cbn [Z.b2z]; lia.
Qed.

(** Grid coordinates and boxes agree: the node at grid position [(x, y)]
    of its depth has its left edge [x] cell widths right of the left edge
    of the root box and its top edge [y] cell heights below the top edge. *)
Lemma rect_of_path_grid (r : Rect.t) (p : list Z) :
  Forall quadrant_index p ->
  let c := rect_of_path r p in
  let xy := QuadNode.position_of_path p in
  (Rect.hw c = Rect.hw r / 2 ^ length p
   /\ Rect.hh c = Rect.hh r / 2 ^ length p
   /\ Rect.xmin c = Rect.xmin r + IZR (fst xy) * Rect.w c
   /\ Rect.ymax c = Rect.ymax r - IZR (snd xy) * Rect.h c)%R.
Proof.
  induction p as [|i p IH] using rev_ind; intros Hp.
  - cbn. unfold_rect. repeat split; field.
  - apply Forall_app in Hp. destruct Hp as [Hp Hi]. inversion_clear Hi.
    specialize (IH Hp). cbv zeta in IH |- *.
    destruct IH as (Hw & Hh & Hx & Hy).
    destruct (position_of_path_nonneg Hp) as [Hgx Hgy].
    rewrite rect_of_path_snoc, position_of_path_snoc.
    rewrite node_position_step_bits by assumption.
    rewrite child_rect_bits by assumption.
    rewrite length_app, Nat.add_comm. cbn [length Nat.add fst snd].
    unfold_rect. rewrite !plus_IZR, !mult_IZR.
    assert (H2 : (2 ^ length p <> 0)%R) by (apply pow_nonzero; lra).
    rewrite Hw, Hh in *.
    repeat split.
    + simpl. field. exact H2.
    + simpl. field. exact H2.
    + destruct (Z.testbit i 0); cbn [Z.b2z]; lra.
    + destruct (Z.testbit i 1); cbn [Z.b2z]; lra.
Qed.

(** ** Results of the error monad *)

Lemma bind_Ok {A B : Type} (m : result A) (k : A -> result B) (b : B) :
  bind m k = Ok b -> exists a, m = Ok a /\ k a = Ok b.
Proof. destruct m; simpl; intros H; try discriminate. eauto. Qed.

(** ** Shape of the tree operations *)

Lemma traverse_rec_S fuel viewport stop max_depth self :
  QuadNode.traverse_rec (S fuel) viewport stop max_depth self
  = if negb (OrientedRect.intersects_aabb viewport (QuadNode.rect self)) then
      Ok (QuadNode.set_children self None, [])
    else
      let should_stop := stop self viewport in
      let should_stop :=
        match max_depth with
        | Some m => if (m <=? QuadNode.depth self)%Z then true else should_stop
        | None => should_stop
        end in
      if should_stop then
        Ok (QuadNode.set_children self None, [QuadNode.set_children self None])
      else
        let self1 := match QuadNode.children self with
                     | None => QuadNode.subdivide self
                     | Some _ => self
                     end in
        let kids := match QuadNode.children self1 with
                    | Some k => k | None => [] end in
        rs <- QuadNode.traverse_children
                (QuadNode.traverse_rec fuel viewport stop max_depth) kids ;;
        Ok (QuadNode.set_children self1 (Some (fst rs)),
            QuadNode.set_children self1 (Some (fst rs)) :: snd rs).
Proof. reflexivity. Qed.

Lemma traverse_children_inv (trav : QuadNode.t -> result (QuadNode.t * list QuadNode.t))
      kids kids' vis :
  QuadNode.traverse_children trav kids = Ok (kids', vis) ->
  exists rs, Forall2 (fun c r => trav c = Ok r) kids rs
             /\ kids' = map fst rs /\ vis = concat (map snd rs).
Proof.
  revert kids' vis. induction kids as [|c rest IH]; intros kids' vis H.
  - injection H as <- <-. exists [].
    split; [constructor | split; reflexivity].
  - cbn [QuadNode.traverse_children] in H.
    apply bind_Ok in H. destruct H as (r & Hr & H).
    apply bind_Ok in H. destruct H as ([ks vs] & Hrest & H).
    injection H as <- <-. cbn [fst snd].
    destruct (IH _ _ Hrest) as (rs & Hall & -> & ->).
    exists (r :: rs).
    split; [constructor; assumption | split; reflexivity].
Qed.

Lemma traverse_children_total (trav : QuadNode.t -> result (QuadNode.t * list QuadNode.t))
      kids :
  (forall c, In c kids -> exists r, trav c = Ok r) ->
  exists rs, QuadNode.traverse_children trav kids = Ok rs.
Proof.
  induction kids as [|c rest IH]; intros H.
  - eexists; reflexivity.
  - destruct (H c (or_introl eq_refl)) as [r Hr].
    destruct IH as [rs Hrs]; [intros; apply H; right; assumption|].
    cbn [QuadNode.traverse_children]. rewrite Hr, Hrs. eexists; reflexivity.
Qed.

Lemma subdivide_leaf (n : QuadNode.t) :
  QuadNode.children n = None ->
  QuadNode.subdivide n
  = QuadNode.set_children n
      (Some (map (fun i => QuadNode.mk (child_rect (QuadNode.rect n) i)
                                       (QuadNode.depth n + 1)
                                       (QuadNode.path n ++ [i]) None None)
                 [0; 1; 2; 3]%Z)).
Proof. intros H. unfold QuadNode.subdivide. rewrite H. reflexivity. Qed.

Lemma subdivide_node (n : QuadNode.t) kids :
  QuadNode.children n = Some kids -> QuadNode.subdivide n = n.
Proof. intros H. unfold QuadNode.subdivide. rewrite H. reflexivity. Qed.

Lemma same_address_refl n : same_address n n.
Proof. repeat split. Qed.

Lemma same_address_set_children n c :
  same_address n (QuadNode.set_children n c).
Proof. repeat split. Qed.

Lemma subdivide_same (n : QuadNode.t) :
  same_address n (QuadNode.subdivide n)
  /\ QuadNode.stars (QuadNode.subdivide n) = QuadNode.stars n.
Proof.
  unfold QuadNode.subdivide. destruct (QuadNode.children n); repeat split.
Qed.

Lemma traverse_rec_same fuel viewport stop max_depth n n' vis :
  QuadNode.traverse_rec fuel viewport stop max_depth n = Ok (n', vis) ->
  same_address n n' /\ QuadNode.stars n' = QuadNode.stars n.
Proof.
  destruct fuel as [|fuel]; [discriminate|].
  rewrite traverse_rec_S.
  destruct (negb _); [intros H; injection H as <- <-; repeat split|].
  cbv zeta. destruct (match max_depth with Some _ => _ | None => _ end).
  - intros H; injection H as <- <-; repeat split.
  - intros H. apply bind_Ok in H. destruct H as (rs & _ & H).
    injection H as <- <-.
    destruct (QuadNode.children n); [repeat split|].
    destruct (subdivide_same n) as ((? & ? & ?) & ?). repeat split; assumption.
Qed.

Lemma stars_local_same n n' :
  same_address n n' -> QuadNode.stars_local n' = QuadNode.stars_local n.
Proof.
  intros (Hr & Hd & Hp).
  unfold QuadNode.stars_local, QuadNode.star_count, QuadNode.variation,
    QuadNode.n_expected, QuadNode.tileID, QuadNode.node_key,
    QuadNode.node_position, QuadNode.make_star.
  rewrite Hr, Hd, Hp. reflexivity.
Qed.

Lemma generate_stars_same n :
  same_address n (fst (QuadNode.generate_stars n))
  /\ QuadNode.children (fst (QuadNode.generate_stars n)) = QuadNode.children n.
Proof.
  unfold QuadNode.generate_stars. destruct (QuadNode.stars n); repeat split.
Qed.

Lemma step_same n n' : step n n' -> same_address n n'.
Proof.
  induction 1.
  - apply subdivide_same.
  - eapply traverse_rec_same; eassumption.
  - apply generate_stars_same.
  - apply same_address_set_children.
Qed.

(** ** The tree invariant *)

Lemma Forall2_nth_error_r {A B : Type} (R : A -> B -> Prop) l l' i b :
  Forall2 R l l' -> nth_error l' i = Some b ->
  exists a, nth_error l i = Some a /\ R a b.
Proof.
  intros H. revert i. induction H as [|a b' l l' Hab _ IH]; intros i Hi.
  - destruct i; discriminate.
  - destruct i as [|i]; cbn in *.
    + injection Hi as <-. eauto.
    + apply IH; assumption.
Qed.

Lemma Forall2_In_r {A B : Type} (R : A -> B -> Prop) l l' b :
  Forall2 R l l' -> In b l' -> exists a, In a l /\ R a b.
Proof.
  induction 1 as [|a b' l l' Hab _ IH]; intros Hb; [contradiction|].
  destruct Hb as [<- | Hb].
  - exists a. split; [left; reflexivity | assumption].
  - destruct (IH Hb) as (a' & Ha' & HR). exists a'. split; [right|]; assumption.
Qed.

Lemma all_nodes_here (P : QuadNode.t -> Prop) n : all_nodes P n -> P n.
Proof. destruct 1; assumption. Qed.

Lemma all_nodes_kid (P : QuadNode.t -> Prop) n kids c :
  all_nodes P n -> QuadNode.children n = Some kids -> In c kids ->
  all_nodes P c.
Proof. destruct 1 as [n _ H]; apply H. Qed.

Lemma is_child_of_same n n' i c c' :
  same_address n n' -> same_address c c' ->
  is_child_of n i c -> is_child_of n' i c'.
Proof.
  intros (Hr & Hd & Hp) (Hr' & Hd' & Hp') (H1 & H2 & H3).
  unfold is_child_of. rewrite Hr, Hd, Hp, Hr', Hd', Hp'. auto.
Qed.

Lemma cache_ok_same n n' :
  same_address n n' -> QuadNode.stars n' = QuadNode.stars n ->
  cache_ok n -> cache_ok n'.
Proof.
  intros Ha Hs. unfold cache_ok.
  rewrite Hs, (stars_local_same Ha). trivial.
Qed.

(** Replacing the children of a good node by good nodes at the same
    addresses gives a good tree. *)
Lemma all_nodes_replace_children n kids kids' :
  node_ok n -> QuadNode.children n = Some kids ->
  Forall2 (fun c c' => same_address c c' /\ all_nodes node_ok c') kids kids' ->
  all_nodes node_ok (QuadNode.set_children n (Some kids')).
Proof.
  intros [Hch Hcache] Hkids HF.
  destruct (Hch _ Hkids) as [Hlen Hnth].
  constructor.
  - split.
    + intros ks Hks. cbn in Hks. injection Hks as <-. split.
      * rewrite <- (Forall2_length HF). exact Hlen.
      * intros i c' Hi.
        destruct (Forall2_nth_error_r _ HF Hi) as (c & Hc & Hsame & _).
        eapply is_child_of_same; [apply same_address_set_children| |].
        -- exact Hsame.
        -- apply Hnth; assumption.
    + eapply cache_ok_same; [apply same_address_set_children| |]; trivial.
  - intros ks c' Hks Hin. cbn in Hks. injection Hks as <-.
    destruct (Forall2_In_r _ HF Hin) as (c & _ & _ & Hall). exact Hall.
Qed.

Lemma all_nodes_prune n :
  node_ok n -> all_nodes node_ok (QuadNode.set_children n None).
Proof.
  intros [_ Hcache]. constructor.
  - split; [intros ks Hks; discriminate|].
    eapply cache_ok_same; [apply same_address_set_children| |]; trivial.
  - intros ks c Hks; discriminate.
Qed.

Lemma all_nodes_subdivide n :
  all_nodes node_ok n -> all_nodes node_ok (QuadNode.subdivide n).
Proof.
  intros Hn. destruct (QuadNode.children n) as [kids|] eqn:Hc.
  - rewrite (subdivide_node _ Hc). exact Hn.
  - rewrite (subdivide_leaf _ Hc).
    destruct (all_nodes_here Hn) as [_ Hcache].
    constructor.
    + split.
      * intros ks Hks. cbn in Hks. injection Hks as <-. split; [reflexivity|].
        intros i c Hi.
        destruct i as [|[|[|[|i]]]]; cbn in Hi;
          try (destruct i; discriminate);
          injection Hi as <-; repeat split.
      * eapply cache_ok_same; [apply same_address_set_children| |]; trivial.
    + intros ks c Hks Hin. cbn in Hks. injection Hks as <-.
      cbn in Hin.
      destruct Hin as [<- | [<- | [<- | [<- | []]]]];
        (constructor;
         [split; [intros ? ?; discriminate | left; reflexivity]
         | intros ? ? ?; discriminate]).
Qed.

Lemma traverse_rec_all_nodes fuel viewport stop max_depth :
  forall n n' vis,
    all_nodes node_ok n ->
    QuadNode.traverse_rec fuel viewport stop max_depth n = Ok (n', vis) ->
    all_nodes node_ok n'.
Proof.
  induction fuel as [|fuel IH]; intros n n' vis Hn; [discriminate|].
  rewrite traverse_rec_S.
  destruct (negb _).
  { intros H; injection H as <- <-.
    apply all_nodes_prune, (all_nodes_here Hn). }
  cbv zeta. destruct (match max_depth with Some _ => _ | None => _ end).
  { intros H; injection H as <- <-.
    apply all_nodes_prune, (all_nodes_here Hn). }
  set (self1 := match QuadNode.children n with
                | None => QuadNode.subdivide n | Some _ => n end).
  assert (H1 : all_nodes node_ok self1).
  { subst self1. destruct (QuadNode.children n);
      [assumption | apply all_nodes_subdivide; assumption]. }
  assert (Hk : exists kids, QuadNode.children self1 = Some kids).
  { subst self1. destruct (QuadNode.children n) eqn:Hc; [eauto|].
    rewrite (subdivide_leaf _ Hc). cbn. eauto. }
  destruct Hk as [kids Hk]. rewrite Hk.
  intros H. apply bind_Ok in H. destruct H as ([ks vs] & Hrs & H).
  injection H as <- <-. cbn [fst].
  destruct (traverse_children_inv _ _ Hrs) as (rs & HF & -> & _).
  eapply all_nodes_replace_children;
    [apply (all_nodes_here H1) | exact Hk |].
  assert (Hkids : forall c, In c kids -> all_nodes node_ok c)
    by (intros c Hc; eapply all_nodes_kid; eassumption).
  clear Hk Hrs. induction HF as [|c [c' v] kids rs Hc _ IHF]; cbn.
  - constructor.
  - constructor.
    + split.
      * eapply traverse_rec_same; eassumption.
      * eapply IH; [apply Hkids; left; reflexivity | eassumption].
    + apply IHF. intros; apply Hkids; right; assumption.
Qed.

Lemma all_nodes_generate n :
  all_nodes node_ok n -> all_nodes node_ok (fst (QuadNode.generate_stars n)).
Proof.
  intros Hn. unfold QuadNode.generate_stars.
  destruct (QuadNode.stars n) eqn:Hs; [exact Hn|]. cbn [fst].
  destruct Hn as [n [Hch _] Hkids]. constructor.
  - split.
    + intros ks Hks. apply Hch in Hks. exact Hks.
    + right. cbn [QuadNode.stars QuadNode.set_stars].
      rewrite (@stars_local_same n (QuadNode.set_stars n (Some (QuadNode.stars_local n))))
        by (repeat split).
      reflexivity.
  - intros ks c Hks. apply Hkids. exact Hks.
Qed.

Lemma Forall2_diag {A : Type} (R : A -> A -> Prop) l :
  (forall x, In x l -> R x x) -> Forall2 R l l.
Proof.
  induction l as [|x l IH]; intros H; constructor.
  - apply H. left. reflexivity.
  - apply IH. intros y Hy. apply H. right. exact Hy.
Qed.

Lemma Forall2_replace_nth {A : Type} (R : A -> A -> Prop) l i a a' :
  (forall x, In x l -> R x x) -> nth_error l i = Some a -> R a a' ->
  Forall2 R l (replace_nth i a' l).
Proof.
  revert i. induction l as [|x l IH]; intros i Hrefl Hi Haa'.
  - destruct i; discriminate.
  - destruct i as [|i]; cbn in *.
    + injection Hi as ->. constructor; [assumption|].
      apply Forall2_diag. intros y Hy. apply Hrefl. right. exact Hy.
    + constructor.
      * apply Hrefl. left. reflexivity.
      * apply IH; [|assumption..]. intros y Hy. apply Hrefl. right. exact Hy.
Qed.

Lemma step_all_nodes n n' :
  step n n' -> all_nodes node_ok n -> all_nodes node_ok n'.
Proof.
  induction 1 as [n | n fuel vp stop md n' vis Ht | n | n kids i c c' Hk Hi Hs IH];
    intros Hn.
  - apply all_nodes_subdivide; assumption.
  - eapply traverse_rec_all_nodes; eassumption.
  - apply all_nodes_generate; assumption.
  - eapply all_nodes_replace_children;
      [apply (all_nodes_here Hn) | exact Hk |].
    apply Forall2_replace_nth with (a := c).
    + intros x Hx. split; [apply same_address_refl|].
      eapply all_nodes_kid; eassumption.
    + exact Hi.
    + split; [apply step_same; assumption|].
      apply IH. eapply all_nodes_kid; [eassumption..|].
      eapply nth_error_In; eassumption.
Qed.

Lemma reachable_invariant r t :
  reachable r t ->
  all_nodes node_ok t /\ same_address (fresh_root r) t.
Proof.
  induction 1 as [|n n' _ [IHok IHaddr] Hs].
  - split; [|apply same_address_refl].
    constructor; [split; [intros ? ?; discriminate | left; reflexivity]|].
    intros ? ? ?; discriminate.
  - split; [eapply step_all_nodes; eassumption|].
    destruct (step_same Hs) as (? & ? & ?).
    destruct IHaddr as (? & ? & ?). repeat split; congruence.
Qed.

(** The address of a node inside a good tree. *)
Lemma subnode_address t m :
  all_nodes node_ok t -> subnode m t ->
  node_ok m
  /\ exists q, Forall quadrant_index q
               /\ QuadNode.path m = QuadNode.path t ++ q
               /\ QuadNode.depth m = (QuadNode.depth t + Z.of_nat (length q))%Z
               /\ QuadNode.rect m = rect_of_path (QuadNode.rect t) q.
Proof.
  intros Ht Hsub. induction Hsub as [|n kids c Hk Hin Hsub IH].
  - split; [apply (all_nodes_here Ht)|].
    exists []. rewrite app_nil_r, Z.add_0_r. repeat split. constructor.
  - destruct (IH (all_nodes_kid c Ht Hk Hin)) as (Hm & q & Hq & Hp & Hd & Hr).
    split; [exact Hm|].
    destruct (all_nodes_here Ht) as [Hch _].
    destruct (Hch _ Hk) as [Hlen Hnth].
    destruct (In_nth_error _ _ Hin) as [i Hi].
    destruct (Hnth _ _ Hi) as (Hcd & Hcp & Hcr).
    assert (Hi4 : (i < 4)%nat).
    { rewrite <- Hlen. apply nth_error_Some. congruence. }
    exists (Z.of_nat i :: q). repeat split.
    + constructor; [unfold quadrant_index; lia | exact Hq].
    + rewrite Hp, Hcp, <- app_assoc. reflexivity.
    + rewrite Hd, Hcd. cbn [length]. lia.
    + rewrite Hr, Hcr. reflexivity.
Qed.

Lemma update_reachable r t viewport stop t' visited :
  reachable r (QuadTree.root t) ->
  QuadTree.update t viewport stop = Ok (t', visited) ->
  reachable r (QuadTree.root t').
Proof.
  intros Hr H. unfold QuadTree.update in H.
  apply bind_Ok in H. destruct H as (s & _ & H).
  apply bind_Ok in H. destruct H as ([n' vis] & Ht & H).
  injection H as <- _. cbn.
  unfold QuadNode.traverse in Ht.
  apply bind_Ok in Ht. destruct Ht as ([n1 v1] & Ht & H).
  injection H as <- _.
  eapply reach_step; [exact Hr | eapply step_traverse; exact Ht].
Qed.

(** What [generate_stars] hands back for a node of a reachable tree. *)
Lemma reachable_content r t m :
  reachable r t -> subnode m t ->
  snd (QuadNode.generate_stars m) = QuadNode.stars_local m.
Proof.
  intros Hr Hm.
  destruct (reachable_invariant Hr) as [Hok _].
  destruct (subnode_address Hok Hm) as [[_ Hcache] _].
  unfold QuadNode.generate_stars.
  destruct Hcache as [-> | ->]; reflexivity.
Qed.

Lemma reachable_rect r t m :
  reachable r t -> subnode m t ->
  QuadNode.rect m = rect_of_path r (QuadNode.path m)
  /\ QuadNode.depth m = Z.of_nat (length (QuadNode.path m))
  /\ Forall quadrant_index (QuadNode.path m).
Proof.
  intros Hr Hm.
  destruct (reachable_invariant Hr) as [Hok (Hrr & Hrd & Hrp)].
  destruct (subnode_address Hok Hm) as [_ (q & Hq & Hp & Hd & Hrect)].
  cbn in Hrr, Hrd, Hrp. rewrite Hrp in Hp. cbn in Hp.
  rewrite Hp, Hrect, Hd, Hrr, Hrd. auto.
Qed.

(** C9.  In every tree reached from a fresh root by subdivide, traverse
    and generate_stars calls on any of its nodes, a node whose children
    field is present has exactly four children, and the child at position
    i has depth = parent depth + 1, path = parent path followed by i, and
    the i-th quadrant of the parent's box as its box; subdivide changes
    nothing on a node that has children, and applying it twice is the
    same as applying it once. *)
Theorem tree_structure_invariant (r : Rect.t) (t m : QuadNode.t) :
  reachable r t -> subnode m t ->
  (forall kids, QuadNode.children m = Some kids ->
     length kids = 4%nat
     /\ forall i c, nth_error kids i = Some c ->
          (i < 4)%nat
          /\ QuadNode.depth c = (QuadNode.depth m + 1)%Z
          /\ QuadNode.path c = QuadNode.path m ++ [Z.of_nat i]
          /\ nth_error (Rect.quadrants (QuadNode.rect m)) i
             = Some (QuadNode.rect c))
  /\ (forall kids, QuadNode.children m = Some kids -> QuadNode.subdivide m = m)
  /\ QuadNode.subdivide (QuadNode.subdivide m) = QuadNode.subdivide m.
Proof.
  intros Hr Hm.
  destruct (reachable_invariant Hr) as [Hok _].
  destruct (subnode_address Hok Hm) as [[Hch _] _].
  split; [|split].
  - intros kids Hk. destruct (Hch _ Hk) as [Hlen Hnth]. split; [exact Hlen|].
    intros i c Hi.
    assert (Hi4 : (i < 4)%nat).
    { rewrite <- Hlen. apply nth_error_Some. congruence. }
    destruct (Hnth _ _ Hi) as (Hd & Hp & Hrc).
    repeat split; try assumption.
    rewrite Hrc. unfold child_rect. rewrite Nat2Z.id.
    apply nth_error_nth'. cbn. exact Hi4.
  - intros kids Hk. exact (subdivide_node _ Hk).
  - destruct (QuadNode.children m) as [kids|] eqn:Hk.
    + rewrite (subdivide_node _ Hk). exact (subdivide_node _ Hk).
    + rewrite (subdivide_leaf _ Hk). reflexivity.
Qed.

Lemma tree_structure_invariant_witness :
  let r := Rect.mk 0 0 512 512 in
  let t := QuadNode.subdivide (fresh_root r) in
  QuadNode.subdivide (QuadNode.subdivide t) = QuadNode.subdivide t.
Proof.
  intros r t.
  apply (tree_structure_invariant (r := r) (t := t) (m := t)).
  - apply reach_step with (n := fresh_root r);
      [apply reach_fresh | apply step_subdivide].
  - apply sub_here.
Defined.

(** C1.  With the world seed fixed, the star list a node hands out depends
    on its depth and path only: in any two trees grown from a root with
    the same box (in particular the same tree before and after pruning
    and re-subdividing), two nodes with equal depth and equal path return
    the same list of stars, with the same identifiers, positions and
    brightness values in the same order. *)
Theorem star_content_deterministic (r : Rect.t) (t1 t2 n1 n2 : QuadNode.t) :
  reachable r t1 -> reachable r t2 ->
  subnode n1 t1 -> subnode n2 t2 ->
  QuadNode.depth n1 = QuadNode.depth n2 ->
  QuadNode.path n1 = QuadNode.path n2 ->
  snd (QuadNode.generate_stars n1) = snd (QuadNode.generate_stars n2).
Proof.
  intros H1 H2 S1 S2 Hd Hp.
  rewrite (reachable_content H1 S1), (reachable_content H2 S2).
  apply stars_local_same. repeat split; try congruence.
  destruct (reachable_rect H1 S1) as [-> _].
  destruct (reachable_rect H2 S2) as [-> _].
  rewrite Hp. reflexivity.
Qed.

Lemma star_content_deterministic_witness :
  let r := Rect.mk 0 0 512 512 in
  let c := QuadNode.mk (child_rect r 0) 1 [0%Z] None None in
  snd (QuadNode.generate_stars (fst (QuadNode.generate_stars c)))
  = snd (QuadNode.generate_stars c).
Proof.
  intros r c.
  set (t0 := QuadNode.subdivide (fresh_root r)).
  set (kids := map (fun i => QuadNode.mk (child_rect r i) 1 [i] None None)
                   [0; 1; 2; 3]%Z).
  set (t1 := QuadNode.set_children t0
               (Some (replace_nth 0 (fst (QuadNode.generate_stars c)) kids))).
  set (t2 := QuadNode.subdivide (QuadNode.set_children t1 None)).
  assert (R0 : reachable r t0)
    by (eapply reach_step; [apply reach_fresh | apply step_subdivide]).
  assert (R1 : reachable r t1).
  { eapply reach_step; [exact R0|].
    apply step_child with (c := c); [reflexivity | reflexivity |].
    apply step_generate. }
  assert (R2 : reachable r t2).
  { eapply reach_step; [|apply step_subdivide].
    eapply reach_step; [exact R1|].
    apply step_traverse
      with (fuel := 1%nat) (viewport := OrientedRect.mk 0 0 1 1 0)
           (stop := fun _ _ => true) (max_depth := None)
           (visited := if negb (OrientedRect.intersects_aabb
                                  (OrientedRect.mk 0 0 1 1 0) (QuadNode.rect t1))
                       then [] else [QuadNode.set_children t1 None]).
    rewrite traverse_rec_S. destruct (negb _); reflexivity. }
  apply (star_content_deterministic
           (r := r) (t1 := t1) (t2 := t2)
           (n1 := fst (QuadNode.generate_stars c)) (n2 := c)).
  - exact R1.
  - exact R2.
  - eapply sub_child; [reflexivity | left; reflexivity | apply sub_here].
  - eapply sub_child; [reflexivity | left; reflexivity | apply sub_here].
  - reflexivity.
  - reflexivity.
Defined.

(** ** Star counts *)

Lemma Int_part_nonneg (x : R) : (0 <= x)%R -> (0 <= Int_part x)%Z.
Proof.
  intros Hx. destruct (base_Int_part x) as [_ H].
  assert (H1 : (-1 < IZR (Int_part x))%R) by lra.
  apply lt_IZR in H1. lia.
Qed.

Lemma Rtrunc_abs (x : R) : (Rabs (IZR (Rtrunc x)) <= Rabs x)%R.
Proof.
  unfold Rtrunc. destruct (Rle_dec 0 x) as [Hx|Hx].
  - destruct (base_Int_part x) as [H1 _].
    pose proof (IZR_le _ _ (Int_part_nonneg Hx)) as H0.
    rewrite !Rabs_pos_eq by lra. exact H1.
  - assert (Hx' : (0 <= - x)%R) by lra.
    destruct (base_Int_part (- x)) as [H1 _].
    pose proof (IZR_le _ _ (Int_part_nonneg Hx')) as H0.
    rewrite opp_IZR, Rabs_Ropp, Rabs_pos_eq by lra.
    rewrite <- (Rabs_Ropp x), (Rabs_pos_eq (- x)) by lra. exact H1.
Qed.

Lemma Rtrunc_small (x : R) : (Rabs x < 1)%R -> Rtrunc x = 0%Z.
Proof.
  intros Hx. pose proof (Rtrunc_abs x) as H.
  assert (H1 : (Rabs (IZR (Rtrunc x)) < 1)%R) by lra.
  rewrite <- abs_IZR in H1. apply lt_IZR in H1. lia.
Qed.

Lemma u01_bits_range seed tag :
  (0 <= myrand.u01_bits seed tag < 2 ^ 53)%Z.
Proof.
  unfold myrand.u01_bits. cbv zeta.
  change (Z.shiftl 1 53 - 1)%Z with (Z.ones 53).
  rewrite Z.land_ones by lia. apply Z.mod_pos_bound. lia.
Qed.

Lemma u01_range seed tag : (0 <= myrand.u01 seed tag < 1)%R.
Proof.
  unfold myrand.u01. destruct (u01_bits_range seed tag) as [H0 H1].
  apply IZR_le in H0. apply IZR_lt in H1.
  change (Z.shiftl 1 53) with (2 ^ 53)%Z.
  assert (Hp : (0 < IZR (2 ^ 53))%R) by (apply IZR_lt; lia).
  split.
  - apply Rmult_le_pos; [exact H0 | left; apply Rinv_0_lt_compat; exact Hp].
  - apply Rmult_lt_reg_r with (r := IZR (2 ^ 53)); [exact Hp|].
    unfold Rdiv. rewrite Rmult_assoc, Rinv_l by lra. lra.
Qed.

Lemma n_expected_nonneg n : (0 <= QuadNode.n_expected n)%Z.
Proof.
  unfold QuadNode.n_expected.
  destruct (Z_lt_le_dec (QuadNode.depth n) 0) as [Hd|Hd].
  - rewrite (Z.pow_neg_r 4) by exact Hd. rewrite Z.div_0_r. lia.
  - apply Z.div_pos; [apply Z.pow_nonneg; lia | apply Z.pow_pos_nonneg; lia].
Qed.

Lemma variation_bound n :
  (Rabs (IZR (QuadNode.variation n)) <= 0.15 * IZR (QuadNode.n_expected n))%R.
Proof.
  unfold QuadNode.variation.
  eapply Rle_trans; [apply Rtrunc_abs|].
  pose proof (u01_range (QuadNode.tileID n) 0xFADECAFE%Z) as Hu.
  pose proof (IZR_le _ _ (n_expected_nonneg n)) as Hn.
  set (u := myrand.u01 _ _) in *.
  set (ne := IZR (QuadNode.n_expected n)) in *.
  assert (H1 : ((u - 0.5) * ne <= 0.5 * ne)%R)
    by (apply Rmult_le_compat_r; lra).
  assert (H2 : (- 0.5 * ne <= (u - 0.5) * ne)%R)
    by (apply Rmult_le_compat_r; lra).
  unfold Rabs. destruct (Rcase_abs _); lra.
Qed.

Lemma range_length n : length (range n) = Z.to_nat n.
Proof. unfold range. rewrite length_map, length_seq. reflexivity. Qed.

Lemma nth_error_range n (j : nat) :
  (j < Z.to_nat n)%nat -> nth_error (range n) j = Some (Z.of_nat j).
Proof.
  intros Hj. unfold range. rewrite nth_error_map.
  rewrite nth_error_seq. 
  destruct (Nat.ltb_spec j (Z.to_nat n)); [reflexivity | lia].
Qed.

Lemma stars_local_length n :
  length (QuadNode.stars_local n) = Z.to_nat (QuadNode.star_count n).
Proof. unfold QuadNode.stars_local. rewrite length_map. apply range_length. Qed.

Lemma star_count_pos n : (1 <= QuadNode.star_count n)%Z.
Proof. unfold QuadNode.star_count. lia. Qed.

(** C3 (amended).  For every node of a reachable tree the number of stars
    is computed from n_expected = floor(5^depth / 4^depth) (the quotient
    is truncated, not rounded to nearest), perturbed by
    variation = trunc((uniform01(tile_id, 0xFADECAFE) - 0.5) * n_expected * 0.3),
    which is at most 15% of n_expected in absolute value, and the sum is
    clamped to at least 1; the content sequence has exactly that many
    stars and is never empty. *)
Theorem star_count_law (r : Rect.t) (t m : QuadNode.t) :
  reachable r t -> subnode m t ->
  let d := QuadNode.depth m in
  let ne := QuadNode.n_expected m in
  let stars := snd (QuadNode.generate_stars m) in
  (4 ^ d * ne <= 5 ^ d < 4 ^ d * (ne + 1))%Z
  /\ QuadNode.variation m
     = Rtrunc ((myrand.u01 (QuadNode.tileID m) 0xFADECAFE%Z - 0.5)
               * IZR ne * 0.3)%R
  /\ (Rabs (IZR (QuadNode.variation m)) <= 0.15 * IZR ne)%R
  /\ length stars = Z.to_nat (Z.max 1 (ne + QuadNode.variation m))
  /\ stars <> [].
Proof.
  intros Hr Hm d ne stars.
  destruct (reachable_rect Hr Hm) as (_ & Hd & _).
  assert (Hd0 : (0 <= d)%Z) by (subst d; lia).
  assert (H4 : (0 < 4 ^ d)%Z) by (apply Z.pow_pos_nonneg; lia).
  assert (Hlen : length stars = Z.to_nat (QuadNode.star_count m)).
  { subst stars. rewrite (reachable_content Hr Hm). apply stars_local_length. }
  split; [|split; [|split; [|split]]].
  - subst ne. unfold QuadNode.n_expected. fold d. split.
    + apply Z.mul_div_le. exact H4.
    + rewrite Z.add_1_r. apply Z.mul_succ_div_gt. exact H4.
  - reflexivity.
  - apply variation_bound.
  - exact Hlen.
  - intros Hnil. rewrite Hnil in Hlen. cbn in Hlen.
    pose proof (star_count_pos m). lia.
Qed.

Lemma star_count_law_witness :
  let m := fresh_root (Rect.mk 0 0 512 512) in
  snd (QuadNode.generate_stars m) <> [].
Proof.
  intros m.
  apply (star_count_law (r := Rect.mk 0 0 512 512) (t := m) (m := m)).
  - apply reach_fresh.
  - apply sub_here.
Defined.

(** C3 as worded fails at depth 2: 5^2 / 4^2 = 1.5625 is truncated to 1 by
    the code and rounds to 2, so every depth-2 node has one star where the
    rounded law gives two. *)
Lemma star_count_rounding_counterexample :
  let n := QuadNode.mk (rect_of_path (Rect.mk 0 0 512 512) [0; 0]%Z) 2
                       [0; 0]%Z None None in
  QuadNode.n_expected n = 1%Z
  /\ Claimed.n_expected_rounded (QuadNode.depth n) = 2%Z
  /\ length (snd (QuadNode.generate_stars n)) = 1%nat
  /\ Z.to_nat (Claimed.star_count_rounded n) = 2%nat.
Proof.
  intros n.
  assert (Hne : QuadNode.n_expected n = 1%Z) by reflexivity.
  split; [exact Hne|]. split; [reflexivity|]. split.
  - change (snd (QuadNode.generate_stars n)) with (QuadNode.stars_local n).
    rewrite stars_local_length. unfold QuadNode.star_count.
    pose proof (variation_bound n) as Hv. rewrite Hne in Hv.
    assert (H1 : (Rabs (IZR (QuadNode.variation n)) < 1)%R) by lra.
    rewrite <- abs_IZR in H1. apply lt_IZR in H1.
    rewrite Hne. lia.
  - unfold Claimed.star_count_rounded.
    change (Claimed.n_expected_rounded (QuadNode.depth n)) with 2%Z.
    cbv zeta. rewrite Rtrunc_small; [reflexivity|].
    pose proof (u01_range (QuadNode.tileID n) 0xFADECAFE%Z) as Hu.
    set (u := myrand.u01 _ _) in *.
    unfold Rabs. destruct (Rcase_abs _); lra.
Qed.

(** C10.  For every node of a reachable tree and every index j with 2j in
    range, the brightness of star 2j is uniform01(tile_id, 2j), the very
    draw that places the x coordinate of star j: the x position of star j
    is center_x + (brightness(star 2j) - 0.5) * width. *)
Theorem brightness_position_tag_collision
        (r : Rect.t) (t m : QuadNode.t) (j : nat) :
  reachable r t -> subnode m t ->
  let stars := snd (QuadNode.generate_stars m) in
  (2 * j < length stars)%nat ->
  exists sj s2j,
    nth_error stars j = Some sj
    /\ nth_error stars (2 * j) = Some s2j
    /\ brightness s2j = myrand.u01 (QuadNode.tileID m) (Z.of_nat (2 * j))
    /\ brightness sj = myrand.u01 (QuadNode.tileID m) (Z.of_nat j)
    /\ star_x sj = (Rect.cx (QuadNode.rect m)
                    + (brightness s2j - 0.5) * Rect.w (QuadNode.rect m))%R.
Proof.
  intros Hr Hm stars. subst stars.
  rewrite (reachable_content Hr Hm), stars_local_length.
  intros Hj. unfold QuadNode.stars_local. cbv zeta.
  rewrite !nth_error_map, !nth_error_range by lia. cbn [option_map].
  do 2 eexists. split; [reflexivity|]. split; [reflexivity|].
  cbn [brightness star_x position fst QuadNode.make_star].
  rewrite Nat2Z.inj_mul. repeat split.
Qed.

Lemma brightness_position_tag_collision_witness :
  let m := fresh_root (Rect.mk 0 0 512 512) in
  let stars := snd (QuadNode.generate_stars m) in
  exists s0,
    nth_error stars 0 = Some s0
    /\ star_x s0 = (0 + (brightness s0 - 0.5) * 1024)%R.
Proof.
  intros m stars.
  destruct (brightness_position_tag_collision
              (r := Rect.mk 0 0 512 512) (t := m) (m := m) 0)
    as (sj & s2j & H1 & H2 & _ & _ & H5).
  - apply reach_fresh.
  - apply sub_here.
  - change (snd (QuadNode.generate_stars m)) with (QuadNode.stars_local m).
    rewrite stars_local_length. pose proof (star_count_pos m). lia.
  - exists sj. split; [exact H1|].
    fold stars in H1, H2. cbn [Nat.mul Nat.add] in H2.
    assert (E : sj = s2j) by congruence. subst s2j.
    rewrite H5. unfold Rect.w, m, fresh_root.
    cbn [QuadNode.rect Rect.cx Rect.hw]. lra.
Defined.

(** ** Construction *)

(** C4 (amended).  Constructing a quad tree never fails and validates
    nothing: [from_center] and the record constructor store the values
    they are given unchanged, whatever they are. *)
Theorem construction_stores_any_configuration
        (cx cy hw hh : R) (cells mn mx : Z) (root : QuadNode.t) :
  QuadTree.root (QuadTree.from_center cx cy hw hh cells)
  = fresh_root (Rect.mk cx cy hw hh)
  /\ QuadTree.cells_across (QuadTree.from_center cx cy hw hh cells) = cells
  /\ QuadTree.min_depth (QuadTree.from_center cx cy hw hh cells) = 0%Z
  /\ QuadTree.max_depth (QuadTree.from_center cx cy hw hh cells) = 20%Z
  /\ QuadTree.root (QuadTree.mk root cells mn mx) = root
  /\ QuadTree.cells_across (QuadTree.mk root cells mn mx) = cells
  /\ QuadTree.min_depth (QuadTree.mk root cells mn mx) = mn
  /\ QuadTree.max_depth (QuadTree.mk root cells mn mx) = mx.
Proof. repeat split. Qed.

(** C4 as worded fails: trees with non-positive half-extents, with a
    non-positive cells_across and with max_depth < min_depth are built. *)
Lemma config_validation_counterexample :
  let t1 := QuadTree.from_center 0 0 (-1) 0 0 in
  let t2 := QuadTree.mk (fresh_root (Rect.mk 0 0 512 512)) 4 5 3 in
  (Rect.hw (QuadNode.rect (QuadTree.root t1)) <= 0)%R
  /\ (Rect.hh (QuadNode.rect (QuadTree.root t1)) <= 0)%R
  /\ (QuadTree.cells_across t1 <= 0)%Z
  /\ (QuadTree.max_depth t2 < QuadTree.min_depth t2)%Z
  /\ ~ valid_config t1 /\ ~ valid_config t2.
Proof.
  cbn. repeat split; try lra; try lia.
  - unfold valid_config; cbn. lra.
  - unfold valid_config; cbn. lia.
Qed.

(** C5.  The four quadrants of a box with positive half-extents tile it:
    their union is the box, their interiors are pairwise disjoint, their
    areas add up to its area and each has half its half-extents.  They are
    listed NW, NE, SW, SE: bit 0 of the index gives the sign of the x
    offset (set = east) and bit 1 the sign of the y offset (set = south),
    which is the decoding [node_position] applies to a path, so that the
    grid position of a node locates its box inside the root box. *)
Theorem quadrants_partition (B : Rect.t) :
  (0 < Rect.hw B)%R -> (0 < Rect.hh B)%R ->
  length (Rect.quadrants B) = 4%nat
  /\ (forall x y, in_box B x y
                  <-> exists q, In q (Rect.quadrants B) /\ in_box q x y)
  /\ (forall i j qi qj x y,
        nth_error (Rect.quadrants B) i = Some qi ->
        nth_error (Rect.quadrants B) j = Some qj ->
        i <> j -> ~ (in_interior qi x y /\ in_interior qj x y))
  /\ fold_right Rplus 0%R (map area (Rect.quadrants B)) = area B
  /\ (forall q, In q (Rect.quadrants B) ->
        Rect.hw q = (Rect.hw B / 2)%R /\ Rect.hh q = (Rect.hh B / 2)%R)
  /\ (forall i, quadrant_index i ->
        nth_error (Rect.quadrants B) (Z.to_nat i)
        = Some (Rect.mk
                  (Rect.cx B + (if Z.testbit i 0 then 1 else -1) * (Rect.hw B / 2))
                  (Rect.cy B + (if Z.testbit i 1 then -1 else 1) * (Rect.hh B / 2))
                  (Rect.hw B / 2) (Rect.hh B / 2)))
  /\ (forall p i, Forall quadrant_index p -> quadrant_index i ->
        QuadNode.position_of_path (p ++ [i])
        = ((2 * fst (QuadNode.position_of_path p) + Z.b2z (Z.testbit i 0))%Z,
           (2 * snd (QuadNode.position_of_path p) + Z.b2z (Z.testbit i 1))%Z))
  /\ (forall p, Forall quadrant_index p ->
        let c := rect_of_path B p in
        let xy := QuadNode.position_of_path p in
        (Rect.xmin c = Rect.xmin B + IZR (fst xy) * Rect.w c
         /\ Rect.ymax c = Rect.ymax B - IZR (snd xy) * Rect.h c)%R).
Proof.
  intros Hw Hh.
  split; [reflexivity|].
  split; [intros x y; apply quadrants_cover; assumption|].
  split; [intros i j qi qj x y; apply quadrants_disjoint; assumption|].
  split; [apply quadrants_area|].
  split; [apply quadrants_half|].
  split.
  { intros i Hi. rewrite <- (child_rect_bits B Hi). unfold child_rect.
    apply nth_error_nth'. cbn [length Rect.quadrants].
    unfold quadrant_index in Hi. lia. }
  split.
  { intros p i Hp Hi. destruct (position_of_path_nonneg Hp).
    rewrite position_of_path_snoc. apply node_position_step_bits; assumption. }
  intros p Hp. destruct (rect_of_path_grid B Hp) as (_ & _ & Hx & Hy).
  split; assumption.
Qed.

Lemma quadrants_partition_witness :
  let B := Rect.mk 0 0 512 512 in
  fold_right Rplus 0%R (map area (Rect.quadrants B)) = area B.
Proof.
  intros B.
  apply (@quadrants_partition B); unfold B; cbn [Rect.hw Rect.hh]; lra.
Defined.

Lemma sat_degenerate_agrees_with_aabb_witness :
  let o := OrientedRect.mk 10 96 90 160 0 in
  let a := Rect.mk 0 0 512 512 in
  OrientedRect.intersects_aabb o a = Plain.aabb_overlap a (Plain.unrotated o)
  /\ OrientedRect.contains_aabb o a = Plain.aabb_contains (Plain.unrotated o) a.
Proof.
  intros o a.
  apply (@sat_degenerate_agrees_with_aabb o a). reflexivity.
Defined.

(** ** Target depth *)

Lemma up_monotone (x y : R) : (x <= y)%R -> (up x <= up y)%Z.
Proof.
  intros Hxy.
  destruct (archimed x) as [_ Hx]. destruct (archimed y) as [Hy _].
  assert (H : (IZR (up x) < IZR (up y) + 1)%R) by lra.
  rewrite <- plus_IZR in H. apply lt_IZR in H. lia.
Qed.

Lemma Rceil_monotone (x y : R) : (x <= y)%R -> (Rceil x <= Rceil y)%Z.
Proof.
  intros Hxy. unfold Rceil.
  assert (H : (up (- y) <= up (- x))%Z) by (apply up_monotone; lra).
  lia.
Qed.

(** [Rceil x] is the least integer not below [x]. *)
Lemma Rceil_spec (x : R) (k : Z) :
  (IZR k - 1 < x <= IZR k)%R -> Rceil x = k.
Proof.
  intros [H1 H2]. unfold Rceil.
  destruct (archimed (- x)) as [Ha Hb].
  assert (Hu1 : (IZR (- k) < IZR (up (- x)))%R) by (rewrite opp_IZR; lra).
  assert (Hu2 : (IZR (up (- x)) < IZR (- k + 2))%R)
    by (rewrite plus_IZR, opp_IZR; lra).
  apply lt_IZR in Hu1. apply lt_IZR in Hu2. lia.
Qed.

Lemma ln_2_pos : (0 < ln 2)%R.
Proof. rewrite <- ln_1. apply ln_increasing; lra. Qed.

Lemma log2_monotone (x y : R) : (0 < x)%R -> (x <= y)%R -> (log2 x <= log2 y)%R.
Proof.
  intros Hx Hxy. unfold log2.
  apply Rmult_le_compat_r; [left; apply Rinv_0_lt_compat, ln_2_pos|].
  destruct Hxy as [Hlt | ->]; [left; apply ln_increasing; assumption | right; reflexivity].
Qed.

Lemma log2_pow (k : nat) : log2 (2 ^ k) = INR k.
Proof.
  unfold log2. rewrite ln_pow by lra. field.
  apply Rgt_not_eq, ln_2_pos.
Qed.

Lemma denominator_pos (v : OrientedRect.t) :
  (0 < Rmax (1 / 10 ^ 9)
            (Rmin (OrientedRect.hw v) (OrientedRect.hh v) * 2))%R.
Proof.
  eapply Rlt_le_trans; [|apply Rmax_l].
  apply Rdiv_lt_0_compat; [lra | apply pow_lt; lra].
Qed.

Lemma ratio_pos (t : QuadTree.t) (v : OrientedRect.t) :
  valid_config t -> (0 < QuadTree.ratio t v)%R.
Proof.
  intros (Hw & Hh & Hc & _). unfold QuadTree.ratio. cbv zeta.
  apply Rdiv_lt_0_compat; [|apply denominator_pos].
  apply Rmult_lt_0_compat; [|apply IZR_lt; exact Hc].
  eapply Rlt_le_trans; [|apply Rmax_l]. unfold Rect.w. lra.
Qed.

Lemma ratio_antitone (t : QuadTree.t) (a b : OrientedRect.t) :
  valid_config t ->
  (Rmin (OrientedRect.hw a) (OrientedRect.hh a)
   <= Rmin (OrientedRect.hw b) (OrientedRect.hh b))%R ->
  (QuadTree.ratio t b <= QuadTree.ratio t a)%R.
Proof.
  intros (Hw & Hh & Hc & _) Hab. unfold QuadTree.ratio. cbv zeta.
  apply Rmult_le_compat_l.
  - apply Rmult_le_pos; [|left; apply IZR_lt; exact Hc].
    eapply Rle_trans; [|apply Rmax_l]. unfold Rect.w. lra.
  - apply Rinv_le_contravar; [apply denominator_pos|].
    apply Rle_max_compat_l. lra.
Qed.

Lemma desired_depth_defined (t : QuadTree.t) (v : OrientedRect.t) :
  valid_config t ->
  QuadTree.desired_depth t v
  = Ok (Z.max (QuadTree.min_depth t)
              (Z.min (QuadTree.max_depth t)
                     (Rceil (log2 (QuadTree.ratio t v))))).
Proof.
  intros Hv. unfold QuadTree.desired_depth, QuadTree.pseudo_depth. cbv zeta.
  destruct (Rlt_dec 0 (QuadTree.ratio t v)) as [_|Hn]; [reflexivity|].
  exfalso. apply Hn, ratio_pos, Hv.
Qed.

(** C7.  For a tree with a valid configuration the target depth is
    defined for every viewport and lies between min_depth and max_depth;
    and when the smaller half-extent of viewport A is at most that of
    viewport B, the target depth for A is at least the one for B. *)
Theorem target_depth_monotone_and_clamped
        (t : QuadTree.t) (A B : OrientedRect.t) :
  valid_config t ->
  exists dA dB,
    QuadTree.desired_depth t A = Ok dA
    /\ QuadTree.desired_depth t B = Ok dB
    /\ (QuadTree.min_depth t <= dA <= QuadTree.max_depth t)%Z
    /\ (QuadTree.min_depth t <= dB <= QuadTree.max_depth t)%Z
    /\ ((Rmin (OrientedRect.hw A) (OrientedRect.hh A)
         <= Rmin (OrientedRect.hw B) (OrientedRect.hh B))%R ->
        (dB <= dA)%Z).
Proof.
  intros Hv. do 2 eexists.
  split; [apply desired_depth_defined; exact Hv|].
  split; [apply desired_depth_defined; exact Hv|].
  destruct Hv as (Hw & Hh & Hc & Hmin & Hmax).
  split; [lia|]. split; [lia|].
  intros Hab.
  assert (Hle : (Rceil (log2 (QuadTree.ratio t B))
                 <= Rceil (log2 (QuadTree.ratio t A)))%Z).
  { apply Rceil_monotone, log2_monotone.
    - apply ratio_pos. repeat split; assumption.
    - apply ratio_antitone; [repeat split; assumption | exact Hab]. }
  lia.
Qed.

Lemma target_depth_monotone_and_clamped_witness :
  let t := QuadTree.from_center 0 0 512 512 4 in
  let A := OrientedRect.mk 10 96 45 80 (PI / 6) in
  let B := OrientedRect.mk 10 96 90 160 (PI / 6) in
  exists dA dB,
    QuadTree.desired_depth t A = Ok dA
    /\ QuadTree.desired_depth t B = Ok dB
    /\ (QuadTree.min_depth t <= dA <= QuadTree.max_depth t)%Z
    /\ (QuadTree.min_depth t <= dB <= QuadTree.max_depth t)%Z
    /\ ((Rmin (OrientedRect.hw A) (OrientedRect.hh A)
         <= Rmin (OrientedRect.hw B) (OrientedRect.hh B))%R ->
        (dB <= dA)%Z).
Proof.
  intros t A B.
  apply (@target_depth_monotone_and_clamped t A B).
  unfold valid_config, t. cbn. repeat split; try lra; lia.
Defined.

(** ** Pruning *)

Lemma overlap_false_right (a b c d : R) :
  (b < c)%R -> OrientedRect.overlap (a, b) (c, d) = false.
Proof.
  intros H. unfold OrientedRect.overlap; cbn [fst snd].
  apply negb_false_iff, orb_true_iff. left. apply Rltb_true. exact H.
Qed.

Lemma overlap_false_left (a b c d : R) :
  (d < a)%R -> OrientedRect.overlap (a, b) (c, d) = false.
Proof.
  intros H. unfold OrientedRect.overlap; cbn [fst snd].
  apply negb_false_iff, orb_true_iff. right. apply Rltb_true. exact H.
Qed.

Lemma proj_obb_world_x (v : OrientedRect.t) :
  let c := cos (OrientedRect.theta_rad v) in
  let s := sin (OrientedRect.theta_rad v) in
  let ex := (OrientedRect.hw v * Rabs c + OrientedRect.hh v * Rabs s)%R in
  OrientedRect.proj_obb (c, s) (- s, c)%R (1, 0)%R v
  = (OrientedRect.cx v - ex, OrientedRect.cx v + ex)%R.
Proof.
  intros c s ex. unfold OrientedRect.proj_obb, OrientedRect.dot.
  replace (c * 1 + s * 0)%R with c by ring.
  replace (- s * 1 + c * 0)%R with (- s)%R by ring.
  rewrite Rabs_Ropp. subst ex. f_equal; ring.
Qed.

(** A viewport whose extent along the x axis lies strictly right of the
    box, or strictly left of it, does not intersect it. *)
Lemma strictly_beside_no_intersection (v : OrientedRect.t) (r : Rect.t) :
  let ex := (OrientedRect.hw v * Rabs (cos (OrientedRect.theta_rad v))
             + OrientedRect.hh v * Rabs (sin (OrientedRect.theta_rad v)))%R in
  (Rect.xmax r < OrientedRect.cx v - ex
   \/ OrientedRect.cx v + ex < Rect.xmin r)%R ->
  OrientedRect.intersects_aabb v r = false.
Proof.
  intros ex H. unfold OrientedRect.intersects_aabb, OrientedRect.axes.
  cbn [forallb]. rewrite proj_aabb_x, proj_obb_world_x. fold ex.
  destruct H as [H | H].
  - rewrite (overlap_false_right _ _ H). reflexivity.
  - rewrite (overlap_false_left _ _ H). reflexivity.
Qed.

Lemma proj_obb_world_y (v : OrientedRect.t) :
  let c := cos (OrientedRect.theta_rad v) in
  let s := sin (OrientedRect.theta_rad v) in
  let ey := (OrientedRect.hw v * Rabs s + OrientedRect.hh v * Rabs c)%R in
  OrientedRect.proj_obb (c, s) (- s, c)%R (0, 1)%R v
  = (OrientedRect.cy v - ey, OrientedRect.cy v + ey)%R.
Proof.
  intros c s ey. unfold OrientedRect.proj_obb, OrientedRect.dot.
  replace (c * 0 + s * 1)%R with s by ring.
  replace (- s * 0 + c * 1)%R with c by ring.
  subst ey. f_equal; ring.
Qed.

(** The same above and below the box. *)
Lemma strictly_above_below_no_intersection (v : OrientedRect.t) (r : Rect.t) :
  let ey := (OrientedRect.hw v * Rabs (sin (OrientedRect.theta_rad v))
             + OrientedRect.hh v * Rabs (cos (OrientedRect.theta_rad v)))%R in
  (Rect.ymax r < OrientedRect.cy v - ey
   \/ OrientedRect.cy v + ey < Rect.ymin r)%R ->
  OrientedRect.intersects_aabb v r = false.
Proof.
  intros ey H. unfold OrientedRect.intersects_aabb, OrientedRect.axes.
  cbn [forallb]. rewrite proj_aabb_y, proj_obb_world_y. fold ey.
  destruct H as [H | H].
  - rewrite (overlap_false_right _ _ H). apply andb_false_r.
  - rewrite (overlap_false_left _ _ H). apply andb_false_r.
Qed.

Lemma traverse_rec_prune fuel viewport stop max_depth n :
  OrientedRect.intersects_aabb viewport (QuadNode.rect n) = false ->
  QuadNode.traverse_rec (S fuel) viewport stop max_depth n
  = Ok (QuadNode.set_children n None, []).
Proof. intros H. rewrite traverse_rec_S, H. reflexivity. Qed.

Lemma default_stop_defined (t : QuadTree.t) (v : OrientedRect.t) :
  valid_config t ->
  exists d,
    QuadTree.desired_depth t v = Ok d
    /\ QuadTree.default_stop_predicate t v
       = Ok (fun node _ => (d <=? QuadNode.depth node)%Z
                           || (QuadTree.max_depth t <=? QuadNode.depth node)%Z).
Proof.
  intros Hv. eexists. split; [apply desired_depth_defined; exact Hv|].
  unfold QuadTree.default_stop_predicate.
  rewrite (desired_depth_defined _ Hv). reflexivity.
Qed.

(** C8.  When the viewport does not intersect the box of the root, a query
    returns the empty visited list and leaves the root without children,
    whatever children it had; the rest of the tree record is unchanged.
    With the default stop predicate this is for a valid configuration,
    for which the target depth is defined; with a stop predicate supplied
    by the caller it is for every tree. *)
Theorem disjoint_viewport_prunes_root
        (t : QuadTree.t) (viewport : OrientedRect.t)
        (stop : option QuadNode.StopPredicate) :
  OrientedRect.intersects_aabb viewport (QuadNode.rect (QuadTree.root t)) = false ->
  (stop = None -> valid_config t) ->
  exists t',
    QuadTree.update t viewport stop = Ok (t', [])
    /\ QuadNode.children (QuadTree.root t') = None
    /\ QuadNode.is_leaf (QuadTree.root t') = true
    /\ t' = QuadTree.set_root t (QuadNode.set_children (QuadTree.root t) None).
Proof.
  intros Hdis Hcfg.
  exists (QuadTree.set_root t (QuadNode.set_children (QuadTree.root t) None)).
  split; [|repeat split].
  unfold QuadTree.update.
  assert (Hs : exists s, match stop with
                         | None => QuadTree.default_stop_predicate t viewport
                         | Some s => Ok s
                         end = Ok s).
  { destruct stop as [s|]; [eauto|].
    destruct (default_stop_defined viewport (Hcfg eq_refl)) as (d & _ & ->).
    eauto. }
  destruct Hs as [s ->]. cbn [bind].
  unfold QuadNode.traverse, QuadTree.update_fuel.
  rewrite traverse_rec_prune by exact Hdis. reflexivity.
Qed.

Lemma disjoint_viewport_prunes_root_witness :
  let t := QuadTree.mk (QuadNode.subdivide (fresh_root (Rect.mk 0 0 512 512)))
                       4 0 20 in
  let viewport := OrientedRect.mk 2000 0 90 160 0 in
  exists t',
    QuadTree.update t viewport None = Ok (t', [])
    /\ QuadNode.children (QuadTree.root t') = None
    /\ QuadNode.is_leaf (QuadTree.root t') = true
    /\ t' = QuadTree.set_root t (QuadNode.set_children (QuadTree.root t) None).
Proof.
  intros t viewport.
  apply (@disjoint_viewport_prunes_root t viewport None).
  - apply strictly_beside_no_intersection. left.
    unfold viewport, t, Rect.xmax.
    cbn [OrientedRect.theta_rad OrientedRect.cx OrientedRect.hw OrientedRect.hh].
    rewrite cos_0, sin_0, Rabs_R1, Rabs_R0.
    replace (Rect.cx _) with 0%R by reflexivity.
    replace (Rect.hw _) with 512%R by reflexivity. lra.
  - intros _. unfold valid_config, t. cbn. repeat split; try lra; lia.
Defined.

(** ** A child that meets the viewport has a parent that meets it *)

Lemma intersects_aabb_true (v : OrientedRect.t) (r : Rect.t) :
  OrientedRect.intersects_aabb v r = true
  <-> forall axis,
        In axis [ (1, 0)%R; (0, 1)%R;
                  fst (OrientedRect.axes v); snd (OrientedRect.axes v) ] ->
        OrientedRect.overlap
          (OrientedRect.proj_aabb axis r)
          (OrientedRect.proj_obb (fst (OrientedRect.axes v))
                                 (snd (OrientedRect.axes v)) axis v) = true.
Proof.
  unfold OrientedRect.intersects_aabb, OrientedRect.axes. cbn [fst snd].
  rewrite forallb_forall. reflexivity.
Qed.

Lemma proj_aabb_child (axis : R * R) (r : Rect.t) (i : Z) :
  (0 <= Rect.hw r)%R -> (0 <= Rect.hh r)%R -> quadrant_index i ->
  (fst (OrientedRect.proj_aabb axis r)
   <= fst (OrientedRect.proj_aabb axis (child_rect r i))
   /\ snd (OrientedRect.proj_aabb axis (child_rect r i))
      <= snd (OrientedRect.proj_aabb axis r))%R.
Proof.
  intros Hw Hh Hi. destruct axis as [ax ay].
  rewrite (child_rect_bits r Hi).
  unfold OrientedRect.proj_aabb, OrientedRect.dot.
  cbn [fst snd Rect.cx Rect.cy Rect.hw Rect.hh].
  pose proof (Rle_abs ax) as Hax. pose proof (Rle_abs (- ax)) as Hax'.
  pose proof (Rle_abs ay) as Hay. pose proof (Rle_abs (- ay)) as Hay'.
  rewrite Rabs_Ropp in Hax', Hay'.
  set (A := Rabs ax) in *. set (B := Rabs ay) in *.
  assert (H1 : (Rect.hw r * ax <= Rect.hw r * A)%R)
    by (apply Rmult_le_compat_l; lra).
  assert (H2 : (- (Rect.hw r * A) <= Rect.hw r * ax)%R).
  { replace (- (Rect.hw r * A))%R with (Rect.hw r * - A)%R by ring.
    apply Rmult_le_compat_l; lra. }
  assert (H3 : (Rect.hh r * ay <= Rect.hh r * B)%R)
    by (apply Rmult_le_compat_l; lra).
  assert (H4 : (- (Rect.hh r * B) <= Rect.hh r * ay)%R).
  { replace (- (Rect.hh r * B))%R with (Rect.hh r * - B)%R by ring.
    apply Rmult_le_compat_l; lra. }
  destruct (Z.testbit i 0), (Z.testbit i 1); split; lra.
Qed.

Lemma child_rect_nonneg (r : Rect.t) (i : Z) :
  (0 <= Rect.hw r)%R -> (0 <= Rect.hh r)%R -> quadrant_index i ->
  (0 <= Rect.hw (child_rect r i))%R /\ (0 <= Rect.hh (child_rect r i))%R.
Proof.
  intros Hw Hh Hi. rewrite (child_rect_bits r Hi).
  cbn [Rect.hw Rect.hh]. lra.
Qed.

Lemma intersects_child_parent (v : OrientedRect.t) (r : Rect.t) (i : Z) :
  (0 <= Rect.hw r)%R -> (0 <= Rect.hh r)%R -> quadrant_index i ->
  OrientedRect.intersects_aabb v (child_rect r i) = true ->
  OrientedRect.intersects_aabb v r = true.
Proof.
  intros Hw Hh Hi. rewrite !intersects_aabb_true.
  intros H axis Hax. specialize (H axis Hax).
  destruct (@proj_aabb_child axis r i Hw Hh Hi) as [H1 H2].
  destruct (OrientedRect.proj_aabb axis r) as [a b].
  destruct (OrientedRect.proj_aabb axis (child_rect r i)) as [a' b'].
  destruct (OrientedRect.proj_obb _ _ axis v) as [c d].
  cbn [fst snd] in H1, H2.
  rewrite overlap_true in *. lra.
Qed.

Lemma rect_of_path_cons (r : Rect.t) (i : Z) (q : list Z) :
  rect_of_path r (i :: q) = rect_of_path (child_rect r i) q.
Proof. reflexivity. Qed.

Lemma intersects_ancestor (v : OrientedRect.t) (q : list Z) :
  forall r,
    (0 <= Rect.hw r)%R -> (0 <= Rect.hh r)%R -> Forall quadrant_index q ->
    OrientedRect.intersects_aabb v (rect_of_path r q) = true ->
    OrientedRect.intersects_aabb v r = true.
Proof.
  induction q as [|i q IH]; intros r Hw Hh Hq H; [exact H|].
  inversion_clear Hq as [|? ? Hi Hq'].
  destruct (@child_rect_nonneg r i Hw Hh Hi) as [Hw' Hh'].
  apply (@intersects_child_parent v r i Hw Hh Hi).
  apply IH; assumption.
Qed.

(** ** The recursion below [update] ends *)

Lemma descend_node (n : QuadNode.t) :
  all_nodes node_ok n ->
  let self1 := match QuadNode.children n with
               | None => QuadNode.subdivide n
               | Some _ => n
               end in
  all_nodes node_ok self1 /\ same_address n self1
  /\ exists kids, QuadNode.children self1 = Some kids.
Proof.
  intros Hn. destruct (QuadNode.children n) as [kids|] eqn:Hc; cbv zeta.
  - split; [exact Hn|]. split; [apply same_address_refl | eauto].
  - split; [apply all_nodes_subdivide; exact Hn|].
    split; [apply subdivide_same|].
    rewrite (subdivide_leaf _ Hc). cbn. eauto.
Qed.

Lemma kid_of_good_node (n : QuadNode.t) kids c :
  all_nodes node_ok n -> QuadNode.children n = Some kids -> In c kids ->
  all_nodes node_ok c /\ QuadNode.depth c = (QuadNode.depth n + 1)%Z.
Proof.
  intros Hn Hk Hin. split; [eapply all_nodes_kid; eassumption|].
  destruct (all_nodes_here Hn) as [Hch _].
  destruct (Hch _ Hk) as [_ Hnth].
  destruct (In_nth_error _ _ Hin) as [i Hi].
  apply (Hnth _ _ Hi).
Qed.

Lemma traverse_rec_terminates viewport stop (M : Z) :
  forall fuel n,
    all_nodes node_ok n ->
    (Z.to_nat (M - QuadNode.depth n) < fuel)%nat ->
    exists res, QuadNode.traverse_rec fuel viewport stop (Some M) n = Ok res.
Proof.
  induction fuel as [|fuel IH]; intros n Hn Hfuel; [lia|].
  rewrite traverse_rec_S.
  destruct (negb _); [eauto|].
  destruct (Z.leb_spec M (QuadNode.depth n)) as [Hle|Hlt]; [cbv zeta; eauto|].
  cbv zeta. destruct (stop n viewport); [eauto|].
  destruct (descend_node Hn) as (H1 & (_ & Hd & _) & kids & Hk).
  rewrite Hk.
  destruct (@traverse_children_total
              (QuadNode.traverse_rec fuel viewport stop (Some M)) kids)
    as [rs Hrs].
  { intros c Hc. destruct (@kid_of_good_node _ kids c H1 Hk Hc) as [Hcok Hcd].
    apply IH; [exact Hcok|]. rewrite Hcd, Hd. lia. }
  rewrite Hrs. cbn [bind]. eauto.
Qed.

(** [update] never runs out of the fuel it is given on a tree grown from a
    fresh root. *)
Lemma update_never_out_of_fuel r (t : QuadTree.t) viewport stop :
  reachable r (QuadTree.root t) ->
  exists res,
    QuadNode.traverse_rec (QuadTree.update_fuel t) viewport stop
                          (Some (QuadTree.max_depth t)) (QuadTree.root t)
    = Ok res.
Proof.
  intros Hr. apply traverse_rec_terminates.
  - apply (reachable_invariant Hr).
  - unfold QuadTree.update_fuel. lia.
Qed.

(** ** What a traversal visits *)

Lemma Forall2_nth_error_l {A B : Type} (R : A -> B -> Prop) l l' i a :
  Forall2 R l l' -> nth_error l i = Some a ->
  exists b, nth_error l' i = Some b /\ R a b.
Proof.
  intros H. revert i. induction H as [|a' b l l' Hab _ IH]; intros i Hi.
  - destruct i; discriminate.
  - destruct i as [|i]; cbn in *.
    + injection Hi as <-. eauto.
    + apply IH; assumption.
Qed.

Lemma in_concat_map_snd {A B : Type} (rs : list (A * list B)) (r : A * list B) m :
  In r rs -> In m (snd r) -> In m (concat (map snd rs)).
Proof.
  intros Hr Hm. apply in_concat. exists (snd r). split; [|exact Hm].
  apply in_map. exact Hr.
Qed.

(** Every visited node meets the viewport and sits in the tree the
    traversal leaves behind. *)
Lemma traverse_visited_intersect viewport stop max_depth :
  forall fuel n n' vis m,
    QuadNode.traverse_rec fuel viewport stop max_depth n = Ok (n', vis) ->
    In m vis ->
    OrientedRect.intersects_aabb viewport (QuadNode.rect m) = true
    /\ subnode m n'.
Proof.
  induction fuel as [|fuel IH]; intros n n' vis m; [discriminate|].
  rewrite traverse_rec_S.
  destruct (OrientedRect.intersects_aabb viewport (QuadNode.rect n)) eqn:Hint;
    cbn [negb].
  2:{ intros H; injection H as <- <-. contradiction. }
  cbv zeta. destruct (match max_depth with Some _ => _ | None => _ end).
  { intros H; injection H as <- <-. intros [<- | []].
    split; [exact Hint | apply sub_here]. }
  set (self1 := match QuadNode.children n with
                | None => QuadNode.subdivide n | Some _ => n end).
  assert (Hrect : QuadNode.rect self1 = QuadNode.rect n).
  { subst self1. destruct (QuadNode.children n); [reflexivity|].
    apply subdivide_same. }
  intros H. apply bind_Ok in H. destruct H as ([ks vs] & Hrs & H).
  injection H as <- <-. cbn [fst snd].
  destruct (traverse_children_inv _ _ Hrs) as (rs & HF & -> & ->).
  intros [<- | Hm].
  - split; [cbn [QuadNode.rect QuadNode.set_children]; congruence | apply sub_here].
  - apply in_concat in Hm. destruct Hm as (v & Hv & Hm).
    apply in_map_iff in Hv. destruct Hv as ([c' v'] & <- & Hr).
    destruct (Forall2_In_r _ HF Hr) as (c & _ & Hc).
    destruct (IH _ _ _ m Hc Hm) as [Hi Hs]. split; [exact Hi|].
    eapply sub_child with (c := c'); [reflexivity | | exact Hs].
    apply (in_map fst) in Hr. exact Hr.
Qed.

(** With a stop predicate that answers true from depth [D] on, nothing
    deeper than [D] is visited below a node above [D]. *)
Lemma traverse_visited_depth viewport stop max_depth (D : Z) :
  (forall node, (D <= QuadNode.depth node)%Z -> stop node viewport = true) ->
  forall fuel n n' vis m,
    all_nodes node_ok n ->
    QuadNode.traverse_rec fuel viewport stop max_depth n = Ok (n', vis) ->
    In m vis ->
    (QuadNode.depth m <= Z.max (QuadNode.depth n) D)%Z.
Proof.
  intros Hstop.
  induction fuel as [|fuel IH]; intros n n' vis m Hn; [discriminate|].
  rewrite traverse_rec_S.
  destruct (negb _).
  { intros H; injection H as <- <-. contradiction. }
  cbv zeta.
  destruct (match max_depth with Some _ => _ | None => _ end) eqn:Hs.
  { intros H; injection H as <- <-. intros [<- | []]. cbn. lia. }
  assert (HD : (QuadNode.depth n < D)%Z).
  { destruct (Z_lt_le_dec (QuadNode.depth n) D) as [|Hge]; [assumption|].
    rewrite (Hstop n Hge) in Hs.
    destruct max_depth as [M|]; [destruct (M <=? _)%Z|]; discriminate. }
  destruct (descend_node Hn) as (H1 & (_ & Hd & _) & kids & Hk).
  rewrite Hk.
  intros H. apply bind_Ok in H. destruct H as ([ks vs] & Hrs & H).
  injection H as <- <-. cbn [fst snd].
  destruct (traverse_children_inv _ _ Hrs) as (rs & HF & -> & ->).
  intros [<- | Hm].
  - cbn [QuadNode.depth QuadNode.set_children]. lia.
  - apply in_concat in Hm. destruct Hm as (v & Hv & Hm).
    apply in_map_iff in Hv. destruct Hv as ([c' v'] & <- & Hr).
    destruct (Forall2_In_r _ HF Hr) as (c & Hcin & Hc).
    destruct (@kid_of_good_node _ kids c H1 Hk Hcin) as [Hcok Hcd].
    pose proof (IH _ _ _ m Hcok Hc Hm) as Hle.
    rewrite Hcd, Hd in Hle. lia.
Qed.

(** With the default stop predicate for target depth [D], every cell
    down to depth [min D M] that meets the viewport is visited. *)
Lemma traverse_default_complete viewport (D M : Z) :
  let stop := fun (node : QuadNode.t) (_ : OrientedRect.t) =>
                (D <=? QuadNode.depth node)%Z || (M <=? QuadNode.depth node)%Z in
  forall fuel n n' vis q,
    all_nodes node_ok n ->
    (0 <= Rect.hw (QuadNode.rect n))%R -> (0 <= Rect.hh (QuadNode.rect n))%R ->
    QuadNode.traverse_rec fuel viewport stop (Some M) n = Ok (n', vis) ->
    Forall quadrant_index q ->
    OrientedRect.intersects_aabb viewport (rect_of_path (QuadNode.rect n) q) = true ->
    (q = [] \/ QuadNode.depth n + Z.of_nat (length q) <= Z.min D M)%Z ->
    exists m, In m vis
              /\ QuadNode.path m = QuadNode.path n ++ q
              /\ QuadNode.depth m = (QuadNode.depth n + Z.of_nat (length q))%Z
              /\ QuadNode.rect m = rect_of_path (QuadNode.rect n) q.
Proof.
  intros stop.
  induction fuel as [|fuel IH]; intros n n' vis q Hn Hw Hh; [discriminate|].
  rewrite traverse_rec_S. intros Ht Hq Hint Hdepth.
  rewrite (@intersects_ancestor viewport q (QuadNode.rect n) Hw Hh Hq Hint) in Ht. cbn [negb] in Ht.
  cbv zeta in Ht.
  destruct q as [|i q].
  - (* the node itself heads the visited list in both remaining cases *)
    destruct (if (M <=? QuadNode.depth n)%Z then true else stop n viewport).
    + injection Ht as <- <-. eexists. split; [left; reflexivity|].
      cbn. rewrite app_nil_r, Z.add_0_r. auto.
    + destruct (descend_node Hn) as (_ & (Hr1 & Hd1 & Hp1) & _).
      apply bind_Ok in Ht. destruct Ht as (rs & _ & Ht).
      injection Ht as <- <-. eexists. split; [left; reflexivity|].
      cbn [QuadNode.path QuadNode.depth QuadNode.rect QuadNode.set_children
           length rect_of_path fold_left].
      rewrite app_nil_r, Z.add_0_r. auto.
  - destruct Hdepth as [Hnil | Hdepth]; [discriminate|].
    cbn [length] in Hdepth.
    inversion_clear Hq as [|? ? Hi Hq'].
    assert (HM : (M <=? QuadNode.depth n)%Z = false) by (apply Z.leb_gt; lia).
    assert (HD : stop n viewport = false).
    { unfold stop. rewrite HM, orb_false_r. apply Z.leb_gt. lia. }
    rewrite HM, HD in Ht.
    destruct (descend_node Hn) as (H1 & (Hr1 & Hd1 & Hp1) & kids & Hk).
    rewrite Hk in Ht.
    apply bind_Ok in Ht. destruct Ht as ([ks vs] & Hrs & Ht).
    injection Ht as <- <-. cbn [fst snd].
    destruct (traverse_children_inv _ _ Hrs) as (rs & HF & -> & ->).
    destruct (all_nodes_here H1) as [Hch _].
    destruct (Hch _ Hk) as [Hlen Hnth].
    assert (Hi4 : (Z.to_nat i < length kids)%nat)
      by (unfold quadrant_index in Hi; lia).
    destruct (nth_error kids (Z.to_nat i)) as [c|] eqn:Hc;
      [|apply nth_error_None in Hc; lia].
    destruct (Hnth _ _ Hc) as (Hcd & Hcp & Hcr).
    rewrite Z2Nat.id in Hcp, Hcr by (unfold quadrant_index in Hi; lia).
    rewrite Hr1 in Hcr. rewrite Hd1 in Hcd. rewrite Hp1 in Hcp.
    destruct (Forall2_nth_error_l _ HF Hc) as ([c' v] & Hr & Htc).
    destruct (@child_rect_nonneg (QuadNode.rect n) i Hw Hh Hi) as [Hw' Hh'].
    rewrite rect_of_path_cons, <- Hcr in Hint.
    destruct (IH c c' v q) as (m & Hm & Hmp & Hmd & Hmr).
    + eapply all_nodes_kid; [exact H1 | exact Hk |].
      eapply nth_error_In; exact Hc.
    + rewrite Hcr; exact Hw'.
    + rewrite Hcr; exact Hh'.
    + exact Htc.
    + exact Hq'.
    + exact Hint.
    + right. rewrite Hcd. lia.
    + exists m. split.
      * right. eapply in_concat_map_snd; [eapply nth_error_In; exact Hr | exact Hm].
      * rewrite Hmp, Hmd, Hmr, Hcp, Hcd, Hcr, <- app_assoc.
        cbn [length app]. rewrite rect_of_path_cons.
        repeat split. lia.
Qed.

(** A query with the default stop predicate on a tree grown from a fresh
    root, under a valid configuration: it returns, and it visits exactly
    the cells down to the target depth whose boxes meet the viewport. *)
Lemma update_visits_exactly r (t : QuadTree.t) (viewport : OrientedRect.t) :
  reachable r (QuadTree.root t) -> valid_config t ->
  exists D t' visited,
    QuadTree.desired_depth t viewport = Ok D
    /\ QuadTree.update t viewport None = Ok (t', visited)
    /\ reachable r (QuadTree.root t')
    /\ (forall m, In m visited ->
          OrientedRect.intersects_aabb viewport (QuadNode.rect m) = true
          /\ (0 <= QuadNode.depth m <= D)%Z
          /\ Forall quadrant_index (QuadNode.path m)
          /\ QuadNode.depth m = Z.of_nat (length (QuadNode.path m))
          /\ QuadNode.rect m = rect_of_path r (QuadNode.path m))
    /\ (forall p, Forall quadrant_index p -> (Z.of_nat (length p) <= D)%Z ->
          OrientedRect.intersects_aabb viewport (rect_of_path r p) = true ->
          exists m, In m visited /\ QuadNode.path m = p
                    /\ QuadNode.rect m = rect_of_path r p).
Proof.
  intros Hr Hv.
  destruct (default_stop_defined viewport Hv) as (D & HD & Hstop).
  pose proof (desired_depth_defined viewport Hv) as HDdef.
  rewrite HD in HDdef. injection HDdef as HDeq.
  destruct Hv as (Hw & Hh & Hc & Hmin & Hmax).
  assert (HDr : (0 <= D <= QuadTree.max_depth t)%Z) by lia.
  destruct (reachable_invariant Hr) as [Hok (Hrr & Hrd & Hrp)].
  cbn in Hrr, Hrd, Hrp.
  destruct (@update_never_out_of_fuel r t viewport
              (fun node _ => (D <=? QuadNode.depth node)%Z
                             || (QuadTree.max_depth t <=? QuadNode.depth node)%Z)
              Hr) as ([n' vis] & Ht).
  assert (Hr' : reachable r n')
    by (eapply reach_step; [exact Hr | eapply step_traverse; exact Ht]).
  exists D, (QuadTree.set_root t n'), vis.
  split; [exact HD|]. split.
  { unfold QuadTree.update. rewrite Hstop. cbn [bind].
    unfold QuadNode.traverse. rewrite Ht. reflexivity. }
  split; [exact Hr'|]. split.
  - intros m Hm.
    destruct (@traverse_visited_intersect _ _ _ _ _ _ _ _ Ht Hm) as [Hint Hsub].
    destruct (reachable_rect Hr' Hsub) as (Hmr & Hmd & Hmp).
    split; [exact Hint|]. split; [|auto].
    split; [lia|].
    assert (Hle : (QuadNode.depth m
                   <= Z.max (QuadNode.depth (QuadTree.root t)) D)%Z).
    { eapply traverse_visited_depth with (D := D); [| exact Hok | exact Ht | exact Hm].
      intros node Hnode. cbv beta.
      apply orb_true_iff. left. apply Z.leb_le. exact Hnode. }
    rewrite Hrd in Hle. lia.
  - intros p Hp Hlen Hint.
    destruct (@traverse_default_complete viewport D (QuadTree.max_depth t)
                (QuadTree.update_fuel t) (QuadTree.root t) n' vis p)
      as (m & Hm & Hmp & _ & Hmr).
    + exact Hok.
    + lra.
    + lra.
    + exact Ht.
    + exact Hp.
    + rewrite Hrr. exact Hint.
    + right. rewrite Hrd. lia.
    + exists m. rewrite Hmp, Hmr, Hrp, Hrr. auto.
Qed.

Lemma log2_strict (x y : R) : (0 < x)%R -> (x < y)%R -> (log2 x < log2 y)%R.
Proof.
  intros Hx Hxy. unfold log2.
  apply Rmult_lt_compat_r; [apply Rinv_0_lt_compat, ln_2_pos|].
  apply ln_increasing; assumption.
Qed.

Lemma scenario_ratio :
  QuadTree.ratio (QuadTree.from_center 0 0 512 512 4)
                 (OrientedRect.mk 10 96 90 160 (30 * (PI / 180)))
  = (4096 / 180)%R.
Proof.
  unfold QuadTree.ratio, QuadTree.from_center, Rect.w, Rect.h.
  cbn [QuadTree.root QuadTree.cells_across QuadNode.rect Rect.hw Rect.hh
       OrientedRect.hw OrientedRect.hh].
  rewrite Rmax_left by lra. rewrite Rmin_left by lra.
  rewrite Rmax_right by (simpl pow; lra).
  lra.
Qed.

Lemma scenario_valid_config :
  valid_config (QuadTree.from_center 0 0 512 512 4).
Proof. unfold valid_config. cbn. repeat split; try lra; lia. Qed.

Lemma scenario_pseudo_depth : (4 < log2 (4096 / 180) <= 5)%R.
Proof.
  split.
  - replace 4%R with (INR 4) by (simpl; lra). rewrite <- log2_pow.
    apply log2_strict; simpl pow; lra.
  - replace 5%R with (INR 5) by (simpl; lra). rewrite <- log2_pow.
    apply log2_monotone; simpl pow; lra.
Qed.

Lemma scenario_desired_depth :
  QuadTree.desired_depth (QuadTree.from_center 0 0 512 512 4)
                         (OrientedRect.mk 10 96 90 160 (30 * (PI / 180)))
  = Ok 5%Z.
Proof.
  rewrite (desired_depth_defined _ scenario_valid_config), scenario_ratio.
  rewrite (@Rceil_spec (log2 (4096 / 180)) 5); [reflexivity|].
  pose proof scenario_pseudo_depth. lra.
Qed.

(** * Further properties of the geometry *)

Lemma cos2_sin2_one (x : R) : (cos x * cos x + sin x * sin x = 1)%R.
Proof. pose proof (sin2_cos2 x) as H. unfold Rsqr in H. lra. Qed.

(** X1.  [to_local] and [to_world] are inverse to each other: a world
    point taken to viewport-local coordinates and back is unchanged, and
    so is a local point taken to world coordinates and back. *)
Theorem to_local_to_world_round_trip (v : OrientedRect.t) (a b : R) :
  OrientedRect.to_world v (fst (OrientedRect.to_local v a b))
                          (snd (OrientedRect.to_local v a b)) = (a, b)
  /\ OrientedRect.to_local v (fst (OrientedRect.to_world v a b))
                             (snd (OrientedRect.to_world v a b)) = (a, b).
Proof.
  pose proof (cos2_sin2_one (OrientedRect.theta_rad v)) as H.
  unfold OrientedRect.to_world, OrientedRect.to_local. cbn [fst snd].
  set (c := cos _) in *. set (s := sin _) in *.
  split; f_equal.
  - replace (c * (c * (a - OrientedRect.cx v) + s * (b - OrientedRect.cy v))
             - s * (- s * (a - OrientedRect.cx v) + c * (b - OrientedRect.cy v))
             + OrientedRect.cx v)%R
      with ((c * c + s * s) * (a - OrientedRect.cx v) + OrientedRect.cx v)%R
      by ring.
    rewrite H. ring.
  - replace (s * (c * (a - OrientedRect.cx v) + s * (b - OrientedRect.cy v))
             + c * (- s * (a - OrientedRect.cx v) + c * (b - OrientedRect.cy v))
             + OrientedRect.cy v)%R
      with ((c * c + s * s) * (b - OrientedRect.cy v) + OrientedRect.cy v)%R
      by ring.
    rewrite H. ring.
  - replace (c * (c * a - s * b + OrientedRect.cx v - OrientedRect.cx v)
             + s * (s * a + c * b + OrientedRect.cy v - OrientedRect.cy v))%R
      with ((c * c + s * s) * a)%R by ring.
    rewrite H. ring.
  - replace (- s * (c * a - s * b + OrientedRect.cx v - OrientedRect.cx v)
             + c * (s * a + c * b + OrientedRect.cy v - OrientedRect.cy v))%R
      with ((c * c + s * s) * b)%R by ring.
    rewrite H. ring.
Qed.

(** [contains_point] is the extent check on the local coordinates that
    [to_local] computes. *)
Lemma contains_point_local (v : OrientedRect.t) (x y : R) :
  OrientedRect.contains_point v x y
  = Rleb (Rabs (fst (OrientedRect.to_local v x y))) (OrientedRect.hw v)
    && Rleb (Rabs (snd (OrientedRect.to_local v x y))) (OrientedRect.hh v).
Proof.
  unfold OrientedRect.contains_point, OrientedRect.to_local, OrientedRect.axes.
  cbn [fst snd]. f_equal; f_equal; f_equal; ring.
Qed.

Lemma contains_point_true (v : OrientedRect.t) (x y : R) :
  OrientedRect.contains_point v x y = true
  <-> (Rabs (fst (OrientedRect.to_local v x y)) <= OrientedRect.hw v
       /\ Rabs (snd (OrientedRect.to_local v x y)) <= OrientedRect.hh v)%R.
Proof.
  rewrite contains_point_local, andb_true_iff, !Rleb_true. reflexivity.
Qed.

(** X2.  In viewport-local coordinates the four corners are
    (-hw,-hh), (-hw,hh), (hw,hh), (hw,-hh), in this order. *)
Theorem corners_in_local_coordinates (v : OrientedRect.t) :
  map (fun p => OrientedRect.to_local v (fst p) (snd p)) (OrientedRect.corners v)
  = [ (- OrientedRect.hw v, - OrientedRect.hh v)%R;
      (- OrientedRect.hw v, OrientedRect.hh v)%R;
      (OrientedRect.hw v, OrientedRect.hh v)%R;
      (OrientedRect.hw v, - OrientedRect.hh v)%R ].
Proof.
  pose proof (cos2_sin2_one (OrientedRect.theta_rad v)) as H.
  unfold OrientedRect.corners, OrientedRect.to_local, OrientedRect.axes.
  cbn [map fst snd].
  set (c := cos _) in *. set (s := sin _) in *.
  set (w := OrientedRect.hw v). set (h := OrientedRect.hh v).
  assert (Hw : forall k : R, (k * (c * c + s * s) = k)%R)
    by (intros k; rewrite H; ring).
  repeat first
    [ match goal with
      | |- _ = ?k :> R => transitivity (k * (c * c + s * s))%R; [ring | apply Hw]
      end
    | reflexivity
    | f_equal ].
Qed.

Lemma Rmin_cases (a b : R) :
  (Rmin a b = a /\ a <= b)%R \/ (Rmin a b = b /\ b <= a)%R.
Proof. unfold Rmin. destruct (Rle_dec a b); [left | right]; split; lra. Qed.

Lemma Rmax_cases (a b : R) :
  (Rmax a b = b /\ a <= b)%R \/ (Rmax a b = a /\ b <= a)%R.
Proof. unfold Rmax. destruct (Rle_dec a b); [left | right]; split; lra. Qed.

Lemma min_list_four (m A B : R) :
  min_list [ (m + (- A - B))%R; (m + (- A + B))%R;
             (m + (A + B))%R; (m + (A - B))%R ]
  = (m - Rabs A - Rabs B)%R.
Proof.
  cbn [min_list fold_left].
  destruct (Rmin_cases (m + (- A - B)) (m + (- A + B))) as [[-> ?] | [-> ?]];
    match goal with |- Rmin (Rmin ?a ?b) _ = _ =>
      destruct (Rmin_cases a b) as [[-> ?] | [-> ?]] end;
    match goal with |- Rmin ?a ?b = _ =>
      destruct (Rmin_cases a b) as [[-> ?] | [-> ?]] end;
    unfold Rabs; destruct (Rcase_abs A), (Rcase_abs B); lra.
Qed.

Lemma max_list_four (m A B : R) :
  max_list [ (m + (- A - B))%R; (m + (- A + B))%R;
             (m + (A + B))%R; (m + (A - B))%R ]
  = (m + Rabs A + Rabs B)%R.
Proof.
  cbn [max_list fold_left].
  destruct (Rmax_cases (m + (- A - B)) (m + (- A + B))) as [[-> ?] | [-> ?]];
    match goal with |- Rmax (Rmax ?a ?b) _ = _ =>
      destruct (Rmax_cases a b) as [[-> ?] | [-> ?]] end;
    match goal with |- Rmax ?a ?b = _ =>
      destruct (Rmax_cases a b) as [[-> ?] | [-> ?]] end;
    unfold Rabs; destruct (Rcase_abs A), (Rcase_abs B); lra.
Qed.

Lemma aabb_bounds_formula (v : OrientedRect.t) :
  let c := cos (OrientedRect.theta_rad v) in
  let s := sin (OrientedRect.theta_rad v) in
  OrientedRect.aabb_bounds v
  = Rect.mk (OrientedRect.cx v) (OrientedRect.cy v)
            (Rabs (OrientedRect.hw v * c) + Rabs (OrientedRect.hh v * s))
            (Rabs (OrientedRect.hw v * s) + Rabs (OrientedRect.hh v * c)).
Proof.
  intros c s.
  unfold OrientedRect.aabb_bounds, OrientedRect.corners, OrientedRect.axes.
  fold c s. cbn [map fst snd].
  rewrite !min_list_four, !max_list_four.
  replace (- s * OrientedRect.hh v)%R with (- (OrientedRect.hh v * s))%R by ring.
  rewrite Rabs_Ropp.
  rewrite (Rmult_comm c), (Rmult_comm s (OrientedRect.hw v)),
    (Rmult_comm c (OrientedRect.hh v)).
  f_equal; lra.
Qed.

(** X3.  The bounding box of a rotated viewport has the viewport's center
    and half-extents |hw cos| + |hh sin| and |hw sin| + |hh cos|. *)
Theorem aabb_bounds_closed_form (v : OrientedRect.t) :
  let c := cos (OrientedRect.theta_rad v) in
  let s := sin (OrientedRect.theta_rad v) in
  OrientedRect.aabb_bounds v
  = Rect.mk (OrientedRect.cx v) (OrientedRect.cy v)
            (Rabs (OrientedRect.hw v * c) + Rabs (OrientedRect.hh v * s))
            (Rabs (OrientedRect.hw v * s) + Rabs (OrientedRect.hh v * c)).
Proof. apply aabb_bounds_formula. Qed.

Lemma abs_dot_bound (a b p q A B : R) :
  (Rabs a <= A)%R -> (Rabs b <= B)%R ->
  (Rabs (a * p + b * q) <= A * Rabs p + B * Rabs q)%R.
Proof.
  intros Ha Hb.
  eapply Rle_trans; [apply Rabs_triang|]. rewrite !Rabs_mult.
  apply Rplus_le_compat; apply Rmult_le_compat_r; auto using Rabs_pos.
Qed.

Lemma Rabs_le_bounds (x m : R) : (Rabs x <= m)%R <-> (- m <= x <= m)%R.
Proof.
  unfold Rabs. destruct (Rcase_abs x); split; intros; lra.
Qed.

(** The offset of a world point from the viewport center, rebuilt from
    its local coordinates. *)
Lemma local_offset (v : OrientedRect.t) (x y : R) :
  let c := cos (OrientedRect.theta_rad v) in
  let s := sin (OrientedRect.theta_rad v) in
  let l := OrientedRect.to_local v x y in
  (x - OrientedRect.cx v = fst l * c + snd l * - s
   /\ y - OrientedRect.cy v = fst l * s + snd l * c)%R.
Proof.
  intros c s l. subst l.
  pose proof (cos2_sin2_one (OrientedRect.theta_rad v)) as H. fold c s in H.
  unfold OrientedRect.to_local. fold c s. cbn [fst snd].
  split.
  - transitivity ((c * c + s * s) * (x - OrientedRect.cx v))%R; [rewrite H|]; ring.
  - transitivity ((c * c + s * s) * (y - OrientedRect.cy v))%R; [rewrite H|]; ring.
Qed.

(** X4.  Every point of the viewport lies in its bounding box. *)
Theorem aabb_bounds_encloses_viewport (v : OrientedRect.t) (x y : R) :
  OrientedRect.contains_point v x y = true ->
  in_box (OrientedRect.aabb_bounds v) x y.
Proof.
  intros H. apply contains_point_true in H. destruct H as [Hx Hy].
  destruct (local_offset v x y) as [Hdx Hdy]. cbv zeta in Hdx, Hdy.
  pose proof (abs_dot_bound _ _ (cos (OrientedRect.theta_rad v))
                (- sin (OrientedRect.theta_rad v)) Hx Hy) as Bx.
  pose proof (abs_dot_bound _ _ (sin (OrientedRect.theta_rad v))
                (cos (OrientedRect.theta_rad v)) Hx Hy) as By.
  rewrite <- Hdx in Bx. rewrite <- Hdy in By. rewrite Rabs_Ropp in Bx.
  assert (Hw : (0 <= OrientedRect.hw v)%R)
    by (eapply Rle_trans; [apply Rabs_pos | exact Hx]).
  assert (Hh : (0 <= OrientedRect.hh v)%R)
    by (eapply Rle_trans; [apply Rabs_pos | exact Hy]).
  rewrite aabb_bounds_formula. unfold in_box, Rect.xmin, Rect.xmax,
    Rect.ymin, Rect.ymax. cbn [Rect.cx Rect.cy Rect.hw Rect.hh].
  rewrite !Rabs_mult, !(Rabs_pos_eq _ Hw), !(Rabs_pos_eq _ Hh).
  apply Rabs_le_bounds in Bx. apply Rabs_le_bounds in By. lra.
Qed.

Lemma aabb_bounds_encloses_viewport_witness :
  in_box (OrientedRect.aabb_bounds (OrientedRect.mk 10 96 90 160 (PI / 6))) 10 96.
Proof.
  apply aabb_bounds_encloses_viewport.
  apply contains_point_true. unfold OrientedRect.to_local. cbn [fst snd
    OrientedRect.cx OrientedRect.cy OrientedRect.hw OrientedRect.hh].
  replace (10 - 10)%R with 0%R by ring. replace (96 - 96)%R with 0%R by ring.
  rewrite !Rmult_0_r, Rplus_0_r, Rabs_R0. lra.
Defined.

(** ** The separating-axis test has no false negatives *)

Lemma sat_axis_overlap (v : OrientedRect.t) (r : Rect.t) (x y : R) (axis : R * R) :
  in_box r x y -> OrientedRect.contains_point v x y = true ->
  OrientedRect.overlap
    (OrientedRect.proj_aabb axis r)
    (OrientedRect.proj_obb (fst (OrientedRect.axes v))
                           (snd (OrientedRect.axes v)) axis v) = true.
Proof.
  intros Hbox Hin. destruct axis as [ax ay].
  apply contains_point_true in Hin. destruct Hin as [Hlx Hly].
  destruct (local_offset v x y) as [Hdx Hdy]. cbv zeta in Hdx, Hdy.
  unfold OrientedRect.axes. cbn [fst snd].
  unfold OrientedRect.proj_aabb, OrientedRect.proj_obb, OrientedRect.dot.
  set (c := cos _) in *. set (s := sin _) in *.
  set (lx := fst _) in *. set (ly := snd _) in *.
  (* the projection of the common point *)
  assert (Ha : (Rabs ((x - Rect.cx r) * ax + (y - Rect.cy r) * ay)
                <= Rect.hw r * Rabs ax + Rect.hh r * Rabs ay)%R).
  { apply abs_dot_bound; apply Rabs_le_bounds;
      unfold in_box, Rect.xmin, Rect.xmax, Rect.ymin, Rect.ymax in Hbox; lra. }
  assert (Ho : (Rabs (lx * (c * ax + s * ay) + ly * (- s * ax + c * ay))
                <= OrientedRect.hw v * Rabs (c * ax + s * ay)
                   + OrientedRect.hh v * Rabs (- s * ax + c * ay))%R)
    by (apply abs_dot_bound; assumption).
  replace (lx * (c * ax + s * ay) + ly * (- s * ax + c * ay))%R
    with ((x - OrientedRect.cx v) * ax + (y - OrientedRect.cy v) * ay)%R in Ho
    by (rewrite Hdx, Hdy; ring).
  apply Rabs_le_bounds in Ha. apply Rabs_le_bounds in Ho.
  apply overlap_true. lra.
Qed.

Lemma common_point_intersects (v : OrientedRect.t) (r : Rect.t) (x y : R) :
  in_box r x y -> OrientedRect.contains_point v x y = true ->
  OrientedRect.intersects_aabb v r = true.
Proof.
  intros Hbox Hin. apply intersects_aabb_true.
  intros axis _. apply sat_axis_overlap with (x := x) (y := y); assumption.
Qed.

(** X5.  If some point lies both in the box and in the viewport, the
    separating-axis test reports an intersection. *)
Theorem sat_no_false_negative (v : OrientedRect.t) (r : Rect.t) (x y : R) :
  in_box r x y -> OrientedRect.contains_point v x y = true ->
  OrientedRect.intersects_aabb v r = true.
Proof. apply common_point_intersects. Qed.

Lemma center_in_viewport (v : OrientedRect.t) :
  (0 <= OrientedRect.hw v)%R -> (0 <= OrientedRect.hh v)%R ->
  OrientedRect.contains_point v (OrientedRect.cx v) (OrientedRect.cy v) = true.
Proof.
  intros Hw Hh. apply contains_point_true.
  unfold OrientedRect.to_local. cbn [fst snd].
  replace (OrientedRect.cx v - OrientedRect.cx v)%R with 0%R by ring.
  replace (OrientedRect.cy v - OrientedRect.cy v)%R with 0%R by ring.
  rewrite !Rmult_0_r, Rplus_0_r, Rabs_R0. split; assumption.
Qed.

Lemma sat_no_false_negative_witness :
  OrientedRect.intersects_aabb (OrientedRect.mk 10 96 90 160 (PI / 6))
                               (Rect.mk 0 0 512 512) = true.
Proof.
  apply sat_no_false_negative with (x := 10%R) (y := 96%R).
  - unfold in_box, Rect.xmin, Rect.xmax, Rect.ymin, Rect.ymax.
    cbn [Rect.cx Rect.cy Rect.hw Rect.hh]. lra.
  - apply (center_in_viewport (OrientedRect.mk 10 96 90 160 (PI / 6)));
      cbn [OrientedRect.hw OrientedRect.hh]; lra.
Defined.

Lemma contains_aabb_true (v : OrientedRect.t) (r : Rect.t) :
  OrientedRect.contains_aabb v r = true
  <-> (OrientedRect.contains_point v (Rect.xmin r) (Rect.ymin r) = true
       /\ OrientedRect.contains_point v (Rect.xmin r) (Rect.ymax r) = true
       /\ OrientedRect.contains_point v (Rect.xmax r) (Rect.ymax r) = true
       /\ OrientedRect.contains_point v (Rect.xmax r) (Rect.ymin r) = true).
Proof.
  unfold OrientedRect.contains_aabb, Rect.corners. cbn [forallb fst snd].
  rewrite !andb_true_iff. tauto.
Qed.

(** X6.  A box with non-negative half-extents that the viewport fully
    contains also intersects it. *)
Theorem contains_implies_intersects (v : OrientedRect.t) (r : Rect.t) :
  (0 <= Rect.hw r)%R -> (0 <= Rect.hh r)%R ->
  OrientedRect.contains_aabb v r = true ->
  OrientedRect.intersects_aabb v r = true.
Proof.
  intros Hw Hh H. apply contains_aabb_true in H. destruct H as (H0 & _).
  apply common_point_intersects with (x := Rect.xmin r) (y := Rect.ymin r);
    [|exact H0].
  unfold in_box, Rect.xmin, Rect.xmax, Rect.ymin, Rect.ymax. lra.
Qed.

(** The local coordinates are affine in the world point, so a bound that
    holds at the four corners of a box holds at every point
    (cx + a hw, cy + b hh) with a and b in [-1, 1]. *)
Lemma contains_point_in_hull (v : OrientedRect.t) (r : Rect.t) (a b : R) :
  (-1 <= a <= 1)%R -> (-1 <= b <= 1)%R ->
  OrientedRect.contains_aabb v r = true ->
  OrientedRect.contains_point v (Rect.cx r + a * Rect.hw r)
                                (Rect.cy r + b * Rect.hh r) = true.
Proof.
  intros Ha Hb H. apply contains_aabb_true in H.
  destruct H as (H0 & H1 & H2 & H3).
  rewrite contains_point_true in *.
  unfold OrientedRect.to_local, Rect.xmin, Rect.xmax, Rect.ymin, Rect.ymax in *.
  cbn [fst snd] in *.
  set (c := cos _) in *. set (s := sin _) in *.
  set (W := OrientedRect.hw v) in *. set (H := OrientedRect.hh v) in *.
  rewrite !Rabs_le_bounds in *.
  set (dx := (Rect.cx r - OrientedRect.cx v)%R).
  set (dy := (Rect.cy r - OrientedRect.cy v)%R).
  set (w := Rect.hw r) in *. set (h := Rect.hh r) in *.
  (* the four linear forms at the corners *)
  assert (E : forall p q : R,
             (c * (Rect.cx r + p * w - OrientedRect.cx v)
              + s * (Rect.cy r + q * h - OrientedRect.cy v)
              = (c * dx + s * dy) + p * (c * w) + q * (s * h))%R
             /\ (- s * (Rect.cx r + p * w - OrientedRect.cx v)
                 + c * (Rect.cy r + q * h - OrientedRect.cy v)
                 = (- s * dx + c * dy) + p * (- s * w) + q * (c * h))%R)
    by (intros p q; subst dx dy; split; ring).
  replace (Rect.cx r - w)%R with (Rect.cx r + (-1) * w)%R in * by ring.
  replace (Rect.cy r - h)%R with (Rect.cy r + (-1) * h)%R in * by ring.
  replace (Rect.cx r + w)%R with (Rect.cx r + 1 * w)%R in * by ring.
  replace (Rect.cy r + h)%R with (Rect.cy r + 1 * h)%R in * by ring.
  rewrite !(proj1 (E _ _)), !(proj2 (E _ _)) in *.
  set (L := (c * dx + s * dy)%R) in *. set (P := (c * w)%R) in *.
  set (Q := (s * h)%R) in *.
  set (L' := (- s * dx + c * dy)%R) in *. set (P' := (- s * w)%R) in *.
  set (Q' := (c * h)%R) in *.
  assert (HaP : (- Rabs P <= a * P <= Rabs P)%R).
  { apply Rabs_le_bounds. rewrite Rabs_mult.
    rewrite <- (Rmult_1_l (Rabs P)) at 2.
    apply Rmult_le_compat_r; [apply Rabs_pos | apply Rabs_le_bounds; lra]. }
  assert (HbQ : (- Rabs Q <= b * Q <= Rabs Q)%R).
  { apply Rabs_le_bounds. rewrite Rabs_mult.
    rewrite <- (Rmult_1_l (Rabs Q)) at 2.
    apply Rmult_le_compat_r; [apply Rabs_pos | apply Rabs_le_bounds; lra]. }
  assert (HaP' : (- Rabs P' <= a * P' <= Rabs P')%R).
  { apply Rabs_le_bounds. rewrite Rabs_mult.
    rewrite <- (Rmult_1_l (Rabs P')) at 2.
    apply Rmult_le_compat_r; [apply Rabs_pos | apply Rabs_le_bounds; lra]. }
  assert (HbQ' : (- Rabs Q' <= b * Q' <= Rabs Q')%R).
  { apply Rabs_le_bounds. rewrite Rabs_mult.
    rewrite <- (Rmult_1_l (Rabs Q')) at 2.
    apply Rmult_le_compat_r; [apply Rabs_pos | apply Rabs_le_bounds; lra]. }
  unfold Rabs in HaP, HbQ, HaP', HbQ'.
  destruct (Rcase_abs P), (Rcase_abs Q), (Rcase_abs P'), (Rcase_abs Q'); lra.
Qed.

(** X7.  Containment passes down the tree: when the viewport fully
    contains a box, it fully contains each of its four quadrants. *)
Theorem contains_aabb_quadrants (v : OrientedRect.t) (r : Rect.t) (i : Z) :
  quadrant_index i ->
  OrientedRect.contains_aabb v r = true ->
  OrientedRect.contains_aabb v (child_rect r i) = true.
Proof.
  intros Hi H. rewrite (child_rect_bits r Hi).
  apply contains_aabb_true.
  unfold Rect.xmin, Rect.xmax, Rect.ymin, Rect.ymax.
  cbn [Rect.cx Rect.cy Rect.hw Rect.hh].
  assert (K : forall a b : R, (-1 <= a <= 1)%R -> (-1 <= b <= 1)%R ->
              forall x y : R,
                x = (Rect.cx r + a * Rect.hw r)%R ->
                y = (Rect.cy r + b * Rect.hh r)%R ->
                OrientedRect.contains_point v x y = true).
  { intros a b Ha Hb x y -> ->. apply contains_point_in_hull; assumption. }
  destruct (Z.testbit i 0), (Z.testbit i 1);
    repeat split;
    first [ apply (K (-1) (-1))%R; lra | apply (K (-1) 0)%R; lra
          | apply (K (-1) 1)%R; lra | apply (K 0 (-1))%R; lra
          | apply (K 0 0)%R; lra | apply (K 0 1)%R; lra
          | apply (K 1 (-1))%R; lra | apply (K 1 0)%R; lra
          | apply (K 1 1)%R; lra ].
Qed.

Lemma unit_box_contained :
  OrientedRect.contains_aabb (OrientedRect.mk 0 0 10 10 0) (Rect.mk 0 0 1 1) = true.
Proof.
  rewrite (@contains_unrotated (OrientedRect.mk 0 0 10 10 0) eq_refl).
  unfold Plain.aabb_contains, Rect.corners, Plain.point_in_bounds, Plain.unrotated,
    Rect.xmin, Rect.xmax, Rect.ymin, Rect.ymax.
  cbn [forallb fst snd Rect.cx Rect.cy Rect.hw Rect.hh
       OrientedRect.cx OrientedRect.cy OrientedRect.hw OrientedRect.hh].
  rewrite !andb_true_iff, !Rleb_true. repeat split; lra.
Qed.

Lemma contains_implies_intersects_witness :
  OrientedRect.intersects_aabb (OrientedRect.mk 0 0 10 10 0) (Rect.mk 0 0 1 1) = true.
Proof.
  apply contains_implies_intersects.
  - cbn [Rect.hw]. lra.
  - cbn [Rect.hh]. lra.
  - apply unit_box_contained.
Defined.

Lemma contains_aabb_quadrants_witness :
  OrientedRect.contains_aabb (OrientedRect.mk 0 0 10 10 0)
                             (child_rect (Rect.mk 0 0 1 1) 3) = true.
Proof.
  apply contains_aabb_quadrants.
  - unfold quadrant_index. lia.
  - apply unit_box_contained.
Defined.

(** X8.  Broad phase: a box that intersects the viewport overlaps the
    viewport's bounding box on both world axes. *)
Theorem intersects_implies_bounds_overlap (v : OrientedRect.t) (r : Rect.t) :
  OrientedRect.intersects_aabb v r = true ->
  let b := OrientedRect.aabb_bounds v in
  (Rect.xmin b <= Rect.xmax r /\ Rect.xmin r <= Rect.xmax b
   /\ Rect.ymin b <= Rect.ymax r /\ Rect.ymin r <= Rect.ymax b)%R.
Proof.
  intros H b. subst b. rewrite intersects_aabb_true in H.
  pose proof (H (1, 0)%R (or_introl eq_refl)) as Hx.
  pose proof (H (0, 1)%R (or_intror (or_introl eq_refl))) as Hy.
  unfold OrientedRect.axes in Hx, Hy. cbn [fst snd] in Hx, Hy.
  rewrite proj_aabb_x, proj_obb_world_x in Hx.
  rewrite proj_aabb_y, proj_obb_world_y in Hy.
  apply overlap_true in Hx. apply overlap_true in Hy.
  rewrite aabb_bounds_formula.
  unfold Rect.xmin, Rect.xmax, Rect.ymin, Rect.ymax in *.
  cbn [Rect.cx Rect.cy Rect.hw Rect.hh] in *.
  set (c := cos _) in *. set (s := sin _) in *.
  assert (B : forall k t : R, (k * Rabs t <= Rabs (k * t))%R).
  { intros k t. rewrite Rabs_mult.
    apply Rmult_le_compat_r; [apply Rabs_pos | apply Rle_abs]. }
  pose proof (B (OrientedRect.hw v) c). pose proof (B (OrientedRect.hh v) s).
  pose proof (B (OrientedRect.hw v) s). pose proof (B (OrientedRect.hh v) c).
  lra.
Qed.

Lemma intersects_implies_bounds_overlap_witness :
  let b := OrientedRect.aabb_bounds (OrientedRect.mk 10 96 90 160 (PI / 6)) in
  let r := Rect.mk 0 0 512 512 in
  (Rect.xmin b <= Rect.xmax r /\ Rect.xmin r <= Rect.xmax b
   /\ Rect.ymin b <= Rect.ymax r /\ Rect.ymin r <= Rect.ymax b)%R.
Proof.
  apply (@intersects_implies_bounds_overlap
           (OrientedRect.mk 10 96 90 160 (PI / 6)) (Rect.mk 0 0 512 512)).
  apply common_point_intersects with (x := 10%R) (y := 96%R).
  - unfold in_box, Rect.xmin, Rect.xmax, Rect.ymin, Rect.ymax.
    cbn [Rect.cx Rect.cy Rect.hw Rect.hh]. lra.
  - apply (center_in_viewport (OrientedRect.mk 10 96 90 160 (PI / 6)));
      cbn [OrientedRect.hw OrientedRect.hh]; lra.
Defined.

(** * Further properties of the hash service *)

Section Words.

Local Open Scope Z_scope.

Lemma MASK64_ones : myrand.MASK64 = Z.ones 64.
Proof. reflexivity. Qed.

Lemma land_MASK64 (x : Z) : Z.land x myrand.MASK64 = x mod 2 ^ 64.
Proof. rewrite MASK64_ones. apply Z.land_ones. lia. Qed.

Lemma word_mod (x : Z) : word (x mod 2 ^ 64).
Proof. apply Z.mod_pos_bound. lia. Qed.

Lemma word_small (x : Z) : word x -> x mod 2 ^ 64 = x.
Proof. intros H. apply Z.mod_small. exact H. Qed.

Lemma word_lxor (a b : Z) : word a -> word b -> word (Z.lxor a b).
Proof.
  intros [Ha0 Ha] [Hb0 Hb]. split.
  - apply Z.lxor_nonneg. tauto.
  - destruct (Z.eq_dec (Z.lxor a b) 0) as [-> | Hne]; [lia|].
    assert (Hpos : 0 < Z.lxor a b).
    { assert (0 <= Z.lxor a b) by (apply Z.lxor_nonneg; tauto). lia. }
    apply Z.log2_lt_pow2; [exact Hpos|].
    eapply Z.le_lt_trans; [apply Z.log2_lxor; assumption|].
    apply Z.max_lub_lt.
    + destruct (Z.eq_dec a 0) as [-> | ?]; [cbn; lia|].
      apply Z.log2_lt_pow2; lia.
    + destruct (Z.eq_dec b 0) as [-> | ?]; [cbn; lia|].
      apply Z.log2_lt_pow2; lia.
Qed.

Lemma word_shiftr (a k : Z) : 0 <= k -> word a -> word (Z.shiftr a k).
Proof.
  intros Hk [Ha0 Ha]. rewrite Z.shiftr_div_pow2 by exact Hk. split.
  - apply Z.div_pos; [exact Ha0 | apply Z.pow_pos_nonneg; lia].
  - eapply Z.le_lt_trans; [|exact Ha].
    apply Z.div_le_upper_bound; [apply Z.pow_pos_nonneg; lia|].
    assert (0 < 2 ^ k) by (apply Z.pow_pos_nonneg; lia). nia.
Qed.

Lemma lxor_telescope (z a b : Z) :
  Z.lxor (Z.lxor (Z.lxor z a) (Z.lxor a b)) b = z.
Proof.
  apply Z.bits_inj'. intros n _. rewrite !Z.lxor_spec.
  destruct (Z.testbit z n), (Z.testbit a n), (Z.testbit b n); reflexivity.
Qed.

Lemma unxorshift_xorshift (k z : Z) :
  0 <= k -> 64 <= 3 * k -> word z ->
  Unmix.unxorshift k (Z.lxor z (Z.shiftr z k)) = z.
Proof.
  intros Hk H3k [Hz0 Hz]. unfold Unmix.unxorshift.
  rewrite !Z.shiftr_lxor, !Z.shiftr_shiftr by lia.
  assert (Hc : Z.shiftr z (k + (k + k)) = 0).
  { rewrite Z.shiftr_div_pow2 by lia. apply Z.div_small. split; [exact Hz0|].
    eapply Z.lt_le_trans; [exact Hz|]. apply Z.pow_le_mono_r; lia. }
  rewrite Hc, Z.lxor_0_r. apply lxor_telescope.
Qed.

Lemma unmul_mul (C Cinv z : Z) :
  (C * Cinv) mod 2 ^ 64 = 1 -> word z ->
  ((z * C) mod 2 ^ 64 * Cinv) mod 2 ^ 64 = z.
Proof.
  intros HC Hz. rewrite Z.mul_mod_idemp_l by lia.
  rewrite <- Z.mul_assoc, <- Z.mul_mod_idemp_r, HC, Z.mul_1_r by lia.
  apply word_small. exact Hz.
Qed.

(** The stages of the mixer, with the masks read as remainders. *)
Lemma splitmix64_stages (x : Z) :
  myrand.splitmix64 x
  = let z0 := (x + 0x9E3779B97F4A7C15) mod 2 ^ 64 in
    let z1 := (Z.lxor z0 (Z.shiftr z0 30) * 0xBF58476D1CE4E5B9) mod 2 ^ 64 in
    let z2 := (Z.lxor z1 (Z.shiftr z1 27) * 0x94D049BB133111EB) mod 2 ^ 64 in
    Z.lxor z2 (Z.shiftr z2 31).
Proof.
  unfold myrand.splitmix64. cbv zeta. rewrite !land_MASK64.
  apply word_small. apply word_lxor; [|apply word_shiftr; [lia|]]; apply word_mod.
Qed.

Lemma splitmix64_word (x : Z) : word (myrand.splitmix64 x).
Proof. unfold myrand.splitmix64. cbv zeta. rewrite land_MASK64. apply word_mod. Qed.

Lemma unsplitmix64_splitmix64 (x : Z) :
  Unmix.unsplitmix64 (myrand.splitmix64 x) = x mod 2 ^ 64.
Proof.
  rewrite splitmix64_stages. cbv zeta. unfold Unmix.unsplitmix64. cbv zeta.
  set (z0 := (x + _) mod _).
  assert (W0 : word z0) by apply word_mod.
  set (y0 := Z.lxor z0 (Z.shiftr z0 30)).
  assert (V0 : word y0)
    by (apply word_lxor; [|apply word_shiftr; [lia|]]; exact W0).
  set (z1 := (y0 * _) mod _).
  assert (W1 : word z1) by apply word_mod.
  set (y1 := Z.lxor z1 (Z.shiftr z1 27)).
  assert (V1 : word y1)
    by (apply word_lxor; [|apply word_shiftr; [lia|]]; exact W1).
  set (z2 := (y1 * _) mod _).
  assert (W2 : word z2) by apply word_mod.
  rewrite (@unxorshift_xorshift 31 z2) by (try lia; exact W2).
  subst z2. rewrite unmul_mul by (try reflexivity; exact V1).
  subst y1. rewrite (@unxorshift_xorshift 27 z1) by (try lia; exact W1).
  subst z1. rewrite unmul_mul by (try reflexivity; exact V0).
  subst y0. rewrite (@unxorshift_xorshift 30 z0) by (try lia; exact W0).
  subst z0. rewrite Zminus_mod_idemp_l. f_equal. ring.
Qed.

Lemma splitmix64_cancel (x y : Z) :
  myrand.splitmix64 x = myrand.splitmix64 y -> x mod 2 ^ 64 = y mod 2 ^ 64.
Proof.
  intros H. rewrite <- !unsplitmix64_splitmix64, H. reflexivity.
Qed.

Lemma splitmix64_mod (x : Z) :
  myrand.splitmix64 (x mod 2 ^ 64) = myrand.splitmix64 x.
Proof.
  rewrite !splitmix64_stages. cbv zeta.
  rewrite Zplus_mod_idemp_l. reflexivity.
Qed.

End Words.

Lemma hash64_fold_word (vals : list Z) (h : Z) :
  word h ->
  word (fold_left (fun h v => myrand.splitmix64 (Z.lxor h (Z.land v myrand.MASK64)))
                  vals h).
Proof.
  revert h. induction vals as [|v vals IH]; intros h Hh; [exact Hh|].
  cbn [fold_left]. apply IH, splitmix64_word.
Qed.

Lemma hash64_word (vals : list Z) : word (myrand.hash64 vals).
Proof.
  unfold myrand.hash64. apply hash64_fold_word.
  split; [discriminate | reflexivity].
Qed.

(** X9.  Every hash value is a 64-bit unsigned integer, whatever integers
    (negative or wider than 64 bits) go in: the mixer, the fold of a
    value list, tile keys and star identifiers all lie in [0, 2^64). *)
Theorem hash_values_are_64_bit (x world_seed depth gx gy tile i : Z) (vals : list Z) :
  word (myrand.splitmix64 x)
  /\ word (myrand.hash64 vals)
  /\ word (myrand.tile_key world_seed depth gx gy)
  /\ word (myrand.star_id tile i).
Proof.
  split; [apply splitmix64_word|].
  split; [apply hash64_word|].
  split; apply hash64_word.
Qed.

Lemma hash64_fold_mod (vals : list Z) (h : Z) :
  fold_left (fun h v => myrand.splitmix64 (Z.lxor h (Z.land v myrand.MASK64)))
            (map (fun v => (v mod 2 ^ 64)%Z) vals) h
  = fold_left (fun h v => myrand.splitmix64 (Z.lxor h (Z.land v myrand.MASK64)))
              vals h.
Proof.
  revert h. induction vals as [|v vals IH]; intros h; [reflexivity|].
  cbn [map fold_left]. rewrite IH, !land_MASK64, Z.mod_mod by lia. reflexivity.
Qed.

(** X10.  The hash reads every input modulo 2^64: an integer and its
    64-bit two's-complement residue give the same mixer output, the same
    list hash and the same uniform draw. *)
Theorem hash_reads_inputs_modulo_2_64 (x seed tag : Z) (vals : list Z) :
  myrand.splitmix64 (x mod 2 ^ 64) = myrand.splitmix64 x
  /\ myrand.hash64 (map (fun v => (v mod 2 ^ 64)%Z) vals) = myrand.hash64 vals
  /\ myrand.u01 seed (tag mod 2 ^ 64) = myrand.u01 seed tag.
Proof.
  split; [apply splitmix64_mod|].
  split; [apply hash64_fold_mod|].
  unfold myrand.u01, myrand.u01_bits. cbv zeta.
  rewrite !land_MASK64, Z.mul_mod_idemp_l by lia. reflexivity.
Qed.

(** X11.  The mixer is one-to-one on 64-bit words: two inputs give the
    same output exactly when they agree modulo 2^64, and the chain of
    inverse stages recovers the input word from the output. *)
Theorem splitmix64_injective (x y : Z) :
  (myrand.splitmix64 x = myrand.splitmix64 y
   <-> (x mod 2 ^ 64 = y mod 2 ^ 64)%Z)
  /\ Unmix.unsplitmix64 (myrand.splitmix64 x) = (x mod 2 ^ 64)%Z.
Proof.
  split; [split|].
  - apply splitmix64_cancel.
  - intros H. rewrite <- (splitmix64_mod x), <- (splitmix64_mod y), H.
    reflexivity.
  - apply unsplitmix64_splitmix64.
Qed.

Lemma lxor_cancel_l (h a b : Z) : Z.lxor h a = Z.lxor h b -> a = b.
Proof.
  intros H. apply (f_equal (Z.lxor h)) in H.
  rewrite <- !Z.lxor_assoc, Z.lxor_nilpotent, !Z.lxor_0_l in H. exact H.
Qed.

Lemma hash64_snoc (vals : list Z) (v : Z) :
  myrand.hash64 (vals ++ [v])
  = myrand.splitmix64 (Z.lxor (myrand.hash64 vals) (Z.land v myrand.MASK64)).
Proof. unfold myrand.hash64. rewrite fold_left_app. reflexivity. Qed.

Lemma star_id_last_stage (seed i : Z) :
  myrand.star_id seed i
  = myrand.splitmix64
      (Z.lxor (myrand.hash64 [myrand.STAR_DOMAIN; seed]) (Z.land i myrand.MASK64)).
Proof.
  unfold myrand.star_id.
  change [myrand.STAR_DOMAIN; seed; i] with ([myrand.STAR_DOMAIN; seed] ++ [i]).
  apply hash64_snoc.
Qed.

Lemma xor_key_inj (h i j : Z) :
  word h -> word i -> word j ->
  ((Z.lxor h (i mod 2 ^ 64)) mod 2 ^ 64 = (Z.lxor h (j mod 2 ^ 64)) mod 2 ^ 64)%Z ->
  i = j.
Proof.
  intros Hh Hi Hj H.
  rewrite (word_small Hi), (word_small Hj) in H.
  rewrite (word_small (word_lxor Hh Hi)), (word_small (word_lxor Hh Hj)) in H.
  exact (lxor_cancel_l _ _ _ H).
Qed.

(* The implicit-argument analysis would unfold the hash in the statement. *)
Unset Implicit Arguments.

Lemma star_id_inj (seed i j : Z) :
  word i -> word j -> myrand.star_id seed i = myrand.star_id seed j -> i = j.
Proof.
  intros Hi Hj H. rewrite !star_id_last_stage in H.
  apply splitmix64_cancel in H. rewrite !land_MASK64 in H.
  exact (@xor_key_inj (myrand.hash64 [myrand.STAR_DOMAIN; seed]) i j
           (hash64_word [myrand.STAR_DOMAIN; seed]) Hi Hj H).
Qed.

Set Implicit Arguments.

Lemma NoDup_map_on {A B : Type} (f : A -> B) (l : list A) :
  (forall x y, In x l -> In y l -> f x = f y -> x = y) ->
  NoDup l -> NoDup (map f l).
Proof.
  intros Hinj Hl. induction Hl as [|a l Ha Hl IH]; cbn; constructor.
  - intros Hin. apply in_map_iff in Hin. destruct Hin as (b & Hb & Hbl).
    apply Hinj in Hb; [|right; exact Hbl | left; reflexivity].
    subst b. contradiction.
  - apply IH. intros x y Hx Hy. apply Hinj; right; assumption.
Qed.

Lemma range_In (n i : Z) : In i (range n) -> (0 <= i < n)%Z.
Proof.
  unfold range. intros H. apply in_map_iff in H.
  destruct H as (k & <- & Hk). apply in_seq in Hk. lia.
Qed.

Lemma range_NoDup (n : Z) : NoDup (range n).
Proof.
  unfold range. apply NoDup_map_on; [|apply seq_NoDup].
  intros x y _ _ H. lia.
Qed.

Lemma star_ids_of_stars_local (n : QuadNode.t) :
  map starID (QuadNode.stars_local n)
  = map (myrand.star_id (QuadNode.tileID n)) (range (QuadNode.star_count n)).
Proof.
  unfold QuadNode.stars_local. cbv zeta. rewrite map_map. reflexivity.
Qed.

(** X12.  The stars of one node carry pairwise distinct identifiers, as
    long as the node has at most 2^64 stars. *)
Theorem star_ids_distinct (r : Rect.t) (t m : QuadNode.t) :
  reachable r t -> subnode m t ->
  (QuadNode.star_count m <= 2 ^ 64)%Z ->
  NoDup (map starID (snd (QuadNode.generate_stars m))).
Proof.
  intros Hr Hm Hn.
  rewrite (reachable_content Hr Hm), star_ids_of_stars_local.
  apply NoDup_map_on; [|apply range_NoDup].
  intros i j Hi Hj. apply range_In in Hi. apply range_In in Hj.
  apply (star_id_inj (QuadNode.tileID m)); unfold word; lia.
Qed.

Lemma root_star_count (rect : Rect.t) :
  QuadNode.star_count (fresh_root rect) = 1%Z.
Proof.
  unfold QuadNode.star_count.
  pose proof (variation_bound (fresh_root rect)) as Hv.
  change (QuadNode.n_expected (fresh_root rect)) with 1%Z in *.
  assert (H1 : (Rabs (IZR (QuadNode.variation (fresh_root rect))) < 1)%R) by lra.
  rewrite <- abs_IZR in H1. apply lt_IZR in H1. lia.
Qed.

Lemma star_ids_distinct_witness :
  let m := fresh_root (Rect.mk 0 0 512 512) in
  NoDup (map starID (snd (QuadNode.generate_stars m))).
Proof.
  intros m.
  apply (@star_ids_distinct (Rect.mk 0 0 512 512) m m).
  - apply reach_fresh.
  - apply sub_here.
  - unfold m. rewrite root_star_count. discriminate.
Defined.

(** * Further properties of nodes and their content *)

Lemma rect_of_path_nonneg (r : Rect.t) (p : list Z) :
  (0 <= Rect.hw r)%R -> (0 <= Rect.hh r)%R -> Forall quadrant_index p ->
  (0 <= Rect.hw (rect_of_path r p))%R /\ (0 <= Rect.hh (rect_of_path r p))%R.
Proof.
  intros Hw Hh Hp.
  destruct (rect_of_path_grid r Hp) as (-> & -> & _).
  assert (H2 : (0 < 2 ^ length p)%R) by (apply pow_lt; lra).
  split; apply Rmult_le_pos; try assumption;
    left; apply Rinv_0_lt_compat; exact H2.
Qed.

Lemma make_star_inside (n : QuadNode.t) (seed i : Z) :
  (0 <= Rect.hw (QuadNode.rect n))%R -> (0 <= Rect.hh (QuadNode.rect n))%R ->
  in_box (QuadNode.rect n) (star_x (QuadNode.make_star n seed i))
                           (star_y (QuadNode.make_star n seed i))
  /\ (0 <= brightness (QuadNode.make_star n seed i) < 1)%R.
Proof.
  intros Hw Hh. split; [|apply u01_range].
  unfold QuadNode.make_star, star_x, star_y. cbn [position fst snd].
  pose proof (u01_range seed (2 * i)) as [Hx0 Hx1].
  pose proof (u01_range seed (2 * i + 1)) as [Hy0 Hy1].
  set (ux := myrand.u01 seed (2 * i)) in *.
  set (uy := myrand.u01 seed (2 * i + 1)) in *.
  unfold in_box, Rect.xmin, Rect.xmax, Rect.ymin, Rect.ymax, Rect.w, Rect.h.
  set (w := Rect.hw (QuadNode.rect n)) in *.
  set (h := Rect.hh (QuadNode.rect n)) in *.
  assert (A1 : (0 <= ux * w)%R) by (apply Rmult_le_pos; assumption).
  assert (A2 : (ux * w <= 1 * w)%R) by (apply Rmult_le_compat_r; lra).
  assert (B1 : (0 <= uy * h)%R) by (apply Rmult_le_pos; assumption).
  assert (B2 : (uy * h <= 1 * h)%R) by (apply Rmult_le_compat_r; lra).
  lra.
Qed.

(** X13.  In a tree grown from a root box with non-negative half-extents,
    every star of every node lies inside the box of its node, and its
    brightness lies in [0, 1). *)
Theorem stars_inside_box (r : Rect.t) (t m : QuadNode.t) (s : StarStub) :
  reachable r t -> (0 <= Rect.hw r)%R -> (0 <= Rect.hh r)%R ->
  subnode m t -> In s (snd (QuadNode.generate_stars m)) ->
  in_box (QuadNode.rect m) (star_x s) (star_y s)
  /\ (0 <= brightness s < 1)%R.
Proof.
  intros Hr Hw Hh Hm Hs.
  rewrite (reachable_content Hr Hm) in Hs.
  destruct (reachable_rect Hr Hm) as (Hrect & _ & Hp).
  destruct (rect_of_path_nonneg r Hw Hh Hp) as [Hw' Hh'].
  rewrite <- Hrect in Hw', Hh'.
  unfold QuadNode.stars_local in Hs. cbv zeta in Hs.
  apply in_map_iff in Hs. destruct Hs as (i & <- & _).
  apply make_star_inside; assumption.
Qed.

Lemma first_star_exists (n : QuadNode.t) :
  In (QuadNode.make_star n (QuadNode.tileID n) 0) (QuadNode.stars_local n).
Proof.
  unfold QuadNode.stars_local. cbv zeta. apply in_map.
  unfold range. pose proof (star_count_pos n) as Hn.
  destruct (Z.to_nat (QuadNode.star_count n)) as [|k] eqn:E; [lia|].
  cbn. left. reflexivity.
Qed.

Lemma stars_inside_box_witness :
  let m := fresh_root (Rect.mk 0 0 512 512) in
  let s := QuadNode.make_star m (QuadNode.tileID m) 0 in
  in_box (QuadNode.rect m) (star_x s) (star_y s) /\ (0 <= brightness s < 1)%R.
Proof.
  intros m s.
  apply (@stars_inside_box (Rect.mk 0 0 512 512) m m s).
  - apply reach_fresh.
  - cbn [Rect.hw]. lra.
  - cbn [Rect.hh]. lra.
  - apply sub_here.
  - change (snd (QuadNode.generate_stars m)) with (QuadNode.stars_local m).
    apply first_star_exists.
Defined.

(** ** Grid positions identify nodes *)

Lemma position_of_path_bound (p : list Z) :
  Forall quadrant_index p ->
  (0 <= fst (QuadNode.position_of_path p) < 2 ^ Z.of_nat (length p)
   /\ 0 <= snd (QuadNode.position_of_path p) < 2 ^ Z.of_nat (length p))%Z.
Proof.
  induction p as [|i p IH] using rev_ind; intros Hp.
  - cbn. lia.
  - apply Forall_app in Hp. destruct Hp as [Hp Hi]. inversion_clear Hi.
    destruct (IH Hp) as [[Hx0 Hx] [Hy0 Hy]].
    rewrite position_of_path_snoc, node_position_step_bits by assumption.
    cbn [fst snd]. rewrite length_app, Nat2Z.inj_add. cbn [length].
    rewrite Z.pow_add_r by lia. change (2 ^ Z.of_nat 1)%Z with 2%Z.
    destruct (Z.testbit i 0), (Z.testbit i 1); cbn [Z.b2z]; lia.
Qed.

Lemma quadrant_index_bits (i j : Z) :
  quadrant_index i -> quadrant_index j ->
  Z.testbit i 0 = Z.testbit j 0 -> Z.testbit i 1 = Z.testbit j 1 -> i = j.
Proof.
  intros Hi Hj.
  destruct (quadrant_index_cases Hi) as [-> | [-> | [-> | ->]]];
    destruct (quadrant_index_cases Hj) as [-> | [-> | [-> | ->]]];
    cbn; intros; congruence.
Qed.

Lemma position_of_path_inj (p : list Z) :
  forall q,
    Forall quadrant_index p -> Forall quadrant_index q ->
    length p = length q ->
    QuadNode.position_of_path p = QuadNode.position_of_path q -> p = q.
Proof.
  induction p as [|i p IH] using rev_ind; intros q Hp Hq Hlen Heq.
  - destruct q; [reflexivity | discriminate].
  - destruct q as [|j q _] using rev_ind.
    { rewrite length_app in Hlen. cbn in Hlen. lia. }
    apply Forall_app in Hp. destruct Hp as [Hp Hi]. inversion_clear Hi.
    apply Forall_app in Hq. destruct Hq as [Hq Hj]. inversion_clear Hj.
    rewrite !length_app in Hlen. cbn [length] in Hlen.
    destruct (position_of_path_nonneg Hp) as [Hpx Hpy].
    destruct (position_of_path_nonneg Hq) as [Hqx Hqy].
    assert (Hbits : Z.testbit i 0 = Z.testbit j 0 ->
                    Z.testbit i 1 = Z.testbit j 1 -> i = j)
      by (apply quadrant_index_bits; assumption).
    revert Hbits.
    rewrite !position_of_path_snoc in Heq.
    rewrite !node_position_step_bits in Heq by assumption.
    apply pair_equal_spec in Heq. destruct Heq as [Hx Hy].
    generalize dependent (Z.testbit i 0). generalize dependent (Z.testbit i 1).
    generalize dependent (Z.testbit j 0). generalize dependent (Z.testbit j 1).
    intros j1 j0 i1 Hy i0 Hx.
    assert (Eb0 : i0 = j0)
      by (destruct i0, j0; cbn [Z.b2z] in Hx; try reflexivity; lia).
    assert (Eb1 : i1 = j1)
      by (destruct i1, j1; cbn [Z.b2z] in Hy; try reflexivity; lia).
    subst j0 j1. intros Hbits.
    f_equal.
    + apply IH; [assumption | assumption | lia |].
      destruct (QuadNode.position_of_path p), (QuadNode.position_of_path q).
      cbn [fst snd] in *. f_equal; lia.
    + f_equal. apply Hbits; reflexivity.
Qed.

(** X14.  The grid position of a node of depth d lies in
    [0, 2^d) x [0, 2^d), and the key (depth, x, y) identifies the node:
    two nodes of trees grown from the same root box with equal keys have
    the same path and the same box. *)
Theorem node_key_identifies_node (r : Rect.t) (t1 t2 n1 n2 : QuadNode.t) :
  reachable r t1 -> reachable r t2 -> subnode n1 t1 -> subnode n2 t2 ->
  (0 <= fst (QuadNode.node_position n1) < 2 ^ QuadNode.depth n1
   /\ 0 <= snd (QuadNode.node_position n1) < 2 ^ QuadNode.depth n1)%Z
  /\ (QuadNode.node_key n1 = QuadNode.node_key n2 ->
      QuadNode.path n1 = QuadNode.path n2
      /\ QuadNode.rect n1 = QuadNode.rect n2).
Proof.
  intros H1 H2 S1 S2.
  destruct (reachable_rect H1 S1) as (Hr1 & Hd1 & Hp1).
  destruct (reachable_rect H2 S2) as (Hr2 & Hd2 & Hp2).
  split.
  - rewrite Hd1. apply position_of_path_bound. exact Hp1.
  - unfold QuadNode.node_key, QuadNode.node_position. intros Hk.
    injection Hk as Hd Hx Hy.
    assert (Hpath : QuadNode.path n1 = QuadNode.path n2).
    { apply position_of_path_inj; try assumption; [lia|].
      destruct (QuadNode.position_of_path (QuadNode.path n1)),
               (QuadNode.position_of_path (QuadNode.path n2)).
      cbn [fst snd] in *. congruence. }
    split; [exact Hpath|]. rewrite Hr1, Hr2, Hpath. reflexivity.
Qed.

Lemma node_key_identifies_node_witness :
  let r := Rect.mk 0 0 512 512 in
  let t := QuadNode.subdivide (fresh_root r) in
  (0 <= fst (QuadNode.node_position t) < 2 ^ QuadNode.depth t
   /\ 0 <= snd (QuadNode.node_position t) < 2 ^ QuadNode.depth t)%Z.
Proof.
  intros r t.
  apply (@node_key_identifies_node r t t t t).
  - eapply reach_step; [apply reach_fresh | apply step_subdivide].
  - eapply reach_step; [apply reach_fresh | apply step_subdivide].
  - apply sub_here.
  - apply sub_here.
Defined.

(** ** The Morton code is the path in base 4 *)

Local Abbreviation morton_step x y :=
  (fun code i : Z =>
     Z.lor (Z.lor code (Z.shiftl (Z.land (Z.shiftr x i) 1) (2 * i)))
           (Z.shiftl (Z.land (Z.shiftr y i) 1) (2 * i + 1))).

Lemma lor_double (a c : Z) (b : bool) :
  Z.lor (2 * a + Z.b2z b) (2 * c) = (2 * Z.lor a c + Z.b2z b)%Z.
Proof.
  apply Z.bits_inj'. intros n Hn. rewrite Z.lor_spec.
  destruct (Z.eq_dec n 0) as [-> | Hne].
  - rewrite !Z.testbit_0_r, Z.testbit_even_0. apply orb_false_r.
  - replace n with (Z.succ (n - 1)) by lia.
    rewrite !Z.testbit_succ_r, Z.testbit_even_succ, Z.lor_spec by lia.
    reflexivity.
Qed.

Lemma lor_quad (a c : Z) (b0 b1 : bool) :
  Z.lor (Z.b2z b0 + 2 * Z.b2z b1 + 4 * a) (4 * c)
  = (Z.b2z b0 + 2 * Z.b2z b1 + 4 * Z.lor a c)%Z.
Proof.
  replace (Z.b2z b0 + 2 * Z.b2z b1 + 4 * a)%Z
    with (2 * (2 * a + Z.b2z b1) + Z.b2z b0)%Z by ring.
  replace (4 * c)%Z with (2 * (2 * c))%Z by ring.
  rewrite !lor_double. ring.
Qed.

Lemma shiftr_double (x i : Z) (b : bool) :
  (0 <= i)%Z ->
  Z.shiftr (2 * x + Z.b2z b) (Z.succ i) = Z.shiftr x i.
Proof.
  intros Hi. rewrite <- Z.add_1_l, <- Z.shiftr_shiftr by exact Hi.
  f_equal. rewrite Z.shiftr_div_pow2 by lia. change (2 ^ 1)%Z with 2%Z.
  rewrite Z.add_comm. apply Z.add_b2z_double_div2.
Qed.

Lemma land_1_double (x : Z) (b : bool) : Z.land (2 * x + Z.b2z b) 1 = Z.b2z b.
Proof.
  change 1%Z with (Z.ones 1) at 1. rewrite Z.land_ones by lia.
  change (2 ^ 1)%Z with 2%Z.
  rewrite Z.add_comm, Z.mul_comm, Z_mod_plus_full. destruct b; reflexivity.
Qed.

Lemma land_1_bit (z : Z) : exists b : bool, Z.land z 1 = Z.b2z b.
Proof.
  exists (Z.odd z). change 1%Z with (Z.ones 1) at 1.
  rewrite Z.land_ones by lia. change (2 ^ 1)%Z with 2%Z.
  rewrite Zmod_odd. destruct (Z.odd z); reflexivity.
Qed.

Lemma shiftl_two_more (t i k : Z) :
  (0 <= i)%Z -> (0 <= k)%Z ->
  Z.shiftl t (2 * Z.succ i + k) = (4 * Z.shiftl t (2 * i + k))%Z.
Proof.
  intros Hi Hk. rewrite !Z.shiftl_mul_pow2 by lia.
  replace (2 * Z.succ i + k)%Z with (2 + (2 * i + k))%Z by lia.
  rewrite Z.pow_add_r by lia. change (2 ^ 2)%Z with 4%Z. ring.
Qed.

Lemma morton_step_shift (x y acc i : Z) (bx by_ : bool) :
  (0 <= i)%Z ->
  morton_step (2 * x + Z.b2z bx)%Z (2 * y + Z.b2z by_)%Z
              (Z.b2z bx + 2 * Z.b2z by_ + 4 * acc)%Z (Z.succ i)
  = (Z.b2z bx + 2 * Z.b2z by_ + 4 * morton_step x y acc i)%Z.
Proof.
  intros Hi. cbv beta. rewrite !shiftr_double by exact Hi.
  pose proof (@shiftl_two_more (Z.land (Z.shiftr x i) 1) i 0 Hi (Z.le_refl 0)) as Ex.
  rewrite !Z.add_0_r in Ex. rewrite Ex.
  rewrite (@shiftl_two_more (Z.land (Z.shiftr y i) 1) i 1) by lia.
  rewrite !lor_quad. reflexivity.
Qed.

Lemma morton_fold_shift (x y : Z) (bx by_ : bool) (l : list Z) :
  forall acc,
    Forall (fun i => 0 <= i)%Z l ->
    fold_left (morton_step (2 * x + Z.b2z bx)%Z (2 * y + Z.b2z by_)%Z)
              (map Z.succ l) (Z.b2z bx + 2 * Z.b2z by_ + 4 * acc)%Z
    = (Z.b2z bx + 2 * Z.b2z by_
       + 4 * fold_left (morton_step x y) l acc)%Z.
Proof.
  induction l as [|i l IH]; intros acc Hl; [reflexivity|].
  inversion_clear Hl as [|? ? Hi Hl'].
  cbn [map fold_left].
  rewrite (@morton_step_shift x y acc i bx by_ Hi). apply IH. exact Hl'.
Qed.

Lemma morton_first_step (x y : Z) (bx by_ : bool) :
  morton_step (2 * x + Z.b2z bx)%Z (2 * y + Z.b2z by_)%Z 0%Z 0%Z
  = (Z.b2z bx + 2 * Z.b2z by_ + 4 * 0)%Z.
Proof.
  cbv beta. rewrite !Z.shiftr_0_r, !land_1_double.
  change (2 * 0)%Z with 0%Z. change (0 + 1)%Z with 1%Z.
  rewrite Z.shiftl_0_r, Z.lor_0_l.
  destruct bx, by_; reflexivity.
Qed.

Lemma range_succ (d : nat) :
  range (Z.of_nat (S d)) = 0%Z :: map Z.succ (range (Z.of_nat d)).
Proof.
  unfold range. rewrite !Nat2Z.id. cbn [seq map]. f_equal.
  rewrite <- seq_shift, !map_map. apply map_ext. intros k. lia.
Qed.

Lemma range_nonneg (n : Z) : Forall (fun i => 0 <= i)%Z (range n).
Proof. apply Forall_forall. intros i Hi. apply range_In in Hi. lia. Qed.

Lemma path_base4_snoc (p : list Z) (i : Z) :
  path_base4 (p ++ [i]) = (4 * path_base4 p + i)%Z.
Proof. unfold path_base4. rewrite fold_left_app. reflexivity. Qed.

Lemma quadrant_index_value (i : Z) :
  quadrant_index i ->
  i = (Z.b2z (Z.testbit i 0) + 2 * Z.b2z (Z.testbit i 1))%Z.
Proof.
  intros Hi. destruct (quadrant_index_cases Hi) as [-> | [-> | [-> | ->]]];
    reflexivity.
Qed.

Lemma morton_fold_base4 (p : list Z) :
  Forall quadrant_index p ->
  fold_left (morton_step (fst (QuadNode.position_of_path p))
                         (snd (QuadNode.position_of_path p)))
            (range (Z.of_nat (length p))) 0%Z
  = path_base4 p.
Proof.
  induction p as [|i p IH] using rev_ind; intros Hp; [reflexivity|].
  apply Forall_app in Hp. destruct Hp as [Hp Hi]. inversion_clear Hi as [|? ? Hi' _].
  destruct (position_of_path_nonneg Hp) as [Hx Hy].
  rewrite position_of_path_snoc, node_position_step_bits by assumption.
  cbn [fst snd]. rewrite length_app, Nat.add_comm. cbn [length Nat.add].
  rewrite range_succ. cbn [fold_left].
  rewrite morton_first_step, morton_fold_shift by apply range_nonneg.
  rewrite (IH Hp), path_base4_snoc.
  rewrite (quadrant_index_value Hi') at 3. ring.
Qed.

Lemma path_base4_bound (p : list Z) :
  Forall quadrant_index p ->
  (0 <= path_base4 p < 4 ^ Z.of_nat (length p))%Z.
Proof.
  induction p as [|i p IH] using rev_ind; intros Hp; [cbn; lia|].
  apply Forall_app in Hp. destruct Hp as [Hp Hi]. inversion_clear Hi as [|? ? Hi' _].
  specialize (IH Hp). rewrite path_base4_snoc, length_app, Nat2Z.inj_add.
  cbn [length]. rewrite Z.pow_add_r by lia. change (4 ^ Z.of_nat 1)%Z with 4%Z.
  unfold quadrant_index in Hi'. lia.
Qed.

(** X15.  The Morton code of a node of a reachable tree is its path read
    as a base-4 number (most significant step first), and so lies in
    [0, 4^depth). *)
Theorem morton_code_is_path_base4 (r : Rect.t) (t m : QuadNode.t) :
  reachable r t -> subnode m t ->
  QuadNode.morton_code m = path_base4 (QuadNode.path m)
  /\ (0 <= QuadNode.morton_code m < 4 ^ QuadNode.depth m)%Z.
Proof.
  intros Hr Hm. destruct (reachable_rect Hr Hm) as (_ & Hd & Hp).
  assert (E : QuadNode.morton_code m = path_base4 (QuadNode.path m)).
  { unfold QuadNode.morton_code, QuadNode.node_position.
    rewrite Hd, <- (morton_fold_base4 Hp).
    destruct (QuadNode.position_of_path (QuadNode.path m)). reflexivity. }
  split; [exact E|]. rewrite E, Hd. apply path_base4_bound. exact Hp.
Qed.

Lemma morton_code_is_path_base4_witness :
  let r := Rect.mk 0 0 512 512 in
  let t := QuadNode.subdivide (fresh_root r) in
  QuadNode.morton_code t = path_base4 (QuadNode.path t)
  /\ (0 <= QuadNode.morton_code t < 4 ^ QuadNode.depth t)%Z.
Proof.
  intros r t.
  apply (@morton_code_is_path_base4 r t t).
  - eapply reach_step; [apply reach_fresh | apply step_subdivide].
  - apply sub_here.
Defined.

(** * Further properties of queries *)

Lemma traverse_children_replay
      (trav : QuadNode.t -> result (QuadNode.t * list QuadNode.t))
      (rs : list (QuadNode.t * list QuadNode.t)) :
  Forall (fun r => trav (fst r) = Ok r) rs ->
  QuadNode.traverse_children trav (map fst rs)
  = Ok (map fst rs, concat (map snd rs)).
Proof.
  induction 1 as [|r rs Hr _ IH]; [reflexivity|].
  cbn [map QuadNode.traverse_children concat]. rewrite Hr. cbn [bind].
  rewrite IH. reflexivity.
Qed.

(** A second traversal with the same arguments finds the tree as the
    first one left it, and records the same nodes. *)
Lemma traverse_rec_replay viewport stop max_depth :
  (forall a b, same_address a b -> stop a viewport = stop b viewport) ->
  forall fuel n n' vis,
    QuadNode.traverse_rec fuel viewport stop max_depth n = Ok (n', vis) ->
    QuadNode.traverse_rec fuel viewport stop max_depth n' = Ok (n', vis).
Proof.
  intros Hstop.
  induction fuel as [|fuel IH]; intros n n' vis; [discriminate|].
  intros Ht. pose proof (traverse_rec_same _ _ _ _ _ Ht) as [Haddr _].
  revert Ht. rewrite !traverse_rec_S.
  destruct Haddr as (Hr & Hd & Hp). rewrite Hr, Hd.
  rewrite <- (Hstop n n') by (repeat split; assumption).
  destruct (negb _).
  { intros H; injection H as <- <-. reflexivity. }
  cbv zeta. destruct (match max_depth with Some _ => _ | None => _ end).
  { intros H; injection H as <- <-. reflexivity. }
  intros H. apply bind_Ok in H. destruct H as ([ks vs] & Hrs & H).
  injection H as <- <-. cbn [fst snd].
  destruct (traverse_children_inv _ _ Hrs) as (rs & HF & -> & ->).
  cbn [QuadNode.children QuadNode.set_children].
  rewrite traverse_children_replay; [reflexivity|].
  clear Hrs Hr Hd Hp. induction HF as [|c [c' v] kids rs Hc _ IHF]; constructor.
  - cbn [fst]. apply IH with (n := c). exact Hc.
  - exact IHF.
Qed.

Lemma default_stop_respects_address (D M : Z) (viewport : OrientedRect.t) :
  forall a b, same_address a b ->
    ((D <=? QuadNode.depth a)%Z || (M <=? QuadNode.depth a)%Z)
    = ((D <=? QuadNode.depth b)%Z || (M <=? QuadNode.depth b)%Z).
Proof. intros a b (_ & Hd & _). rewrite Hd. reflexivity. Qed.

Lemma update_unfold (t : QuadTree.t) viewport stop s :
  match stop with
  | None => QuadTree.default_stop_predicate t viewport
  | Some s' => Ok s'
  end = Ok s ->
  QuadTree.update t viewport stop
  = match QuadNode.traverse_rec (QuadTree.update_fuel t) viewport s
                                (Some (QuadTree.max_depth t)) (QuadTree.root t) with
    | Ok r => Ok (QuadTree.set_root t (fst r), snd r)
    | MathDomainError => MathDomainError
    | OutOfFuel => OutOfFuel
    end.
Proof.
  intros Hs. unfold QuadTree.update. rewrite Hs. cbn [bind].
  unfold QuadNode.traverse.
  destruct (QuadNode.traverse_rec _ _ _ _ _) as [[n' vis]| |]; reflexivity.
Qed.

Lemma update_inv (t : QuadTree.t) viewport stop t' vis :
  QuadTree.update t viewport stop = Ok (t', vis) ->
  exists s n',
    match stop with
    | None => QuadTree.default_stop_predicate t viewport
    | Some s' => Ok s'
    end = Ok s
    /\ QuadNode.traverse_rec (QuadTree.update_fuel t) viewport s
                             (Some (QuadTree.max_depth t)) (QuadTree.root t)
       = Ok (n', vis)
    /\ t' = QuadTree.set_root t n'.
Proof.
  intros H. unfold QuadTree.update in H.
  apply bind_Ok in H. destruct H as (s & Hs & H).
  apply bind_Ok in H. destruct H as ([n1 v1] & Ht & H).
  unfold QuadNode.traverse in Ht.
  apply bind_Ok in Ht. destruct Ht as ([n' v] & Ht & H').
  injection H' as <- <-. injection H as <- <-.
  exists s, n'. repeat split; assumption.
Qed.

Lemma default_stop_inv (t : QuadTree.t) viewport s :
  QuadTree.default_stop_predicate t viewport = Ok s ->
  exists D,
    QuadTree.desired_depth t viewport = Ok D
    /\ s = (fun node _ => (D <=? QuadNode.depth node)%Z
                          || (QuadTree.max_depth t <=? QuadNode.depth node)%Z).
Proof.
  unfold QuadTree.default_stop_predicate. intros H.
  apply bind_Ok in H. destruct H as (D & HD & H). injection H as <-.
  exists D. split; [exact HD | reflexivity].
Qed.

(** X16.  A query with the default stop predicate is idempotent: asking
    again with the same viewport leaves the tree as the first query left
    it and returns the same visited list. *)
Theorem update_idempotent (t t' : QuadTree.t) (viewport : OrientedRect.t)
        (visited : list QuadNode.t) :
  QuadTree.update t viewport None = Ok (t', visited) ->
  QuadTree.update t' viewport None = Ok (t', visited).
Proof.
  intros H. destruct (update_inv _ _ _ H) as (s & n' & Hs & Ht & ->).
  destruct (default_stop_inv _ _ Hs) as (D & HD & ->).
  pose proof (traverse_rec_same _ _ _ _ _ Ht) as [(Hr & Hd & Hp) _].
  assert (Hs' : QuadTree.default_stop_predicate (QuadTree.set_root t n') viewport
                = Ok (fun node _ => (D <=? QuadNode.depth node)%Z
                                    || (QuadTree.max_depth t <=? QuadNode.depth node)%Z)).
  { unfold QuadTree.default_stop_predicate, QuadTree.desired_depth,
      QuadTree.pseudo_depth, QuadTree.ratio in *.
    cbn [QuadTree.set_root QuadTree.root QuadTree.cells_across
         QuadTree.min_depth QuadTree.max_depth] in *.
    rewrite Hr. exact Hs. }
  rewrite (@update_unfold (QuadTree.set_root t n') viewport None _ Hs').
  unfold QuadTree.update_fuel.
  cbn [QuadTree.set_root QuadTree.root QuadTree.max_depth].
  rewrite Hd. fold (QuadTree.update_fuel t).
  rewrite (@traverse_rec_replay viewport _ (Some (QuadTree.max_depth t))
             (default_stop_respects_address D (QuadTree.max_depth t) viewport)
             _ _ _ _ Ht).
  reflexivity.
Qed.

Lemma update_prunes_example :
  let t := QuadTree.mk (QuadNode.subdivide (fresh_root (Rect.mk 0 0 512 512)))
                       4 0 20 in
  let viewport := OrientedRect.mk 2000 0 90 160 0 in
  let t' := QuadTree.set_root t (QuadNode.set_children (QuadTree.root t) None) in
  QuadTree.update t viewport None = Ok (t', []).
Proof.
  intros t viewport t'.
  assert (Hv : valid_config t)
    by (unfold valid_config, t; cbn; repeat split; try lra; lia).
  destruct (default_stop_defined viewport Hv) as (d & _ & Hs).
  rewrite (@update_unfold t viewport None _ Hs).
  unfold QuadTree.update_fuel. rewrite traverse_rec_prune; [reflexivity|].
  apply strictly_beside_no_intersection. left.
  unfold viewport, t, Rect.xmax.
  cbn [OrientedRect.theta_rad OrientedRect.cx OrientedRect.hw OrientedRect.hh].
  rewrite cos_0, sin_0, Rabs_R1, Rabs_R0.
  replace (Rect.cx _) with 0%R by reflexivity.
  replace (Rect.hw _) with 512%R by reflexivity. lra.
Qed.

Lemma update_idempotent_witness :
  let t := QuadTree.mk (QuadNode.subdivide (fresh_root (Rect.mk 0 0 512 512)))
                       4 0 20 in
  let viewport := OrientedRect.mk 2000 0 90 160 0 in
  let t' := QuadTree.set_root t (QuadNode.set_children (QuadTree.root t) None) in
  QuadTree.update t' viewport None = Ok (t', []).
Proof.
  intros t viewport t'.
  apply (@update_idempotent t t' viewport []).
  apply update_prunes_example.
Defined.

Lemma subnode_inv (m n : QuadNode.t) :
  subnode m n ->
  m = n \/ exists kids c, QuadNode.children n = Some kids /\ In c kids /\ subnode m c.
Proof.
  intros H. destruct H as [|n kids c Hk Hin Hs]; [left; reflexivity|].
  right. exists kids, c. auto.
Qed.

(** Every node a traversal leaves in the tree was visited, or is a leaf
    whose box misses the viewport. *)
Lemma traverse_tree_nodes viewport stop max_depth :
  forall fuel n n' vis m,
    QuadNode.traverse_rec fuel viewport stop max_depth n = Ok (n', vis) ->
    subnode m n' ->
    In m vis
    \/ (QuadNode.children m = None
        /\ OrientedRect.intersects_aabb viewport (QuadNode.rect m) = false).
Proof.
  induction fuel as [|fuel IH]; intros n n' vis m; [discriminate|].
  rewrite traverse_rec_S.
  destruct (OrientedRect.intersects_aabb viewport (QuadNode.rect n)) eqn:Hint;
    cbn [negb].
  2:{ intros H Hsub; injection H as <- <-.
      apply subnode_inv in Hsub. destruct Hsub as [-> | (k & c & Hk & _)].
      - right. split; [reflexivity | exact Hint].
      - discriminate. }
  cbv zeta. destruct (match max_depth with Some _ => _ | None => _ end).
  { intros H Hsub; injection H as <- <-.
    apply subnode_inv in Hsub. destruct Hsub as [-> | (k & c & Hk & _)].
    - left. left. reflexivity.
    - discriminate. }
  intros H Hsub. apply bind_Ok in H. destruct H as ([ks vs] & Hrs & H).
  injection H as <- <-. cbn [fst snd] in *.
  destruct (traverse_children_inv _ _ Hrs) as (rs & HF & -> & ->).
  apply subnode_inv in Hsub.
  destruct Hsub as [-> | (k & c' & Hk & Hin & Hsub)]; [left; left; reflexivity|].
  cbn in Hk. injection Hk as <-.
  apply in_map_iff in Hin. destruct Hin as ([c'' v] & Hfst & Hr).
  cbn [fst] in Hfst. subst c''.
  destruct (Forall2_In_r _ HF Hr) as (c & _ & Hc).
  destruct (IH _ _ _ m Hc Hsub) as [Hv | Hleaf]; [|right; exact Hleaf].
  left. right. eapply in_concat_map_snd; [exact Hr | exact Hv].
Qed.

(** Nothing deeper than [max_depth] is visited below a node that is not
    deeper itself. *)
Lemma traverse_visited_max_depth viewport stop (M : Z) :
  forall fuel n n' vis m,
    all_nodes node_ok n ->
    QuadNode.traverse_rec fuel viewport stop (Some M) n = Ok (n', vis) ->
    In m vis ->
    (QuadNode.depth m <= Z.max (QuadNode.depth n) M)%Z.
Proof.
  induction fuel as [|fuel IH]; intros n n' vis m Hn; [discriminate|].
  rewrite traverse_rec_S.
  destruct (negb _).
  { intros H; injection H as <- <-. contradiction. }
  cbv zeta.
  destruct (Z.leb_spec M (QuadNode.depth n)) as [Hle | Hlt].
  { intros H; injection H as <- <-. intros [<- | []]. cbn. lia. }
  destruct (stop n viewport).
  { intros H; injection H as <- <-. intros [<- | []]. cbn. lia. }
  destruct (descend_node Hn) as (H1 & (_ & Hd & _) & kids & Hk).
  rewrite Hk.
  intros H. apply bind_Ok in H. destruct H as ([ks vs] & Hrs & H).
  injection H as <- <-. cbn [fst snd].
  destruct (traverse_children_inv _ _ Hrs) as (rs & HF & -> & ->).
  intros [<- | Hm].
  - cbn [QuadNode.depth QuadNode.set_children]. lia.
  - apply in_concat in Hm. destruct Hm as (v & Hv & Hm).
    apply in_map_iff in Hv. destruct Hv as ([c' v'] & <- & Hr).
    destruct (Forall2_In_r _ HF Hr) as (c & Hcin & Hc).
    destruct (@kid_of_good_node _ kids c H1 Hk Hcin) as [Hcok Hcd].
    pose proof (IH _ _ _ m Hcok Hc Hm) as Hle.
    rewrite Hcd, Hd in Hle. lia.
Qed.

(** X18.  max_depth is a hard limit: on a tree grown from a fresh root,
    whatever stop predicate the caller supplies, no visited node is
    deeper than a non-negative max_depth. *)
Theorem visited_depth_at_most_max_depth
        (r : Rect.t) (t t' : QuadTree.t) (viewport : OrientedRect.t)
        (stop : option QuadNode.StopPredicate) (visited : list QuadNode.t)
        (m : QuadNode.t) :
  reachable r (QuadTree.root t) -> (0 <= QuadTree.max_depth t)%Z ->
  QuadTree.update t viewport stop = Ok (t', visited) ->
  In m visited ->
  (0 <= QuadNode.depth m <= QuadTree.max_depth t)%Z.
Proof.
  intros Hr HM H Hm. destruct (update_inv _ _ _ H) as (s & n' & _ & Ht & ->).
  destruct (reachable_invariant Hr) as [Hok (_ & Hd & _)]. cbn in Hd.
  pose proof (@traverse_visited_max_depth _ _ _ _ _ _ _ m Hok Ht Hm) as Hle.
  rewrite Hd in Hle.
  assert (Hr' : reachable r n')
    by (eapply reach_step; [exact Hr | eapply step_traverse; exact Ht]).
  destruct (@traverse_visited_intersect _ _ _ _ _ _ _ _ Ht Hm) as [_ Hs].
  destruct (reachable_rect Hr' Hs) as (_ & Hmd & _). lia.
Qed.

Lemma scenario_query_returns :
  exists t' visited,
    QuadTree.update (QuadTree.from_center 0 0 512 512 4)
                    (OrientedRect.mk 10 96 90 160 (30 * (PI / 180))) None
    = Ok (t', visited)
    /\ In (QuadTree.root t') visited.
Proof.
  destruct (@update_visits_exactly (Rect.mk 0 0 512 512)
              (QuadTree.from_center 0 0 512 512 4)
              (OrientedRect.mk 10 96 90 160 (30 * (PI / 180))))
    as (D & t' & visited & HD & Hu & _ & _ & Hcomplete).
  - apply reach_fresh.
  - apply scenario_valid_config.
  - exists t', visited. split; [exact Hu|].
    destruct (update_inv _ _ _ Hu) as (s & n' & _ & Ht & ->).
    cbn [QuadTree.root QuadTree.set_root].
    assert (Hint : OrientedRect.intersects_aabb
                     (OrientedRect.mk 10 96 90 160 (30 * (PI / 180)))
                     (Rect.mk 0 0 512 512) = true).
    { apply common_point_intersects with (x := 10%R) (y := 96%R).
      - unfold in_box, Rect.xmin, Rect.xmax, Rect.ymin, Rect.ymax.
        cbn [Rect.cx Rect.cy Rect.hw Rect.hh]. lra.
      - apply (center_in_viewport (OrientedRect.mk 10 96 90 160 (30 * (PI / 180))));
          cbn [OrientedRect.hw OrientedRect.hh]; lra. }
    destruct (@traverse_tree_nodes _ _ _ _ _ _ _ n' Ht (sub_here n'))
      as [Hv | [_ Hf]]; [exact Hv|].
    pose proof (traverse_rec_same _ _ _ _ _ Ht) as [(Hrect & _ & _) _].
    rewrite Hrect in Hf.
    change (QuadNode.rect (QuadTree.root (QuadTree.from_center 0 0 512 512 4)))
      with (Rect.mk 0 0 512 512) in Hf.
    rewrite Hint in Hf. discriminate.
Qed.

Lemma visited_depth_at_most_max_depth_witness :
  exists t' visited,
    QuadTree.update (QuadTree.from_center 0 0 512 512 4)
                    (OrientedRect.mk 10 96 90 160 (30 * (PI / 180))) None
    = Ok (t', visited)
    /\ (0 <= QuadNode.depth (QuadTree.root t') <= 20)%Z.
Proof.
  destruct scenario_query_returns as (t' & visited & Hu & Hin).
  exists t', visited. split; [exact Hu|].
  apply (@visited_depth_at_most_max_depth (Rect.mk 0 0 512 512)
           (QuadTree.from_center 0 0 512 512 4) t'
           (OrientedRect.mk 10 96 90 160 (30 * (PI / 180))) None visited
           (QuadTree.root t')).
  - apply reach_fresh.
  - cbn. lia.
  - exact Hu.
  - exact Hin.
Defined.

(** ** When a query returns and when it raises *)

Lemma traverse_children_no_domain_error
      (trav : QuadNode.t -> result (QuadNode.t * list QuadNode.t)) kids :
  (forall c, trav c <> MathDomainError) ->
  QuadNode.traverse_children trav kids <> MathDomainError.
Proof.
  intros Htrav. induction kids as [|c rest IH]; [discriminate|].
  cbn [QuadNode.traverse_children].
  destruct (trav c) as [r| |] eqn:Hc; cbn [bind];
    [|exfalso; exact (Htrav c Hc) | discriminate].
  destruct (QuadNode.traverse_children trav rest) as [rs| |]; cbn [bind];
    [discriminate | exact IH | discriminate].
Qed.

Lemma traverse_rec_no_domain_error viewport stop max_depth :
  forall fuel n,
    QuadNode.traverse_rec fuel viewport stop max_depth n <> MathDomainError.
Proof.
  induction fuel as [|fuel IH]; intros n; [discriminate|].
  rewrite traverse_rec_S.
  destruct (negb _); [discriminate|]. cbv zeta.
  destruct (match max_depth with Some _ => _ | None => _ end); [discriminate|].
  match goal with
  | |- bind ?m _ <> _ =>
      pose proof (@traverse_children_no_domain_error
                    (QuadNode.traverse_rec fuel viewport stop max_depth)
                    (match QuadNode.children
                             (match QuadNode.children n with
                              | Some _ => n
                              | None => QuadNode.subdivide n
                              end) with
                     | Some k => k
                     | None => []
                     end) IH) as Hk;
      destruct m as [rs| |]; cbn [bind];
        [discriminate | exfalso; apply Hk; reflexivity | discriminate]
  end.
Qed.

Lemma default_stop_by_ratio (t : QuadTree.t) (viewport : OrientedRect.t) :
  ((0 < QuadTree.ratio t viewport)%R ->
   exists s, QuadTree.default_stop_predicate t viewport = Ok s)
  /\ ((QuadTree.ratio t viewport <= 0)%R ->
      QuadTree.default_stop_predicate t viewport = MathDomainError).
Proof.
  unfold QuadTree.default_stop_predicate, QuadTree.desired_depth,
    QuadTree.pseudo_depth. cbv zeta.
  destruct (Rlt_dec 0 (QuadTree.ratio t viewport)) as [Hp | Hn]; cbn [bind].
  - split; [eauto | intros; lra].
  - split; [intros; lra | reflexivity].
Qed.

(** X19.  On a tree grown from a fresh root a query always returns:
    with any stop predicate supplied by the caller, and with the default
    one whenever the ratio of the depth formula is positive. *)
Theorem update_returns (r : Rect.t) (t : QuadTree.t) (viewport : OrientedRect.t)
        (stop : option QuadNode.StopPredicate) :
  reachable r (QuadTree.root t) ->
  (stop = None -> (0 < QuadTree.ratio t viewport)%R) ->
  exists t' visited, QuadTree.update t viewport stop = Ok (t', visited).
Proof.
  intros Hr Hratio.
  assert (Hs : exists s, match stop with
                         | None => QuadTree.default_stop_predicate t viewport
                         | Some s' => Ok s'
                         end = Ok s).
  { destruct stop as [s|]; [eauto|].
    apply (proj1 (default_stop_by_ratio t viewport)), Hratio. reflexivity. }
  destruct Hs as [s Hs].
  destruct (@update_never_out_of_fuel r t viewport s Hr) as ([n' vis] & Ht).
  rewrite (update_unfold _ _ _ Hs), Ht. eauto.
Qed.

Lemma update_returns_witness :
  exists t' visited,
    QuadTree.update (QuadTree.from_center 0 0 512 512 4)
                    (OrientedRect.mk 10 96 90 160 (PI / 6)) None
    = Ok (t', visited).
Proof.
  apply (@update_returns (Rect.mk 0 0 512 512)).
  - apply reach_fresh.
  - intros _. apply ratio_pos, scenario_valid_config.
Defined.

(** X20.  The default query raises the math domain error exactly when the
    ratio root_size * cells_across / max(1e-9, viewport size) is not
    positive, before the tree is touched; in particular for every
    viewport when cells_across is not positive and the root half-extents
    are not negative. *)
Theorem update_domain_error (t : QuadTree.t) (viewport : OrientedRect.t) :
  (QuadTree.update t viewport None = MathDomainError
   <-> (QuadTree.ratio t viewport <= 0)%R)
  /\ ((QuadTree.cells_across t <= 0)%Z ->
      (0 <= Rect.hw (QuadNode.rect (QuadTree.root t)))%R ->
      (0 <= Rect.hh (QuadNode.rect (QuadTree.root t)))%R ->
      QuadTree.update t viewport None = MathDomainError).
Proof.
  assert (Herr : (QuadTree.ratio t viewport <= 0)%R ->
                 QuadTree.update t viewport None = MathDomainError).
  { intros Hn. unfold QuadTree.update.
    rewrite (proj2 (default_stop_by_ratio t viewport) Hn). reflexivity. }
  split; [split; [|exact Herr]|].
  - intros H. destruct (Rle_dec (QuadTree.ratio t viewport) 0) as [|Hp]; [assumption|].
    exfalso.
    destruct (proj1 (default_stop_by_ratio t viewport)) as [s Hs]; [lra|].
    rewrite (@update_unfold t viewport None s Hs) in H.
    pose proof (@traverse_rec_no_domain_error viewport s
                  (Some (QuadTree.max_depth t)) (QuadTree.update_fuel t)
                  (QuadTree.root t)) as Hne.
    destruct (QuadNode.traverse_rec _ _ _ _ _); [discriminate | congruence | discriminate].
  - intros Hc Hw Hh. apply Herr. unfold QuadTree.ratio. cbv zeta.
    pose proof (denominator_pos viewport) as Hd.
    set (den := Rmax (1 / 10 ^ 9)
                     (Rmin (OrientedRect.hw viewport) (OrientedRect.hh viewport) * 2)) in *.
    assert (Hsize : (0 <= Rmax (Rect.w (QuadNode.rect (QuadTree.root t)))
                               (Rect.h (QuadNode.rect (QuadTree.root t))))%R).
    { eapply Rle_trans; [|apply Rmax_l]. unfold Rect.w. lra. }
    apply IZR_le in Hc.
    set (size := Rmax (Rect.w (QuadNode.rect (QuadTree.root t)))
                      (Rect.h (QuadNode.rect (QuadTree.root t)))) in *.
    set (c := IZR (QuadTree.cells_across t)) in *.
    assert (Hnum : (size * c <= 0)%R).
    { replace 0%R with (size * 0)%R by ring. apply Rmult_le_compat_l; assumption. }
    unfold Rdiv. replace 0%R with (0 * / den)%R by ring.
    apply Rmult_le_compat_r; [left; apply Rinv_0_lt_compat; exact Hd | exact Hnum].
Qed.

(** ** Zooming *)

Lemma Rceil_bounds (x : R) : (IZR (Rceil x) - 1 < x <= IZR (Rceil x))%R.
Proof.
  unfold Rceil. destruct (archimed (- x)) as [Ha Hb].
  rewrite minus_IZR. lra.
Qed.

Lemma Rceil_plus_1 (x : R) : Rceil (x + 1) = (Rceil x + 1)%Z.
Proof.
  apply Rceil_spec. pose proof (Rceil_bounds x). rewrite plus_IZR. lra.
Qed.

Lemma log2_double (x : R) : (0 < x)%R -> log2 (2 * x) = (log2 x + 1)%R.
Proof.
  intros Hx. unfold log2. rewrite ln_mult by lra. field.
  apply Rgt_not_eq, ln_2_pos.
Qed.

Lemma Rmin_half (a b : R) : Rmin (a / 2) (b / 2) = (Rmin a b / 2)%R.
Proof.
  unfold Rmin. destruct (Rle_dec (a / 2) (b / 2)), (Rle_dec a b); lra.
Qed.

(** X21.  Halving both half-extents of a viewport that is not below the
    1e-9 floor raises the pseudo depth by exactly one, and the unclamped
    target depth with it. *)
Theorem halving_viewport_adds_one_level (t : QuadTree.t) (v : OrientedRect.t) :
  valid_config t ->
  (1 / 10 ^ 9 <= Rmin (OrientedRect.hw v) (OrientedRect.hh v))%R ->
  let half := OrientedRect.mk (OrientedRect.cx v) (OrientedRect.cy v)
                              (OrientedRect.hw v / 2) (OrientedRect.hh v / 2)
                              (OrientedRect.theta_rad v) in
  exists pd,
    QuadTree.pseudo_depth t v = Ok pd
    /\ QuadTree.pseudo_depth t half = Ok (pd + 1)%R
    /\ Rceil (pd + 1) = (Rceil pd + 1)%Z.
Proof.
  intros Hv Hmin half.
  assert (Hr : QuadTree.ratio t half = (2 * QuadTree.ratio t v)%R).
  { unfold QuadTree.ratio, half. cbv zeta.
    cbn [OrientedRect.hw OrientedRect.hh].
    rewrite Rmin_half.
    assert (He : (0 < 1 / 10 ^ 9)%R)
      by (apply Rdiv_lt_0_compat; [lra | apply pow_lt; lra]).
    set (m := Rmin (OrientedRect.hw v) (OrientedRect.hh v)) in *.
    set (eps := (1 / 10 ^ 9)%R) in *.
    rewrite (Rmax_right eps (m / 2 * 2)) by lra.
    rewrite (Rmax_right eps (m * 2)) by lra.
    field. lra. }
  pose proof (ratio_pos v Hv) as Hp.
  exists (log2 (QuadTree.ratio t v)).
  unfold QuadTree.pseudo_depth. cbv zeta. rewrite Hr.
  destruct (Rlt_dec 0 (QuadTree.ratio t v)) as [_|]; [|contradiction].
  destruct (Rlt_dec 0 (2 * QuadTree.ratio t v)) as [_|Hn]; [|exfalso; lra].
  rewrite (log2_double Hp).
  split; [reflexivity|]. split; [reflexivity | apply Rceil_plus_1].
Qed.

Lemma halving_viewport_adds_one_level_witness :
  let t := QuadTree.from_center 0 0 512 512 4 in
  let v := OrientedRect.mk 10 96 90 160 (PI / 6) in
  exists pd,
    QuadTree.pseudo_depth t v = Ok pd
    /\ QuadTree.pseudo_depth t (OrientedRect.mk 10 96 (90 / 2) (160 / 2) (PI / 6))
       = Ok (pd + 1)%R
    /\ Rceil (pd + 1) = (Rceil pd + 1)%Z.
Proof.
  intros t v.
  apply (@halving_viewport_adds_one_level t v).
  - apply scenario_valid_config.
  - unfold v. cbn [OrientedRect.hw OrientedRect.hh]. rewrite Rmin_left by lra.
    simpl pow. lra.
Defined.

Lemma Rceil_IZR (k : Z) : Rceil (IZR k) = k.
Proof. apply Rceil_spec. lra. Qed.

(** X22.  A degenerate viewport (smaller half-extent at most 5e-10, zero
    or negative included) never divides by zero: the 1e-9 floor takes
    over, and the target depth is max_depth as soon as
    root_size * cells_across * 1e9 reaches 2^max_depth. *)
Theorem degenerate_viewport_gets_max_depth (t : QuadTree.t) (v : OrientedRect.t) :
  valid_config t ->
  (Rmin (OrientedRect.hw v) (OrientedRect.hh v) * 2 <= 1 / 10 ^ 9)%R ->
  (2 ^ Z.to_nat (QuadTree.max_depth t)
   <= Rmax (Rect.w (QuadNode.rect (QuadTree.root t)))
           (Rect.h (QuadNode.rect (QuadTree.root t)))
      * IZR (QuadTree.cells_across t) * 10 ^ 9)%R ->
  QuadTree.desired_depth t v = Ok (QuadTree.max_depth t).
Proof.
  intros Hv Hdeg Hbig. rewrite (desired_depth_defined v Hv).
  destruct Hv as (Hw & Hh & Hc & Hmin & Hmax).
  assert (Hratio : QuadTree.ratio t v
                   = (Rmax (Rect.w (QuadNode.rect (QuadTree.root t)))
                           (Rect.h (QuadNode.rect (QuadTree.root t)))
                      * IZR (QuadTree.cells_across t) * 10 ^ 9)%R).
  { unfold QuadTree.ratio. cbv zeta.
    rewrite (Rmax_left (1 / 10 ^ 9)
               (Rmin (OrientedRect.hw v) (OrientedRect.hh v) * 2)) by exact Hdeg.
    field. }
  assert (Hk : (QuadTree.max_depth t
                <= Rceil (log2 (QuadTree.ratio t v)))%Z).
  { rewrite <- (Rceil_IZR (QuadTree.max_depth t)) at 1.
    apply Rceil_monotone.
    replace (IZR (QuadTree.max_depth t))
      with (INR (Z.to_nat (QuadTree.max_depth t)))
      by (rewrite INR_IZR_INZ, Z2Nat.id by lia; reflexivity).
    rewrite <- log2_pow, Hratio.
    apply log2_monotone; [apply pow_lt; lra | exact Hbig]. }
  f_equal. lia.
Qed.

Lemma degenerate_viewport_gets_max_depth_witness :
  QuadTree.desired_depth (QuadTree.from_center 0 0 512 512 4)
                         (OrientedRect.mk 10 96 0 160 0) = Ok 20%Z.
Proof.
  apply (@degenerate_viewport_gets_max_depth
           (QuadTree.from_center 0 0 512 512 4) (OrientedRect.mk 10 96 0 160 0)).
  - apply scenario_valid_config.
  - cbn [OrientedRect.hw OrientedRect.hh]. rewrite Rmin_left by lra.
    simpl pow. lra.
  - unfold QuadTree.from_center, Rect.w, Rect.h.
    cbn [QuadTree.root QuadTree.cells_across QuadTree.max_depth
         QuadNode.rect Rect.hw Rect.hh].
    rewrite Rmax_left by lra.
    change (Z.to_nat 20) with 20%nat. simpl pow. lra.
Defined.

(** ** The fade curve *)

(** X23.  smoothstep maps every number into [0, 1], is 0 up to 0 and 1
    from 1 on, and never decreases. *)
Theorem smoothstep_shape (s t : R) :
  (0 <= smoothstep t <= 1)%R
  /\ ((t <= 0)%R -> smoothstep t = 0%R)
  /\ ((1 <= t)%R -> smoothstep t = 1%R)
  /\ ((s <= t)%R -> (smoothstep s <= smoothstep t)%R).
Proof.
  assert (Hclamp : forall z : R, (0 <= Rmax 0 (Rmin 1 z) <= 1)%R).
  { intros z. unfold Rmax, Rmin.
    destruct (Rle_dec 1 z); destruct (Rle_dec 0 _); lra. }
  assert (Hmono : (s <= t)%R -> (Rmax 0 (Rmin 1 s) <= Rmax 0 (Rmin 1 t))%R).
  { intros Hst. unfold Rmax, Rmin.
    destruct (Rle_dec 1 s), (Rle_dec 1 t);
      repeat match goal with |- context [Rle_dec ?a ?b] => destruct (Rle_dec a b) end;
      lra. }
  unfold smoothstep. cbv zeta.
  split; [|split; [|split]].
  - pose proof (Hclamp t). set (a := Rmax 0 (Rmin 1 t)) in *.
    assert (H0 : (0 <= a * a * (3 - 2 * a))%R)
      by (apply Rmult_le_pos; [apply Rmult_le_pos|]; lra).
    assert (H1 : (0 <= (1 - a) * (1 - a) * (1 + 2 * a))%R)
      by (apply Rmult_le_pos; [apply Rmult_le_pos|]; lra).
    replace ((1 - a) * (1 - a) * (1 + 2 * a))%R
      with (1 - a * a * (3 - 2 * a))%R in H1 by ring.
    lra.
  - intros Ht. replace (Rmax 0 (Rmin 1 t)) with 0%R; [ring|].
    unfold Rmax, Rmin. destruct (Rle_dec 1 t); destruct (Rle_dec 0 _); lra.
  - intros Ht. replace (Rmax 0 (Rmin 1 t)) with 1%R; [ring|].
    unfold Rmax, Rmin. destruct (Rle_dec 1 t); destruct (Rle_dec 0 _); lra.
  - intros Hst. specialize (Hmono Hst).
    pose proof (Hclamp s). pose proof (Hclamp t).
    set (a := Rmax 0 (Rmin 1 s)) in *. set (b := Rmax 0 (Rmin 1 t)) in *.
    assert (Hf : (b * b * (3 - 2 * b) - a * a * (3 - 2 * a)
                  = (b - a) * (3 * (a + b) - 2 * (a * a + a * b + b * b)))%R)
      by ring.
    assert (Haa : (a * a <= a * 1)%R) by (apply Rmult_le_compat_l; lra).
    assert (Hbb : (b * b <= b * 1)%R) by (apply Rmult_le_compat_l; lra).
    assert (Hab : (a * b <= a * 1)%R) by (apply Rmult_le_compat_l; lra).
    assert (Hg : (0 <= 3 * (a + b) - 2 * (a * a + a * b + b * b))%R) by lra.
    assert (Hp : (0 <= (b - a) * (3 * (a + b) - 2 * (a * a + a * b + b * b)))%R)
      by (apply Rmult_le_pos; lra).
    lra.
Qed.

(** ** The order of the visited list *)

Lemma traverse_visited_parents viewport stop max_depth :
  forall fuel n n' vis,
    QuadNode.traverse_rec fuel viewport stop max_depth n = Ok (n', vis) ->
    (vis = [] \/ exists rest, vis = n' :: rest)
    /\ forall m, In m vis ->
         m = n'
         \/ exists parent kids,
              In parent vis /\ QuadNode.children parent = Some kids /\ In m kids.
Proof.
  induction fuel as [|fuel IH]; intros n n' vis; [discriminate|].
  rewrite traverse_rec_S.
  destruct (negb _).
  { intros H; injection H as <- <-. split; [left; reflexivity | contradiction]. }
  cbv zeta. destruct (match max_depth with Some _ => _ | None => _ end).
  { intros H; injection H as <- <-. split; [right; eauto|].
    intros m [<- | []]. left. reflexivity. }
  intros H. apply bind_Ok in H. destruct H as ([ks vs] & Hrs & H).
  injection H as <- <-. cbn [fst snd].
  destruct (traverse_children_inv _ _ Hrs) as (rs & HF & -> & ->).
  split; [right; eauto|].
  intros m [<- | Hm]; [left; reflexivity|]. right.
  apply in_concat in Hm. destruct Hm as (v & Hv & Hm).
  apply in_map_iff in Hv. destruct Hv as ([c' v'] & Hsnd & Hr).
  cbn [snd] in Hsnd. subst v'.
  destruct (Forall2_In_r _ HF Hr) as (c & _ & Hc).
  destruct (IH _ _ _ Hc) as [_ Hpar].
  destruct (Hpar m Hm) as [-> | (par & kids & Hin & Hk & Hmk)].
  - eexists _, (map fst rs). split; [left; reflexivity|].
    split; [reflexivity|]. apply (in_map fst) in Hr. exact Hr.
  - exists par, kids. split; [right|split; assumption].
    eapply in_concat_map_snd; [exact Hr | exact Hin].
Qed.

(** X24.  The visited list starts at the root and is closed under
    parents: it is empty or begins with the root, and every other visited
    node is a child of a visited node.  This is for any stop predicate. *)
Theorem visited_closed_under_parents
        (t t' : QuadTree.t) (viewport : OrientedRect.t)
        (stop : option QuadNode.StopPredicate) (visited : list QuadNode.t) :
  QuadTree.update t viewport stop = Ok (t', visited) ->
  (visited = [] \/ exists rest, visited = QuadTree.root t' :: rest)
  /\ forall m, In m visited ->
       m = QuadTree.root t'
       \/ exists parent kids,
            In parent visited /\ QuadNode.children parent = Some kids
            /\ In m kids.
Proof.
  intros H. destruct (update_inv _ _ _ H) as (s & n' & _ & Ht & ->).
  cbn [QuadTree.root QuadTree.set_root].
  exact (@traverse_visited_parents _ _ _ _ _ _ _ Ht).
Qed.

Lemma visited_closed_under_parents_witness :
  exists t' visited,
    QuadTree.update (QuadTree.from_center 0 0 512 512 4)
                    (OrientedRect.mk 10 96 90 160 (30 * (PI / 180))) None
    = Ok (t', visited)
    /\ (visited = [] \/ exists rest, visited = QuadTree.root t' :: rest).
Proof.
  destruct scenario_query_returns as (t' & visited & Hu & _).
  exists t', visited. split; [exact Hu|].
  apply (@visited_closed_under_parents
           (QuadTree.from_center 0 0 512 512 4) t'
           (OrientedRect.mk 10 96 90 160 (30 * (PI / 180))) None visited Hu).
Defined.

(** * The separating-axis test is exact *)

(** ** Bounds on one unknown *)

Section ScaledBounds.

Local Open Scope R_scope.

Lemma cancel_pos (k p q : R) : 0 < k -> k * p <= k * q -> p <= q.
Proof. intros Hk H. exact (Rmult_le_reg_l k p q Hk H). Qed.

(** The quotient [a2 / k2] solves all bounds when it is the largest of
    the lower bounds. *)
Lemma scaled_pick (l u a1 k1 b1 a2 k2 b2 : R) :
  0 <= k1 -> 0 < k2 ->
  k2 * l <= a2 -> k2 * a1 <= k1 * a2 ->
  a2 <= b2 -> a2 <= k2 * u -> k1 * a2 <= k2 * b1 ->
  exists x, l <= x <= u /\ a1 <= k1 * x <= b1 /\ a2 <= k2 * x <= b2.
Proof.
  intros Hk1 Hk2 Hl H12 H22 H2u H21.
  exists (a2 / k2).
  assert (E : k2 * (a2 / k2) = a2) by (field; lra).
  set (x := a2 / k2) in *.
  repeat split.
  - apply (cancel_pos Hk2). lra.
  - apply (cancel_pos Hk2). lra.
  - apply (cancel_pos Hk2).
    replace (k2 * (k1 * x)) with (k1 * (k2 * x)) by ring. rewrite E. lra.
  - apply (cancel_pos Hk2).
    replace (k2 * (k1 * x)) with (k1 * (k2 * x)) by ring. rewrite E. lra.
  - lra.
  - lra.
Qed.

(** One unknown with three two-sided bounds, the last two on a
    non-negative multiple of it: the bounds have a common solution as
    soon as every lower bound is below every upper bound after
    cross-multiplication. *)
Lemma scaled_between (l u a1 k1 b1 a2 k2 b2 : R) :
  0 <= k1 -> 0 <= k2 ->
  l <= u -> a1 <= b1 -> a2 <= b2 ->
  a1 <= k1 * u -> k1 * l <= b1 ->
  a2 <= k2 * u -> k2 * l <= b2 ->
  k2 * a1 <= k1 * b2 -> k1 * a2 <= k2 * b1 ->
  exists x, l <= x <= u /\ a1 <= k1 * x <= b1 /\ a2 <= k2 * x <= b2.
Proof.
  intros Hk1 Hk2 Hlu H11 H22 H1u Hl1 H2u Hl2 H12 H21.
  destruct (Rle_dec a1 (k1 * l)) as [A1 | A1];
    destruct (Rle_dec a2 (k2 * l)) as [A2 | A2].
  - exists l. lra.
  - assert (Hp : 0 < k2).
    { destruct Hk2 as [Hp | <-]; [exact Hp|]. exfalso. lra. }
    apply scaled_pick; try lra.
    assert (k2 * (k1 * l) <= k1 * a2).
    { replace (k2 * (k1 * l)) with (k1 * (k2 * l)) by ring.
      apply Rmult_le_compat_l; lra. }
    assert (k2 * a1 <= k2 * (k1 * l)) by (apply Rmult_le_compat_l; lra).
    lra.
  - assert (Hp : 0 < k1).
    { destruct Hk1 as [Hp | <-]; [exact Hp|]. exfalso. lra. }
    destruct (@scaled_pick l u a2 k2 b2 a1 k1 b1) as (x & Hx & Hx2 & Hx1);
      try lra.
    + assert (k1 * (k2 * l) <= k2 * a1).
      { replace (k1 * (k2 * l)) with (k2 * (k1 * l)) by ring.
        apply Rmult_le_compat_l; lra. }
      assert (k1 * a2 <= k1 * (k2 * l)) by (apply Rmult_le_compat_l; lra).
      lra.
    + exists x. tauto.
  - assert (Hp1 : 0 < k1).
    { destruct Hk1 as [Hp | <-]; [exact Hp|]. exfalso. lra. }
    assert (Hp2 : 0 < k2).
    { destruct Hk2 as [Hp | <-]; [exact Hp|]. exfalso. lra. }
    destruct (Rle_dec (k2 * a1) (k1 * a2)) as [C | C].
    + apply scaled_pick; lra.
    + destruct (@scaled_pick l u a2 k2 b2 a1 k1 b1) as (x & Hx & Hx2 & Hx1);
        try lra.
      exists x. tauto.
Qed.

End ScaledBounds.

(** ** Overlap on the four axes gives a common point *)

Section SeparatingAxes.

Local Open Scope R_scope.

(** Rotation within the first quadrant.  The box is centered at the
    origin with half-extents [w] and [h]; the rotated rectangle is
    centered at [(bx, by_)] with half-extents [W] along [(c, s)] and [H]
    along [(- s, c)].  If the projections overlap on both world axes and
    on both axes of the rotated rectangle, some point
    [b + p (c, s) + q (- s, c)] of the rotated rectangle lies in the box.
    The coordinate [q] is found first, then [p]. *)
Lemma sat_core (c s bx by_ w h W H : R) :
  c * c + s * s = 1 -> 0 <= c -> 0 <= s ->
  0 <= w -> 0 <= h -> 0 <= W -> 0 <= H ->
  - (w + W * c + H * s) <= bx <= w + W * c + H * s ->
  - (h + W * s + H * c) <= by_ <= h + W * s + H * c ->
  - (W + w * c + h * s) <= c * bx + s * by_ <= W + w * c + h * s ->
  - (H + w * s + h * c) <= - s * bx + c * by_ <= H + w * s + h * c ->
  exists p q,
    - W <= p <= W /\ - H <= q <= H
    /\ - w <= bx + p * c - q * s <= w
    /\ - h <= by_ + p * s + q * c <= h.
Proof.
  intros E Hc Hs Hw Hh HW HH H1 H2 H3 H4.
  (* products of the hypotheses used below *)
  assert (Ebx : bx * (c * c) + bx * (s * s) = bx)
    by (transitivity (bx * (c * c + s * s)); [ring | rewrite E; ring]).
  assert (Eby : by_ * (c * c) + by_ * (s * s) = by_)
    by (transitivity (by_ * (c * c + s * s)); [ring | rewrite E; ring]).
  assert (Ew : w * (c * c) + w * (s * s) = w)
    by (transitivity (w * (c * c + s * s)); [ring | rewrite E; ring]).
  assert (Eh : h * (c * c) + h * (s * s) = h)
    by (transitivity (h * (c * c + s * s)); [ring | rewrite E; ring]).
  assert (EW : W * (c * c) + W * (s * s) = W)
    by (transitivity (W * (c * c + s * s)); [ring | rewrite E; ring]).
  assert (Pws : 0 <= w * s) by (apply Rmult_le_pos; assumption).
  assert (Phc : 0 <= h * c) by (apply Rmult_le_pos; assumption).
  assert (Pwc : 0 <= w * c) by (apply Rmult_le_pos; assumption).
  assert (Phs : 0 <= h * s) by (apply Rmult_le_pos; assumption).
  assert (PWc : 0 <= W * c) by (apply Rmult_le_pos; assumption).
  assert (PWs : 0 <= W * s) by (apply Rmult_le_pos; assumption).
  assert (Pwss : 0 <= w * (s * s))
    by (apply Rmult_le_pos; [assumption | apply Rmult_le_pos; assumption]).
  assert (Pwcc : 0 <= w * (c * c))
    by (apply Rmult_le_pos; [assumption | apply Rmult_le_pos; assumption]).
  assert (Phss : 0 <= h * (s * s))
    by (apply Rmult_le_pos; [assumption | apply Rmult_le_pos; assumption]).
  assert (Phcc : 0 <= h * (c * c))
    by (apply Rmult_le_pos; [assumption | apply Rmult_le_pos; assumption]).
  assert (C3u : c * (c * bx + s * by_) <= c * (W + w * c + h * s))
    by (apply Rmult_le_compat_l; lra).
  assert (C3l : c * - (W + w * c + h * s) <= c * (c * bx + s * by_))
    by (apply Rmult_le_compat_l; lra).
  assert (S3u : s * (c * bx + s * by_) <= s * (W + w * c + h * s))
    by (apply Rmult_le_compat_l; lra).
  assert (S3l : s * - (W + w * c + h * s) <= s * (c * bx + s * by_))
    by (apply Rmult_le_compat_l; lra).
  (* first the coordinate along (- s, c) *)
  destruct (@scaled_between
              (Rmax (- H) (s * bx - c * by_ - (w * s + h * c)))
              (Rmin H (s * bx - c * by_ + (w * s + h * c)))
              (bx - w - c * W) s (bx + w + c * W)
              (- by_ - h - s * W) c (- by_ + h + s * W))
    as (q & Hq & Hq1 & Hq2); try assumption; try lra.
  - unfold Rmax, Rmin. repeat destruct (Rle_dec _ _); lra.
  - unfold Rmin. destruct (Rle_dec _ _); lra.
  - unfold Rmax. destruct (Rle_dec _ _); lra.
  - unfold Rmin. destruct (Rle_dec _ _); lra.
  - unfold Rmax. destruct (Rle_dec _ _); lra.
  - (* then the coordinate along (c, s) *)
    assert (Hq' : - H <= q <= H
                  /\ s * bx - c * by_ - (w * s + h * c) <= q
                     <= s * bx - c * by_ + (w * s + h * c)).
    { pose proof (Rmax_l (- H) (s * bx - c * by_ - (w * s + h * c))).
      pose proof (Rmax_r (- H) (s * bx - c * by_ - (w * s + h * c))).
      pose proof (Rmin_l H (s * bx - c * by_ + (w * s + h * c))).
      pose proof (Rmin_r H (s * bx - c * by_ + (w * s + h * c))).
      lra. }
    destruct Hq' as [HqH HqV].
    assert (Eq : q * (c * c) + q * (s * s) = q)
      by (transitivity (q * (c * c + s * s)); [ring | rewrite E; ring]).
    destruct (@scaled_between (- W) W
                (- w - bx + q * s) c (w - bx + q * s)
                (- h - by_ - q * c) s (h - by_ - q * c))
      as (p & Hp & Hp1 & Hp2); try assumption; try lra.
    exists p, q. lra.
Qed.

(** The same for every rotation: the other three quadrants are the first
    one after exchanging or reversing the axes of the rotated rectangle. *)
Lemma sat_any (c s bx by_ w h W H : R) :
  c * c + s * s = 1 ->
  0 <= w -> 0 <= h -> 0 <= W -> 0 <= H ->
  Rabs bx <= w + (W * Rabs c + H * Rabs s) ->
  Rabs by_ <= h + (W * Rabs s + H * Rabs c) ->
  Rabs (c * bx + s * by_) <= W + (w * Rabs c + h * Rabs s) ->
  Rabs (- s * bx + c * by_) <= H + (w * Rabs s + h * Rabs c) ->
  exists p q,
    - W <= p <= W /\ - H <= q <= H
    /\ - w <= bx + p * c - q * s <= w
    /\ - h <= by_ + p * s + q * c <= h.
Proof.
  intros E Hw Hh HW HH H1 H2 H3 H4.
  apply Rabs_le_bounds in H1. apply Rabs_le_bounds in H2.
  apply Rabs_le_bounds in H3. apply Rabs_le_bounds in H4.
  destruct (Rle_dec 0 c) as [Hc | Hc]; destruct (Rle_dec 0 s) as [Hs | Hs].
  - rewrite (Rabs_pos_eq c Hc), (Rabs_pos_eq s Hs) in *.
    apply sat_core; try assumption; lra.
  - rewrite (Rabs_pos_eq c Hc), (Rabs_left s) in * by lra.
    destruct (@sat_core (- s) c bx by_ w h H W) as (p & q & Hp & Hq & Hx & Hy);
      try assumption; try lra.
    exists (- q), p. lra.
  - rewrite (Rabs_left c), (Rabs_pos_eq s Hs) in * by lra.
    destruct (@sat_core s (- c) bx by_ w h H W) as (p & q & Hp & Hq & Hx & Hy);
      try assumption; try lra.
    exists q, (- p). lra.
  - rewrite (Rabs_left c), (Rabs_left s) in * by lra.
    destruct (@sat_core (- c) (- s) bx by_ w h W H) as (p & q & Hp & Hq & Hx & Hy);
      try assumption; try lra.
    exists (- p), (- q). lra.
Qed.

(** The point test of the code decides membership in the rotated
    rectangle. *)
Lemma contains_point_in_viewport (v : OrientedRect.t) (x y : R) :
  OrientedRect.contains_point v x y = true <-> in_viewport v x y.
Proof.
  pose proof (cos2_sin2_one (OrientedRect.theta_rad v)) as E.
  rewrite contains_point_true. split.
  - intros [Hp Hq].
    destruct (local_offset v x y) as [Hx Hy]. cbv zeta in Hx, Hy.
    exists (fst (OrientedRect.to_local v x y)),
           (snd (OrientedRect.to_local v x y)).
    repeat split; try assumption; lra.
  - intros (p & q & Hp & Hq & -> & ->).
    unfold OrientedRect.to_local. cbn [fst snd].
    set (c := cos _) in *. set (s := sin _) in *.
    replace (c * (OrientedRect.cx v + p * c - q * s - OrientedRect.cx v)
             + s * (OrientedRect.cy v + p * s + q * c - OrientedRect.cy v))
      with (p * (c * c + s * s)) by ring.
    replace (- s * (OrientedRect.cx v + p * c - q * s - OrientedRect.cx v)
             + c * (OrientedRect.cy v + p * s + q * c - OrientedRect.cy v))
      with (q * (c * c + s * s)) by ring.
    rewrite E, !Rmult_1_r. split; assumption.
Qed.

(** A box and a rotated rectangle with a common point pass the test. *)
Lemma shares_point_intersects (v : OrientedRect.t) (r : Rect.t) :
  shares_point v r -> OrientedRect.intersects_aabb v r = true.
Proof.
  intros (x & y & Hbox & Hin).
  apply common_point_intersects with (x := x) (y := y); [exact Hbox|].
  apply contains_point_in_viewport. exact Hin.
Qed.

(** A box and a rotated rectangle that pass the test have a common
    point, when no half-extent is negative. *)
Lemma intersects_shares_point (v : OrientedRect.t) (r : Rect.t) :
  0 <= Rect.hw r -> 0 <= Rect.hh r ->
  0 <= OrientedRect.hw v -> 0 <= OrientedRect.hh v ->
  OrientedRect.intersects_aabb v r = true -> shares_point v r.
Proof.
  intros Hw Hh HW HH Hint.
  pose proof (cos2_sin2_one (OrientedRect.theta_rad v)) as E.
  pose proof (proj1 (intersects_aabb_true v r) Hint) as Hax.
  pose proof (Hax _ (or_introl eq_refl)) as A1.
  pose proof (Hax _ (or_intror (or_introl eq_refl))) as A2.
  pose proof (Hax _ (or_intror (or_intror (or_introl eq_refl)))) as A3.
  pose proof (Hax _ (or_intror (or_intror (or_intror (or_introl eq_refl))))) as A4.
  clear Hax.
  unfold OrientedRect.axes in A1, A2, A3, A4. cbn [fst snd] in A1, A2, A3, A4.
  rewrite proj_aabb_x, proj_obb_world_x in A1.
  rewrite proj_aabb_y, proj_obb_world_y in A2.
  unfold OrientedRect.proj_aabb, OrientedRect.proj_obb, OrientedRect.dot in A3, A4.
  set (c := cos (OrientedRect.theta_rad v)) in *.
  set (s := sin (OrientedRect.theta_rad v)) in *.
  replace (c * c + s * s) with 1 in A3 by (symmetry; exact E).
  replace (- s * c + c * s) with 0 in A3 by ring.
  replace (c * - s + s * c) with 0 in A4 by ring.
  replace (- s * - s + c * c) with 1 in A4 by (rewrite <- E; ring).
  rewrite Rabs_R1, Rabs_R0 in A3, A4. rewrite Rabs_Ropp in A4.
  apply overlap_true in A1. apply overlap_true in A2.
  apply overlap_true in A3. apply overlap_true in A4.
  unfold Rect.xmin, Rect.xmax in A1. unfold Rect.ymin, Rect.ymax in A2.
  destruct (@sat_any c s (OrientedRect.cx v - Rect.cx r)
                     (OrientedRect.cy v - Rect.cy r)
                     (Rect.hw r) (Rect.hh r)
                     (OrientedRect.hw v) (OrientedRect.hh v))
    as (p & q & Hp & Hq & Hx & Hy); try assumption.
  - apply Rabs_le_bounds. lra.
  - apply Rabs_le_bounds. lra.
  - apply Rabs_le_bounds. lra.
  - apply Rabs_le_bounds. lra.
  - exists (OrientedRect.cx v + p * c - q * s), (OrientedRect.cy v + p * s + q * c).
    split.
    + unfold in_box, Rect.xmin, Rect.xmax, Rect.ymin, Rect.ymax. lra.
    + exists p, q. fold c s.
      repeat split; try reflexivity; apply Rabs_le_bounds; assumption.
Qed.

(** The test of the code is the geometric notion. *)
Lemma sat_exact (v : OrientedRect.t) (r : Rect.t) :
  0 <= Rect.hw r -> 0 <= Rect.hh r ->
  0 <= OrientedRect.hw v -> 0 <= OrientedRect.hh v ->
  (OrientedRect.intersects_aabb v r = true <-> shares_point v r).
Proof.
  intros Hw Hh HW HH. split.
  - apply intersects_shares_point; assumption.
  - apply shares_point_intersects.
Qed.

End SeparatingAxes.

(** X25.  The separating-axis test is exact: for a box and a viewport
    without negative half-extents, [intersects_aabb] returns [True]
    exactly when some point of the plane lies both in the box and in the
    rotated rectangle of the viewport. *)
Theorem separating_axis_test_is_exact (v : OrientedRect.t) (r : Rect.t) :
  (0 <= Rect.hw r)%R -> (0 <= Rect.hh r)%R ->
  (0 <= OrientedRect.hw v)%R -> (0 <= OrientedRect.hh v)%R ->
  (OrientedRect.intersects_aabb v r = true <-> shares_point v r).
Proof. apply sat_exact. Qed.

Lemma separating_axis_test_is_exact_witness :
  OrientedRect.intersects_aabb (OrientedRect.mk 10 96 90 160 (PI / 6))
                               (Rect.mk 0 0 512 512) = true
  <-> shares_point (OrientedRect.mk 10 96 90 160 (PI / 6)) (Rect.mk 0 0 512 512).
Proof.
  apply separating_axis_test_is_exact;
    cbn [Rect.hw Rect.hh OrientedRect.hw OrientedRect.hh]; lra.
Defined.

(** * The scenario, with intersection as a common point *)

(** C2.  For the tree with root box centered at (0,0) with half-extents
    (512,512), cells_across = 4, min_depth = 0 and max_depth = 20, and the
    viewport centered at (10,96) with half-extents (90,160) rotated by 30
    degrees: the ratio is 4096/180, its base-2 logarithm lies in (4, 5],
    the target depth is 5, and the query visits exactly the quadtree
    cells of depth at most 5 whose boxes intersect the rotated rectangle,
    that is, have a point in common with it: every visited node is such
    a cell, and every such cell is visited. *)
Theorem end_to_end_scenario :
  let T := QuadTree.from_center 0 0 512 512 4 in
  let V := OrientedRect.mk 10 96 90 160 (30 * (PI / 180)) in
  let root_box := QuadNode.rect (QuadTree.root T) in
  QuadTree.ratio T V = (4096 / 180)%R
  /\ QuadTree.pseudo_depth T V = Ok (log2 (4096 / 180))
  /\ (4 < log2 (4096 / 180) <= 5)%R
  /\ QuadTree.desired_depth T V = Ok 5%Z
  /\ exists T' visited,
       QuadTree.update T V None = Ok (T', visited)
       /\ (forall m, In m visited ->
             shares_point V (QuadNode.rect m)
             /\ OrientedRect.intersects_aabb V (QuadNode.rect m) = true
             /\ (0 <= QuadNode.depth m <= 5)%Z
             /\ Forall quadrant_index (QuadNode.path m)
             /\ QuadNode.depth m = Z.of_nat (length (QuadNode.path m))
             /\ QuadNode.rect m = rect_of_path root_box (QuadNode.path m))
       /\ (forall p, Forall quadrant_index p -> (length p <= 5)%nat ->
             shares_point V (rect_of_path root_box p) ->
             exists m, In m visited /\ QuadNode.path m = p
                       /\ QuadNode.rect m = rect_of_path root_box p).
Proof.
  intros T V root_box.
  split; [apply scenario_ratio|].
  split.
  { unfold QuadTree.pseudo_depth. cbv zeta. unfold T, V.
    rewrite scenario_ratio.
    destruct (Rlt_dec 0 (4096 / 180)) as [_|Hn]; [reflexivity | exfalso; lra]. }
  split; [apply scenario_pseudo_depth|].
  split; [apply scenario_desired_depth|].
  destruct (@update_visits_exactly root_box T V)
    as (D & T' & visited & HD & Hu & _ & Hsound & Hcomplete).
  - apply reach_fresh.
  - apply scenario_valid_config.
  - assert (D = 5%Z).
    { pose proof scenario_desired_depth as H5. unfold T, V in HD. congruence. }
    subst D. exists T', visited. split; [exact Hu|]. split.
    + intros m Hm.
      destruct (Hsound m Hm) as (Hint & Hd & Hp & Hlen & Hrect).
      split; [|exact (conj Hint (conj Hd (conj Hp (conj Hlen Hrect))))].
      assert (Hnn : (0 <= Rect.hw (QuadNode.rect m))%R
                    /\ (0 <= Rect.hh (QuadNode.rect m))%R).
      { rewrite Hrect. apply rect_of_path_nonneg; [| | exact Hp];
          unfold root_box, T; cbn; lra. }
      apply intersects_shares_point; try tauto;
        unfold V; cbn [OrientedRect.hw OrientedRect.hh]; lra.
    + intros p Hp Hlen Hshare. apply Hcomplete; [exact Hp | lia |].
      apply shares_point_intersects. exact Hshare.
Qed.

(** * The visited nodes, with intersection as a common point *)

(** X17.  The visited list of a query holds exactly the nodes of the
    resulting tree whose box intersects the viewport, that is, has a
    point in common with its rotated rectangle; every other node left in
    the tree is a leaf.  This is for any stop predicate, a viewport
    without negative half-extents and a node whose box has none. *)
Theorem visited_are_the_intersecting_nodes
        (t t' : QuadTree.t) (viewport : OrientedRect.t)
        (stop : option QuadNode.StopPredicate) (visited : list QuadNode.t)
        (m : QuadNode.t) :
  QuadTree.update t viewport stop = Ok (t', visited) ->
  (0 <= OrientedRect.hw viewport)%R -> (0 <= OrientedRect.hh viewport)%R ->
  (0 <= Rect.hw (QuadNode.rect m))%R -> (0 <= Rect.hh (QuadNode.rect m))%R ->
  (In m visited
   <-> subnode m (QuadTree.root t')
       /\ shares_point viewport (QuadNode.rect m))
  /\ (subnode m (QuadTree.root t') -> ~ In m visited ->
      QuadNode.children m = None
      /\ ~ shares_point viewport (QuadNode.rect m)).
Proof.
  intros H HW HH Hw Hh. destruct (update_inv _ _ _ H) as (s & n' & _ & Ht & ->).
  cbn [QuadTree.root QuadTree.set_root]. split; [split|].
  - intros Hm.
    destruct (@traverse_visited_intersect _ _ _ _ _ _ _ _ Ht Hm) as [Hi Hs].
    split; [exact Hs|]. apply intersects_shares_point; assumption.
  - intros [Hs Hi]. apply shares_point_intersects in Hi.
    destruct (@traverse_tree_nodes _ _ _ _ _ _ _ _ Ht Hs) as [Hv | [_ Hf]];
      [exact Hv | congruence].
  - intros Hs Hn.
    destruct (@traverse_tree_nodes _ _ _ _ _ _ _ _ Ht Hs) as [Hv | [Hl Hf]];
      [contradiction|].
    split; [exact Hl|]. intros Hi. apply shares_point_intersects in Hi.
    congruence.
Qed.

Lemma visited_are_the_intersecting_nodes_witness :
  exists t' visited,
    QuadTree.update (QuadTree.from_center 0 0 512 512 4)
                    (OrientedRect.mk 10 96 90 160 (30 * (PI / 180))) None
    = Ok (t', visited)
    /\ In (QuadTree.root t') visited
    /\ (In (QuadTree.root t') visited
        <-> subnode (QuadTree.root t') (QuadTree.root t')
            /\ shares_point (OrientedRect.mk 10 96 90 160 (30 * (PI / 180)))
                            (QuadNode.rect (QuadTree.root t'))).
Proof.
  destruct scenario_query_returns as (t' & visited & Hu & Hin).
  exists t', visited. split; [exact Hu|]. split; [exact Hin|].
  assert (Hrect : QuadNode.rect (QuadTree.root t') = Rect.mk 0 0 512 512).
  { destruct (update_inv _ _ _ Hu) as (s & n' & _ & Ht & ->).
    cbn [QuadTree.root QuadTree.set_root].
    pose proof (traverse_rec_same _ _ _ _ _ Ht) as [(Hr & _ & _) _].
    rewrite Hr. reflexivity. }
  apply (@visited_are_the_intersecting_nodes
           (QuadTree.from_center 0 0 512 512 4) t'
           (OrientedRect.mk 10 96 90 160 (30 * (PI / 180))) None visited
           (QuadTree.root t') Hu);
    rewrite ?Hrect; cbn [Rect.hw Rect.hh OrientedRect.hw OrientedRect.hh]; lra.
Defined.
